(** * match.js: structural pattern matching over nested arrays

    A shallow embedding of [match.js] and the properties of its matcher.

    - JavaScript data (candidates, literals) is the type [value].
    - A predicate returned by [matchable] is a [pat]: the closure it wraps
      ([fn]), the [type] tag attached to it and the [binding] label that
      [name] sets.
    - The binding context [j] is one JavaScript object shared by a whole
      match; it is threaded as an explicit state, a [gmap] from the slots
      of the object, its own properties and its prototype, to values.  A
      predicate returns [j] (truthy) or [false]; calling what is not a
      function raises a [TypeError].
    - Calls are counted by a fuel argument; [apply_terminates] shows which
      fuel is enough and [run] is the resulting total matcher. *)

From stdpp Require Import base strings gmap list.
From Stdlib Require Import ZArith Lia.

#[local] Set Warnings "-register-all".

Open Scope Z_scope.
Open Scope nat_scope.

(** ** Data *)

(** JavaScript values that are data.  Numbers are the integral ones and
    [NaN], the number that is not equal to itself. *)
Inductive value : Type :=
| VUndef
| VNull
| VNum (n : Z)
| VStr (s : string)
| VBool (b : bool)
| VArr (xs : list value)
| VNaN.

(** The functions used as [type] tags: [result.type = type]. *)
Inductive tag : Type :=
| any_t | is_t | number_t | string_t | boolean_t
| or_t | repeat_t | lazy_t | greedy_t | lst_t.

Definition tag_eqb (a b : tag) : bool :=
  match a, b with
  | any_t, any_t | is_t, is_t | number_t, number_t | string_t, string_t
  | boolean_t, boolean_t | or_t, or_t | repeat_t, repeat_t
  | lazy_t, lazy_t | greedy_t, greedy_t | lst_t, lst_t => true
  | _, _ => false
  end.

(** [min] and [max] as the closure of [repeat] holds them: [false] when both
    were omitted, [undefined] when only that one was, else a number. *)
Inductive bound : Type :=
| BFalse
| BUndef
| BNum (n : Z).

(** A predicate [matchable(p, type)], the closure [p] it calls, and the
    chunks of a sequence: an array of predicates or one repetition. *)
Inductive pat : Type :=
| Matchable (p : fn) (type : tag) (binding : option string)
with fn : Type :=
| any_fn
| is_fn (object : value)
| number_fn
| string_fn
| boolean_fn
| or_fn (args : list pat)
| name_fn (str : string) (p : pat)
| repeat_fn (p : pat) (min max : bound)
| lst_fn (chunks : list chunk)
| pat_fn (p : pat)
| not_fn (s : string)
with chunk : Type :=
| Fixed (fx : list pat)
| Rep (e : pat).

(** What [match] accepts: the function [any] itself, a predicate, an array
    of such, or a scalar. *)
Inductive raw : Type :=
| RAny
| RPat (p : pat)
| RArr (ps : list raw)
| RUndef
| RNull
| RNum (n : Z)
| RStr (s : string)
| RBool (b : bool)
| RNaN.

(** The slots of the binding object, an ordinary object with writable
    data properties: an own property, or the prototype.  The prototype is
    [Object.prototype] as long as the slot is absent; the setter of
    [__proto__] can replace it by [null] or by an array. *)
Inductive slot : Type :=
| Own (p : string)
| Proto.

#[global] Instance slot_eq_dec : EqDecision slot.
Proof. solve_decision. Defined.

#[global] Instance slot_countable : Countable slot.
Proof.
  refine (inj_countable'
            (fun s => match s with Own p => Some p | Proto => None end)
            (fun o => match o with Some p => Own p | None => Proto end) _).
  by intros [].
Defined.

(** The shared binding object. *)
Abbreviation ctx := (gmap slot value).

(** What a call leaves behind: the returned [j], [false], or a TypeError. *)
Inductive outcome : Type :=
| Matched
| NoMatch
| TypeError.

Definition res : Type := outcome * ctx.

(** ** Host operations *)

Definition type_of (f : pat) : tag :=
  match f with Matchable _ t _ => t end.

Definition binding_of (f : pat) : option string :=
  match f with Matchable _ _ b => b end.

(** [typeof(x)] for data. *)
Definition typeof (x : value) : string :=
  match x with
  | VUndef => "undefined"
  | VNull | VArr _ => "object"
  | VNum _ | VNaN => "number"
  | VStr _ => "string"
  | VBool _ => "boolean"
  end.

(** [x === object].  Two arrays are equal only when they are one object;
    the literals held by patterns and the candidate data are separate
    objects, so arrays never compare equal.  [NaN] is equal to nothing,
    itself included. *)
Definition strict_eq (x object : value) : bool :=
  match x, object with
  | VUndef, VUndef => true
  | VNull, VNull => true
  | VNum a, VNum b => Z.eqb a b
  | VStr a, VStr b => String.eqb a b
  | VBool a, VBool b => Bool.eqb a b
  | _, _ => false
  end.

(** [x.slice(a, b)] for [0 <= a <= b]; indices past the end are clipped. *)
Definition slice (x : list value) (a b : nat) : list value :=
  take (b - a) (drop a x).

(** [x[i]], [undefined] when out of range. *)
Definition index (x : list value) (i : nat) : value :=
  default VUndef (x !! i).

(** [x.length < b] and [x.length > b]; comparing with [undefined] or with
    [false] follows ToNumber: NaN and 0. *)
Definition len_lt (len : nat) (b : bound) : bool :=
  match b with
  | BNum n => Z.ltb (Z.of_nat len) n
  | BFalse => Z.ltb (Z.of_nat len) 0
  | BUndef => false
  end.

Definition len_gt (len : nat) (b : bound) : bool :=
  match b with
  | BNum n => Z.gtb (Z.of_nat len) n
  | BFalse => Z.gtb (Z.of_nat len) 0
  | BUndef => false
  end.

Definition not_false (b : bound) : bool :=
  match b with BFalse => false | _ => true end.

(** ** Pattern constructors *)

Definition matchable (p : fn) (type : tag) : pat := Matchable p type None.

Definition any : pat := matchable any_fn any_t.

Definition is_ (object : value) : pat := matchable (is_fn object) is_t.

Definition number : pat := matchable number_fn number_t.
Definition string_ : pat := matchable string_fn string_t.
Definition boolean : pat := matchable boolean_fn boolean_t.

(** [e => e && (e.type === greedy || e.type === lazy)] *)
Definition is_repeating (e : pat) : bool :=
  tag_eqb (type_of e) greedy_t || tag_eqb (type_of e) lazy_t.

(** [chunkify(list, pred)], the loop with its two accumulators. *)
Fixpoint chunkify_for (pred : pat -> bool) (l : list pat)
    (fx : list pat) (result : list chunk) : list chunk :=
  match l with
  | [] => if (0 <? length fx) then result ++ [Fixed fx] else result
  | e :: l' =>
      if negb (pred e) then chunkify_for pred l' (fx ++ [e]) result
      else
        let result := if (0 <? length fx) then result ++ [Fixed fx] else result in
        chunkify_for pred l' [] (result ++ [Rep e])
  end.

Definition chunkify (l : list pat) (pred : pat -> bool) : list chunk :=
  chunkify_for pred l [] [].

(** [lst] once its arguments went through [ps.map(match)]. *)
Definition lst_of (ps : list pat) : pat :=
  matchable (lst_fn (chunkify ps is_repeating)) lst_t.

Fixpoint match_ (p : raw) : pat :=
  match p with
  | RAny => any
  | RPat f => f
  | RArr ps => lst_of (map match_ ps)
  | RUndef => is_ VUndef
  | RNull => is_ VNull
  | RNum n => is_ (VNum n)
  | RStr s => is_ (VStr s)
  | RBool b => is_ (VBool b)
  | RNaN => is_ VNaN
  end.

Definition lst (ps : list raw) : pat := lst_of (map match_ ps).

Definition or_ (args : list raw) : pat :=
  matchable (or_fn (map match_ args)) or_t.

(** [typeof(p) === 'undefined'] replaces [p] by [any()]. *)
Definition or_any (p : raw) : raw :=
  match p with RUndef => RPat any | _ => p end.

(** [m.binding = str] *)
Definition set_binding (m : pat) (str : string) : pat :=
  match m with Matchable p t _ => Matchable p t (Some str) end.

Definition name (str : string) (p : raw) : pat :=
  let p := match_ (or_any p) in
  let m := matchable (name_fn str p) (type_of p) in
  set_binding m str.

Definition repeat_error : string := "repeat pattern error min/max".

(** [repeat(p, min, max)]; an omitted bound is [None].  The result is a
    predicate, or the string returned after [console.error]. *)
Definition repeat_ (p : raw) (min max : option Z) : pat + string :=
  match min, max with
  | None, None =>
      inl (matchable (repeat_fn (match_ (or_any p)) BFalse BFalse) repeat_t)
  | None, Some _ => inr repeat_error
  | Some lo, None =>
      inl (matchable (repeat_fn (match_ (or_any p)) (BNum lo) BUndef) repeat_t)
  | Some lo, Some hi =>
      inl (matchable (repeat_fn (match_ (or_any p)) (BNum lo) (BNum hi)) repeat_t)
  end.

(** The value [repeat] returned, in the place of a function. *)
Definition callee (p : pat + string) : fn :=
  match p with
  | inl f => pat_fn f
  | inr s => not_fn s
  end.

Definition lazy_ (p : raw) (min max : option Z) : pat :=
  matchable (callee (repeat_ p min max)) lazy_t.

Definition greedy (p : raw) (min max : option Z) : pat :=
  matchable (callee (repeat_ p min max)) greedy_t.

(** An assignment to [__proto__] defines an own property of [j]: there is
    one already, or the prototype of [j] is [null], which puts the setter
    of [Object.prototype] out of reach. *)
Definition direct (j : ctx) : bool :=
  match j !! Own "__proto__", j !! Proto with
  | Some _, _ | _, Some VNull => true
  | _, _ => false
  end.

(** [j[str] = x] on an ordinary object with writable properties.  The
    assignment defines or updates the own property [str], except under the
    name [__proto__] when [j] has no such property and inherits the
    accessor of [Object.prototype]: then the setter runs, which replaces
    the prototype of [j] when [x] is an object or [null] and does nothing
    for any other [x]. *)
Definition assign (j : ctx) (str : string) (x : value) : ctx :=
  if String.eqb str "__proto__" && negb (direct j) then
    match x with
    | VNull | VArr _ => <[Proto := x]> j
    | _ => j
    end
  else <[Own str := x]> j.

(** ** Calls *)

(** A call that may run out of fuel. *)
Definition call_res : Type := option res.

(** [if (c) yes else no] on the result of a call: [j] is truthy, [false]
    is not, and an exception leaves the function. *)
Definition branch (c : call_res) (yes no : ctx -> call_res) : call_res :=
  match c with
  | None => None
  | Some (Matched, j) => yes j
  | Some (NoMatch, j) => no j
  | Some (TypeError, j) => Some (TypeError, j)
  end.

Definition ret (o : outcome) (j : ctx) : call_res := Some (o, j).

Section Loops.

(** The predicates the loops call: [apply] with the fuel that is left. *)
Variable call : pat -> value -> ctx -> call_res.

(** [or]: [for (i ...) if (args[i](x, j)) return j; return false] *)
Fixpoint or_for (args : list pat) (x : value) (j : ctx) : call_res :=
  match args with
  | [] => ret NoMatch j
  | a :: args' =>
      branch (call a x j) (ret Matched) (or_for args' x)
  end.

(** [repeat]: [for (i ...) if (!p(x[i], j)) return false; return j] *)
Fixpoint repeat_for (p : pat) (x : list value) (j : ctx) : call_res :=
  match x with
  | [] => ret Matched j
  | e :: x' =>
      branch (call p e j) (repeat_for p x') (ret NoMatch)
  end.

(** The closure of [repeat]. *)
Definition repeat_body (p : pat) (min max : bound) (x : value) (j : ctx)
    : call_res :=
  match x with
  | VArr xs =>
      if not_false min && len_lt (length xs) min then ret NoMatch j
      else if not_false max && len_gt (length xs) max then ret NoMatch j
      else repeat_for p xs j
  | _ => ret NoMatch j
  end.

(** The closure of [name]. *)
Definition name_body (str : string) (p : pat) (x : value) (j : ctx)
    : call_res :=
  branch (call p x j) (fun j => ret Matched (assign j str x)) (ret NoMatch).

Section Submatch.

Variable chunks : list chunk.
Variable x : list value.

(** [chunk.length]: the [length] of a predicate is the arity of
    [function(x, j)]. *)
Definition chunk_length (c : chunk) : nat :=
  match c with
  | Fixed fx => length fx
  | Rep _ => 2
  end.

(** [chunks[i].type === t]: an array has no [type]. *)
Definition has_type (c : option chunk) (t : tag) : bool :=
  match c with
  | Some (Rep e) => tag_eqb (type_of e) t
  | _ => false
  end.

(** The loop that sums [fixlength]: [n] rounds are left. *)
Fixpoint fixlength_for (ci : nat) (n : nat) (fixlength : Z) : Z :=
  match n with
  | 0 => fixlength
  | S n' =>
      let next := from_option chunk_length 0 (chunks !! (ci + 1)) in
      if negb (has_type (chunks !! ci) greedy_t)
         && negb (has_type (chunks !! ci) lazy_t)
         && (0 <? next)
      then fixlength_for ci n' (fixlength + Z.of_nat next)
      else fixlength_for ci n' fixlength
  end.

(** [for (replength = ...; replength >= 0; replength--)]: [n] rounds
    are left and this one has [replength = n - 1]. *)
Fixpoint greedy_for (chunk : pat) (next : nat -> ctx -> call_res)
    (xi : nat) (n : nat) (j : ctx) : call_res :=
  match n with
  | 0 => ret NoMatch j
  | S replength =>
      branch (call chunk (VArr (slice x xi (xi + replength))) j)
        (fun j => branch (next (xi + replength) j)
                    (ret Matched)
                    (greedy_for chunk next xi replength))
        (greedy_for chunk next xi replength)
  end.

(** [for (replength = 0; replength <= fixlength; replength++)]: [n]
    rounds are left. *)
Fixpoint lazy_for (chunk : pat) (next : nat -> ctx -> call_res)
    (xi : nat) (n : nat) (replength : nat) (j : ctx) : call_res :=
  match n with
  | 0 => ret NoMatch j
  | S n' =>
      branch (call chunk (VArr (slice x xi (xi + replength))) j)
        (fun j => branch (next (xi + replength) j)
                    (ret Matched)
                    (lazy_for chunk next xi n' (S replength)))
        (lazy_for chunk next xi n' (S replength))
  end.

(** [for (c ...) if (!chunk[c](x[c+xi], j)) return false], then the
    rest of the sequence. *)
Fixpoint fixed_for (chunk : list pat) (xi : nat) (c : nat)
    (rest : ctx -> call_res) (j : ctx) : call_res :=
  match chunk with
  | [] => rest j
  | e :: chunk' =>
      branch (call e (index x (c + xi)) j)
        (fixed_for chunk' xi (S c) rest)
        (ret NoMatch)
  end.

Fixpoint submatch (fuel : nat) (ci xi : nat) (j : ctx) : call_res :=
  match fuel with
  | 0 => None
  | S fuel =>
      if (length chunks <=? ci) && (length x <=? xi) then ret Matched j
      else if (length chunks <=? ci) then ret NoMatch j
      else
        match chunks !! ci with
        | None => ret TypeError j
        | Some chunk =>
            let datalen := (Z.of_nat (length x) - Z.of_nat xi)%Z in
            match chunk with
            | Rep e =>
                if tag_eqb (type_of e) greedy_t then
                  let fixlength :=
                    fixlength_for ci (length chunks - (ci + 1)) 0 in
                  greedy_for e (submatch fuel (ci + 1)) xi
                    (Z.to_nat (datalen - fixlength + 1)) j
                else if tag_eqb (type_of e) lazy_t then
                  let fixlength := length x in
                  lazy_for e (submatch fuel (ci + 1)) xi
                    (S fixlength) 0 j
                else
                  (* a function where an array is expected: its
                     [length] is 2 and [chunk[0]] is undefined *)
                  if (datalen <? 2)%Z then ret NoMatch j
                  else ret TypeError j
            | Fixed fx =>
                let chunklen := length fx in
                if (datalen <? Z.of_nat chunklen)%Z then ret NoMatch j
                else
                  fixed_for fx xi 0
                    (submatch fuel (ci + 1) (xi + chunklen)) j
            end
        end
  end.

End Submatch.

End Loops.

(** The body of a predicate [f], with the predicates it calls given by
    [call] and [fuel] left for the recursion of [submatch]. *)
Definition apply_body (call : pat -> value -> ctx -> call_res) (fuel : nat)
    (f : pat) (x : value) (j : ctx) : call_res :=
  match f with
  | Matchable p _ _ =>
      match p with
      | any_fn => ret Matched j
      | is_fn object =>
          if strict_eq x object then ret Matched j else ret NoMatch j
      | number_fn =>
          if String.eqb (typeof x) "number" then ret Matched j
          else ret NoMatch j
      | string_fn =>
          if String.eqb (typeof x) "string" then ret Matched j
          else ret NoMatch j
      | boolean_fn =>
          if String.eqb (typeof x) "boolean" then ret Matched j
          else ret NoMatch j
      | or_fn args => or_for call args x j
      | name_fn str p => name_body call str p x j
      | repeat_fn p min max => repeat_body call p min max x j
      | lst_fn chunks =>
          match x with
          | VArr xs => submatch call chunks xs fuel 0 0 j
          | _ => ret NoMatch j
          end
      | pat_fn q => call q x j
      | not_fn _ => ret TypeError j
      end
  end.

(** [f(x, j)]: one unit of fuel per call of a predicate. *)
Fixpoint apply (fuel : nat) (f : pat) (x : value) (j : ctx) : call_res :=
  match fuel with
  | 0 => None
  | S fuel => apply_body (apply fuel) fuel f x j
  end.

(** ** Fuel *)

(** The nesting depth of a predicate, counting one more than the number of
    chunks for a sequence: the calls [apply] needs. *)
Fixpoint height (f : pat) : nat :=
  match f with
  | Matchable p _ _ => S (height_fn p)
  end
with height_fn (p : fn) : nat :=
  match p with
  | or_fn args => max_list_with height args
  | name_fn _ q => height q
  | repeat_fn q _ _ => height q
  | lst_fn chunks =>
      S (length chunks) `max` max_list_with height_chunk chunks
  | pat_fn q => height q
  | _ => 0
  end
with height_chunk (c : chunk) : nat :=
  match c with
  | Fixed fx => max_list_with height fx
  | Rep e => height e
  end.

(** The total matcher: [apply] with the fuel of [height]. *)
Definition run (f : pat) (x : value) (j : ctx) : res :=
  default (TypeError, j) (apply (height f) f x j).

(** A top-level call [f(x)]: [matchable] starts from a fresh [{}]. *)
Definition invoke (f : pat) (x : value) : res := run f x ∅.

(** The callback of the loops at full fuel. *)
Definition run_call (f : pat) (x : value) (j : ctx) : call_res :=
  Some (run f x j).

(** [submatch(ci, xi)] of a sequence with enough fuel for its chunks. *)
Definition search (chunks : list chunk) (x : list value) (ci xi : nat)
    (j : ctx) : res :=
  default (TypeError, j)
    (submatch run_call chunks x (S (length chunks - ci)) ci xi j).

(** Predicates free of calls to what is not a function: every [lazy] and
    [greedy] wraps a predicate, and a repetition chunk has the [type] that
    made [chunkify] single it out. *)
Fixpoint well_formed (f : pat) : bool :=
  match f with
  | Matchable p _ _ => well_formed_fn p
  end
with well_formed_fn (p : fn) : bool :=
  match p with
  | or_fn args => forallb well_formed args
  | name_fn _ q => well_formed q
  | repeat_fn q _ _ => well_formed q
  | lst_fn chunks => forallb well_formed_chunk chunks
  | pat_fn q => well_formed q
  | not_fn _ => false
  | _ => true
  end
with well_formed_chunk (c : chunk) : bool :=
  match c with
  | Fixed fx => forallb well_formed fx
  | Rep e => well_formed e && is_repeating e
  end.

(** ** Dispatch *)

(** An entry of the [clauses] array: a predicate or a handler. *)
Inductive clause (A : Type) : Type :=
| Pred (f : pat)
| Func (func : ctx -> A).
Arguments Pred {A} f.
Arguments Func {A} func.

Inductive exn : Type :=
| Error (msg : string)
| NotAFunction.

(** How [select] ends: with an exception, with what the handler of a
    clause returned, with what the fallback returned, or with [false].
    [Unsorted] stands for an array that does not alternate predicates and
    handlers, which is outside this model. *)
Inductive selected (A : Type) : Type :=
| Threw (e : exn)
| Handled (r : A)
| FellBack (r : A)
| ReturnedFalse
| Unsorted.
Arguments Threw {A} e.
Arguments Handled {A} r.
Arguments FellBack {A} r.
Arguments ReturnedFalse {A}.
Arguments Unsorted {A}.

Section Select.

Context {A : Type}.

(** [fallback ? fallback(x) : false] *)
Definition or_fallback (fallback : option (value -> A)) (x : value)
    : selected A :=
  match fallback with
  | Some h => FellBack (h x)
  | None => ReturnedFalse
  end.

(** [for (i = 0; i < clauses.length; i += 2)]: [n] rounds are left. *)
Fixpoint select_for (x : value) (clauses : list (clause A))
    (fallback : option (value -> A)) (i : nat) (n : nat) : selected A :=
  match n with
  | 0 => or_fallback fallback x
  | S n' =>
      match clauses !! i, clauses !! (i + 1) with
      | Some (Pred match_i), Some (Func func) =>
          match invoke match_i x with
          | (Matched, m) => Handled (func m)
          | (NoMatch, _) => select_for x clauses fallback (i + 2) n'
          | (TypeError, _) => Threw NotAFunction
          end
      | _, _ => Unsorted
      end
  end.

Definition select (x : value) (clauses : list (clause A))
    (fallback : option (value -> A)) : selected A :=
  if negb (length clauses mod 2 =? 0)
  then Threw (Error "number of clauses is not even")
  else select_for x clauses fallback 0 (Nat.div2 (S (length clauses))).

(** The array [[m1, f1, m2, f2, ...]] of a list of pairs. *)
Definition clauses_of (pairs : list (pat * (ctx -> A))) : list (clause A) :=
  flat_map (fun mf => [Pred (fst mf); Func (snd mf)]) pairs.

(** In the words of the specification: the handler of the first pair
    whose predicate matches, else the fallback. *)
Fixpoint dispatch (x : value) (pairs : list (pat * (ctx -> A)))
    (fallback : option (value -> A)) : selected A :=
  match pairs with
  | [] => or_fallback fallback x
  | (m, h) :: pairs' =>
      match invoke m x with
      | (Matched, j) => Handled (h j)
      | (NoMatch, _) => dispatch x pairs' fallback
      | (TypeError, _) => Threw NotAFunction
      end
  end.

(** No predicate of [pairs] matches [x]. *)
Definition none_matches (x : value) (pairs : list (pat * (ctx -> A)))
    : Prop :=
  Forall (fun mf => fst (invoke (fst mf) x) = NoMatch) pairs.

End Select.

(** ** The greedy search in the words of the specification *)

(** Try the consumption lengths [rounds - 1] down to [0]: validate the
    slice, then attempt the remainder; the first overall success wins. *)
Fixpoint descend (validate : list value -> ctx -> res)
    (remainder : nat -> ctx -> res) (x : list value) (xi : nat)
    (rounds : nat) (j : ctx) : res :=
  match rounds with
  | 0 => (NoMatch, j)
  | S r =>
      match validate (slice x xi (xi + r)) j with
      | (Matched, j1) =>
          match remainder (xi + r) j1 with
          | (NoMatch, j2) => descend validate remainder x xi r j2
          | other => other
          end
      | (NoMatch, j1) => descend validate remainder x xi r j1
      | (TypeError, j1) => (TypeError, j1)
      end
  end.

(** [R], the number of elements left from [xi], as the integer
    [x.length - xi]. *)
Definition remaining (x : list value) (xi : nat) : Z :=
  (Z.of_nat (length x) - Z.of_nat xi)%Z.

Definition greedy_spec (e : pat) (chunks : list chunk) (x : list value)
    (ci xi : nat) (j : ctx) : res :=
  descend (fun s => run e (VArr s)) (search chunks x (ci + 1)) x xi
    (Z.to_nat (remaining x xi + 1)) j.

(** The attempt at length [r] succeeds overall: the slice is valid and the
    remainder succeeds behind it. *)
Definition attempt (validate : list value -> ctx -> res)
    (remainder : nat -> ctx -> res) (x : list value) (xi r : nat) : Prop :=
  fst (validate (slice x xi (xi + r)) ∅) = Matched
  /\ fst (remainder (xi + r) ∅) = Matched.

(** The slice of length [r] at [xi] is valid for the repetition [e], and
    the chunks after [ci] succeed behind it. *)
Definition consumes (e : pat) (chunks : list chunk) (x : list value)
    (ci xi r : nat) : Prop :=
  attempt (fun s => run e (VArr s)) (search chunks x (ci + 1)) x xi r.


(** ** Relations between calls *)

(** [sim R c1 c2]: if the first call returns, the second returns the same
    outcome, in a context related by [R]. *)
Definition sim (R : ctx -> ctx -> Prop) (c1 c2 : call_res) : Prop :=
  match c1 with
  | None => True
  | Some (o, j1) => exists j2, c2 = Some (o, j2) /\ R j1 j2
  end.

Definition sim_k (R : ctx -> ctx -> Prop) (k1 k2 : ctx -> call_res) : Prop :=
  forall j1 j2, R j1 j2 -> sim R (k1 j1) (k2 j2).

(** The predicates a chunk calls. *)
Definition chunk_pats (c : chunk) : list pat :=
  match c with
  | Fixed fx => fx
  | Rep e => [e]
  end.

(** [post Q P c j]: if the call [c], started in context [j], returns, then
    the context it leaves is related to [j] by [Q], and under [P] it did
    not raise. *)
Definition post (Q : ctx -> ctx -> Prop) (P : Prop) (c : call_res) (j : ctx)
    : Prop :=
  match c with
  | None => True
  | Some (o, j') => Q j j' /\ (P -> o <> TypeError)
  end.

(** ** Vocabulary of the statements *)

(** [f] matches [x] in a top-level call. *)
Definition matches (f : pat) (x : value) : Prop :=
  fst (invoke f x) = Matched.

(** The context after the elements of [xs] went through [p], in order. *)
Definition fold_elems (p : pat) (xs : list value) (j : ctx) : ctx :=
  foldl (fun j e => snd (run p e j)) j xs.

(** A length within [[min, max]]; an omitted bound does not constrain. *)
Definition within (len : nat) (min max : option Z) : Prop :=
  match min with Some lo => (lo <= Z.of_nat len)%Z | None => True end
  /\ match max with Some hi => (Z.of_nat len <= hi)%Z | None => True end.

(** Both bounds, or neither. *)
Definition paired (min max : option Z) : Prop :=
  match min, max with
  | Some _, Some _ | None, None => True
  | _, _ => False
  end.

(** The shape of a chunk: the length of a fixed block, or a repetition. *)
Definition chunk_kind (c : chunk) : option nat :=
  match c with
  | Fixed fx => Some (length fx)
  | Rep _ => None
  end.

(** A raw pattern whose predicates are well formed. *)
Fixpoint raw_well_formed (p : raw) : bool :=
  match p with
  | RPat f => well_formed f
  | RArr ps => forallb raw_well_formed ps
  | _ => true
  end.

(** ** Examples of the test suite *)

(** [[name('A', X()), name('B', greedy(2))]] for [X] one of [lazy] and
    [greedy]. *)
Definition lazy_vs_greedy (X : raw -> option Z -> option Z -> pat) : pat :=
  lst [RPat (name "A" (RPat (X RUndef None None)));
       RPat (name "B" (RPat (greedy (RNum 2) None None)))].

Definition nums (l : list Z) : value := VArr (map VNum l).

(** [or([name('A', any), 2], any)]: the first alternative binds [A] to the
    first element and then fails on the second. *)
Definition first_alternative : pat :=
  match_ (RArr [RPat (name "A" RAny); RNum 2]).
Definition second_alternative : pat := match_ RAny.
Definition leaking : pat :=
  or_ [RArr [RPat (name "A" RAny); RNum 2]; RAny].

(** ** Sequences at full fuel *)

(** The loop over a fixed chunk with [run] for the calls: the context after
    the elements matched, or the first answer that is not a match. *)
Fixpoint fixed_run (fx : list pat) (x : list value) (xi c : nat) (j : ctx)
    : res :=
  match fx with
  | [] => (Matched, j)
  | e :: fx' =>
      match run e (index x (c + xi)) j with
      | (Matched, j1) => fixed_run fx' x xi (S c) j1
      | other => other
      end
  end.

(** [if (fx.length) result.push(fx)] of [chunkify]. *)
Definition flush (fx : list pat) : list chunk :=
  if 0 <? length fx then [Fixed fx] else [].

(** The lazy loop in the same words as [descend]: the lengths
    [replength], [replength + 1], ... for [rounds] rounds. *)
Fixpoint ascend (validate : list value -> ctx -> res)
    (remainder : nat -> ctx -> res) (x : list value) (xi : nat)
    (rounds : nat) (replength : nat) (j : ctx) : res :=
  match rounds with
  | 0 => (NoMatch, j)
  | S rounds' =>
      match validate (slice x xi (xi + replength)) j with
      | (Matched, j1) =>
          match remainder (xi + replength) j1 with
          | (NoMatch, j2) =>
              ascend validate remainder x xi rounds' (S replength) j2
          | other => other
          end
      | (NoMatch, j1) =>
          ascend validate remainder x xi rounds' (S replength) j1
      | (TypeError, j1) => (TypeError, j1)
      end
  end.

Definition lazy_spec (e : pat) (chunks : list chunk) (x : list value)
    (ci xi : nat) (j : ctx) : res :=
  ascend (fun s => run e (VArr s)) (search chunks x (ci + 1)) x xi
    (S (length x)) 0 j.

(** No element of [ps] is a repetition for [chunkify]. *)
Definition non_repeating (ps : list pat) : Prop :=
  Forall (fun p => is_repeating p = false) ps.

(** A predicate that never writes to the binding context. *)
Definition silent (f : pat) : Prop :=
  forall x j, snd (run f x j) = j.

(** The chunks of a list, from right to left: a repetition stands alone
    and any other element joins the fixed block that follows it. *)
Fixpoint chunks_of (pred : pat -> bool) (l : list pat) : list chunk :=
  match l with
  | [] => []
  | e :: l' =>
      if pred e then Rep e :: chunks_of pred l'
      else match chunks_of pred l' with
           | Fixed fx :: cs => Fixed (e :: fx) :: cs
           | cs => Fixed [e] :: cs
           end
  end.

(** [fx] pushed in front of chunks that continue the same run. *)
Definition prepend (fx : list pat) (cs : list chunk) : list chunk :=
  match fx, cs with
  | [], _ => cs
  | _, Fixed g :: cs' => Fixed (fx ++ g) :: cs'
  | _, _ => Fixed fx :: cs
  end.

(** A chunk as [chunkify] must build it: a non-empty block of elements
    that [pred] rejects, or one element that it accepts. *)
Definition proper_chunk (pred : pat -> bool) (c : chunk) : Prop :=
  match c with
  | Fixed fx => fx <> [] /\ Forall (fun p => pred p = false) fx
  | Rep e => pred e = true
  end.

Definition is_fixed (c : chunk) : bool :=
  match c with Fixed _ => true | Rep _ => false end.

(** A raw pattern that is plain data free of [NaN]: scalars and arrays of
    such. *)
Fixpoint literal (p : raw) : bool :=
  match p with
  | RAny | RPat _ | RNaN => false
  | RArr ps => forallb literal ps
  | _ => true
  end.

(** The data a literal pattern denotes. *)
Fixpoint value_of (p : raw) : value :=
  match p with
  | RArr ps => VArr (map value_of ps)
  | RNull => VNull
  | RNum n => VNum n
  | RStr s => VStr s
  | RBool b => VBool b
  | RNaN => VNaN
  | _ => VUndef
  end.

(** [name(label, greedy())]: the named wildcard repetition, [.*] with a
    name. *)
Definition capture (label : string) : pat :=
  name label (RPat (greedy RUndef None None)).

(** What lies between the first [a] and the last [b] elements of [xs]. *)
Definition between (a b : nat) (xs : list value) : list value :=
  take (length xs - a - b) (drop a xs).

(** [xs] starts with elements matching [pre] and ends with elements
    matching [post], without overlap. *)
Definition bracketed (pre post : list pat) (xs : list value) : Prop :=
  length pre + length post <= length xs
  /\ Forall2 matches pre (take (length pre) xs)
  /\ Forall2 matches post (drop (length xs - length post) xs).

(** Two predicates that a sequence cannot tell apart by success: the same
    predicate, or two repetitions that validate the same slices. *)
Definition alike (p1 p2 : pat) : Prop :=
  p1 = p2
  \/ (is_repeating p1 = true /\ is_repeating p2 = true
      /\ forall s, fst (run p1 (VArr s) ∅) = fst (run p2 (VArr s) ∅)).

Definition chunk_alike (c1 c2 : chunk) : Prop :=
  match c1, c2 with
  | Fixed fx1, Fixed fx2 => fx1 = fx2
  | Rep e1, Rep e2 =>
      is_repeating e1 = true /\ is_repeating e2 = true
      /\ forall s, fst (run e1 (VArr s) ∅) = fst (run e2 (VArr s) ∅)
  | _, _ => False
  end.

(** The context after the alternatives [args] were tried on [x] in turn. *)
Definition fold_alts (args : list pat) (x : value) (j : ctx) : ctx :=
  foldl (fun j q => snd (run q x j)) j args.

(** [x] is rejected by [q]: it answers [false]. *)
Definition rejects (q : pat) (x : value) : Prop :=
  fst (invoke q x) = NoMatch.

(** Every [name] inside [f] uses a label of [L]. *)
Fixpoint binds_within (L : list string) (f : pat) : bool :=
  match f with
  | Matchable p _ _ => binds_within_fn L p
  end
with binds_within_fn (L : list string) (p : fn) : bool :=
  match p with
  | or_fn args => forallb (binds_within L) args
  | name_fn str q => bool_decide (str ∈ L) && binds_within L q
  | repeat_fn q _ _ => binds_within L q
  | lst_fn chunks => forallb (binds_within_chunk L) chunks
  | pat_fn q => binds_within L q
  | _ => true
  end
with binds_within_chunk (L : list string) (c : chunk) : bool :=
  match c with
  | Fixed fx => forallb (binds_within L) fx
  | Rep e => binds_within L e
  end.

(** The labels of the [name]s inside [f]. *)
Fixpoint labels (f : pat) : list string :=
  match f with
  | Matchable p _ _ => labels_fn p
  end
with labels_fn (p : fn) : list string :=
  match p with
  | or_fn args => flat_map labels args
  | name_fn str q => str :: labels q
  | repeat_fn q _ _ => labels q
  | lst_fn chunks => flat_map labels_chunk chunks
  | pat_fn q => labels q
  | _ => []
  end
with labels_chunk (c : chunk) : list string :=
  match c with
  | Fixed fx => flat_map labels fx
  | Rep e => labels e
  end.

(** The name under which an assignment reaches a slot. *)
Definition slot_label (s : slot) : string :=
  match s with
  | Own p => p
  | Proto => "__proto__"
  end.

(** The slots of [j'] that no label of [L] reaches are those of [j]. *)
Definition untouched (L : list string) (j j' : ctx) : Prop :=
  forall s, slot_label s ∉ L -> j' !! s = j !! s.

(** [guarded L P c j]: if the call [c], started in [j], returns, then
    under [P] it left the entries outside [L] as they were. *)
Definition guarded (L : list string) (P : Prop) (c : call_res) (j : ctx)
    : Prop :=
  match c with
  | None => True
  | Some (_, j') => P -> untouched L j j'
  end.

(** [name(label, lazy())]. *)
Definition lazy_capture (label : string) : pat :=
  name label (RPat (lazy_ RUndef None None)).

(** ** Bindings of abandoned attempts *)

(** [label] is bound in what a call left behind. *)
Definition binds (r : res) (label : string) : Prop :=
  is_Some (snd r !! Own label).

(** [j2] binds every label that [j1] binds; [__proto__], which is bound
    only where the setter is out of reach, is left aside. *)
Definition extends (j1 j2 : ctx) : Prop :=
  forall label,
    label <> "__proto__" ->
    is_Some (j1 !! Own label) -> is_Some (j2 !! Own label).

(** How the attempt at length [r] ends: with the outcome of validating
    the slice and, when the slice is valid, that of the remainder. *)
Definition ends (validate : list value -> ctx -> res)
    (remainder : nat -> ctx -> res) (x : list value) (xi r : nat)
    : outcome :=
  match fst (validate (slice x xi (xi + r)) ∅) with
  | Matched => fst (remainder (xi + r) ∅)
  | o => o
  end.

(** The attempt at length [r] binds [label]: validating the slice does,
    or the slice is valid and the remainder does. *)
Definition leaves (validate : list value -> ctx -> res)
    (remainder : nat -> ctx -> res) (x : list value) (xi r : nat)
    (label : string) : Prop :=
  binds (validate (slice x xi (xi + r)) ∅) label
  \/ (fst (validate (slice x xi (xi + r)) ∅) = Matched
      /\ binds (remainder (xi + r) ∅) label).

(** The same for the repetition chunk [e] at [ci], with the chunks after
    [ci] for the remainder. *)
Definition tries (e : pat) (chunks : list chunk) (x : list value)
    (ci xi r : nat) : outcome :=
  ends (fun s => run e (VArr s)) (search chunks x (ci + 1)) x xi r.

Definition attempt_binds (e : pat) (chunks : list chunk) (x : list value)
    (ci xi r : nat) (label : string) : Prop :=
  leaves (fun s => run e (VArr s)) (search chunks x (ci + 1)) x xi r label.

(** [[greedy(name('X', any), 0, 1), 1, 2]]: on [[1, 2]] the attempt at
    length 1 binds [X] and fails, and the attempt at length 0 succeeds. *)
Definition backtracking : pat :=
  lst [RPat (greedy (RPat (name "X" RAny)) (Some 0%Z) (Some 1%Z));
       RNum 1; RNum 2].

(** ** The label [__proto__] *)



(** * Properties *)

(** ** Assignment to the binding object *)

Lemma proto_name str : String.eqb str "__proto__" = true <-> str = "__proto__".
Proof. apply String.eqb_eq. Qed.

(** Under any other name than [__proto__] the assignment defines the own
    property. *)
Lemma assign_ordinary j str x :
  str <> "__proto__" -> assign j str x = <[Own str := x]> j.
Proof.
  intros H. unfold assign.
  destruct (String.eqb str "__proto__") eqn:E; [|done].
  by apply proto_name in E.
Qed.

Lemma assign_proto j x :
  assign j "__proto__" x
  = if direct j then <[Own "__proto__" := x]> j
    else match x with
         | VNull | VArr _ => <[Proto := x]> j
         | _ => j
         end.
Proof. unfold assign. simpl. by destruct (direct j). Qed.

Lemma is_Some_insert (j : ctx) k v s :
  is_Some (<[k := v]> j !! s) <-> k = s \/ is_Some (j !! s).
Proof.
  destruct (decide (k = s)) as [->|Hne].
  - rewrite lookup_insert_eq. split; [by left | by eexists].
  - rewrite lookup_insert_ne by done. split; [by right | by intros [|]].
Qed.

Lemma assign_keeps j str x s :
  is_Some (j !! s) -> is_Some (assign j str x !! s).
Proof.
  intros Hs.
  assert (Hins : forall k v, is_Some (<[k := v]> j !! s)).
  { intros k v. apply is_Some_insert. by right. }
  unfold assign. destruct (_ && _); [|apply Hins].
  destruct x; done || apply Hins.
Qed.

(** An assignment reaches the own property of its name, or the prototype
    when the name is [__proto__], and nothing else. *)
Lemma assign_untouched j str x s :
  slot_label s <> str -> assign j str x !! s = j !! s.
Proof.
  intros Hs.
  assert (Hown : <[Own str := x]> j !! s = j !! s).
  { apply lookup_insert_ne. intros <-. by apply Hs. }
  unfold assign. destruct (String.eqb str "__proto__") eqn:E; [|exact Hown].
  apply proto_name in E.
  assert (Hproto : <[Proto := x]> j !! s = j !! s).
  { apply lookup_insert_ne. intros <-. by apply Hs. }
  destruct (negb (direct j)); simpl; [|exact Hown].
  destruct x; done.
Qed.

Lemma direct_insert_own j str x :
  direct (<[Own str := x]> j)
  = if String.eqb str "__proto__" then true else direct j.
Proof.
  unfold direct. destruct (String.eqb str "__proto__") eqn:E.
  - apply proto_name in E as ->. by rewrite lookup_insert_eq.
  - assert (Hne : str <> "__proto__").
    { intros H. apply proto_name in H. congruence. }
    rewrite !lookup_insert_ne by congruence. done.
Qed.

Lemma direct_insert_proto j x :
  direct j = false ->
  direct (<[Proto := x]> j) = match x with VNull => true | _ => false end.
Proof.
  unfold direct. rewrite lookup_insert_eq, lookup_insert_ne by done.
  destruct (j !! Own "__proto__"); [done|]. intros _. by destruct x.
Qed.


(** Two objects that take [__proto__] the same way take an assignment the
    same way; the entries the first lacks play no part in it. *)
Lemma assign_union j1 j str x :
  direct (j1 ∪ j) = direct j1 ->
  assign (j1 ∪ j) str x = assign j1 str x ∪ j
  /\ direct (assign j1 str x ∪ j) = direct (assign j1 str x).
Proof.
  intros Hd. unfold assign. rewrite Hd.
  destruct (String.eqb str "__proto__" && negb (direct j1)) eqn:E.
  - apply andb_prop in E as [_ E]. apply negb_true_iff in E.
    rewrite E in Hd.
    destruct x; try (split; [done | congruence]);
      rewrite insert_union_l; (split; [done|]);
      by rewrite <- insert_union_l, !direct_insert_proto.
  - rewrite insert_union_l. split; [done|].
    rewrite <- insert_union_l, !direct_insert_own. by rewrite Hd.
Qed.

(** Assigning an array twice under one name leaves the second. *)
Lemma assign_assign_arr j str a b :
  assign (assign j str (VArr a)) str (VArr b) = assign j str (VArr b).
Proof.
  destruct (decide (str = "__proto__")) as [->|Hne].
  2:{ rewrite !assign_ordinary by done. apply insert_insert_eq. }
  rewrite !assign_proto. destruct (direct j) eqn:Hd.
  - rewrite direct_insert_own. simpl. apply insert_insert_eq.
  - rewrite direct_insert_proto by done. apply insert_insert_eq.
Qed.

(** ** Two runs side by side

    With [R] equality, [sim] is monotonicity in the fuel; with [R] the full
    relation it says that no predicate reads the binding context. *)

Section Relational.

Variable R : ctx -> ctx -> Prop.
Hypothesis R_assign :
  forall str v j1 j2, R j1 j2 -> R (assign j1 str v) (assign j2 str v).

Lemma sim_ret o : sim_k R (ret o) (ret o).
Proof. intros j1 j2 HR. simpl. eauto. Qed.

Lemma sim_branch c1 c2 y1 y2 n1 n2 :
  sim R c1 c2 -> sim_k R y1 y2 -> sim_k R n1 n2 ->
  sim R (branch c1 y1 n1) (branch c2 y2 n2).
Proof.
  intros Hc Hy Hn. destruct c1 as [[o j1]|]; [|exact I].
  destruct Hc as (j2 & -> & HR).
  destruct o; simpl; [by apply Hy | by apply Hn | eauto].
Qed.

Variables call1 call2 : pat -> value -> ctx -> call_res.
Hypothesis Hcall : forall f x, sim_k R (call1 f x) (call2 f x).

Lemma sim_or_for args x : sim_k R (or_for call1 args x) (or_for call2 args x).
Proof.
  induction args as [|a args IH]; intros j1 j2 HR; simpl.
  - eauto.
  - apply sim_branch; [by apply Hcall | apply sim_ret | exact IH].
Qed.

Lemma sim_repeat_for p xs :
  sim_k R (repeat_for call1 p xs) (repeat_for call2 p xs).
Proof.
  induction xs as [|e xs IH]; intros j1 j2 HR; simpl.
  - eauto.
  - apply sim_branch; [by apply Hcall | exact IH | apply sim_ret].
Qed.

Lemma sim_repeat_body p lo hi x :
  sim_k R (repeat_body call1 p lo hi x) (repeat_body call2 p lo hi x).
Proof.
  intros j1 j2 HR. unfold repeat_body.
  destruct x; try (by apply sim_ret).
  destruct (_ && _); [by apply sim_ret|].
  destruct (_ && _); [by apply sim_ret|].
  by apply sim_repeat_for.
Qed.

Lemma sim_name_body str p x :
  sim_k R (name_body call1 str p x) (name_body call2 str p x).
Proof.
  intros j1 j2 HR. unfold name_body.
  apply sim_branch; [by apply Hcall | | apply sim_ret].
  intros j1' j2' HR'. simpl. eauto.
Qed.

Section Sequence.

Variable x : list value.
Variables next1 next2 : nat -> ctx -> call_res.
Hypothesis Hnext : forall xi, sim_k R (next1 xi) (next2 xi).

Lemma sim_greedy_for e xi n :
  sim_k R (greedy_for call1 x e next1 xi n) (greedy_for call2 x e next2 xi n).
Proof.
  induction n as [|n IH]; intros j1 j2 HR; simpl.
  - eauto.
  - apply sim_branch; [by apply Hcall | | exact IH].
    intros j1' j2' HR'.
    apply sim_branch; [by apply Hnext | apply sim_ret | exact IH].
Qed.

Lemma sim_lazy_for e xi n :
  forall replength,
    sim_k R (lazy_for call1 x e next1 xi n replength)
          (lazy_for call2 x e next2 xi n replength).
Proof.
  induction n as [|n IH]; intros replength j1 j2 HR; simpl.
  - eauto.
  - apply sim_branch; [by apply Hcall | | apply IH].
    intros j1' j2' HR'.
    apply sim_branch; [by apply Hnext | apply sim_ret | apply IH].
Qed.

Lemma sim_fixed_for fx xi rest1 rest2 :
  sim_k R rest1 rest2 ->
  forall c, sim_k R (fixed_for call1 x fx xi c rest1)
                  (fixed_for call2 x fx xi c rest2).
Proof.
  intros Hrest.
  induction fx as [|e fx IH]; intros c j1 j2 HR; simpl.
  - by apply Hrest.
  - apply sim_branch; [by apply Hcall | apply IH | apply sim_ret].
Qed.

End Sequence.

Lemma sim_submatch chunks x n :
  forall m ci xi, n <= m ->
    sim_k R (submatch call1 chunks x n ci xi) (submatch call2 chunks x m ci xi).
Proof.
  induction n as [|n IH]; intros m ci xi Hle j1 j2 HR; [exact I|].
  destruct m as [|m]; [lia|]. simpl.
  assert (Hrec : forall ci' xi',
    sim_k R (submatch call1 chunks x n ci' xi')
          (submatch call2 chunks x m ci' xi')).
  { intros ci' xi'. apply IH. lia. }
  destruct (_ && _); [by apply sim_ret|].
  destruct (_ <=? _); [by apply sim_ret|].
  destruct (chunks !! ci) as [[fx|e]|]; [| |by apply sim_ret].
  - destruct (_ <? _)%Z; [by apply sim_ret|].
    by apply sim_fixed_for.
  - destruct (tag_eqb _ greedy_t); [by apply sim_greedy_for|].
    destruct (tag_eqb _ lazy_t).
    { exact (sim_lazy_for x _ _ (Hrec (ci + 1)) e xi (S (length x)) 0
               j1 j2 HR). }
    destruct (_ <? _)%Z; by apply sim_ret.
Qed.

End Relational.

Lemma sim_apply_body (R : ctx -> ctx -> Prop) call1 call2 :
  (forall str v j1 j2, R j1 j2 -> R (assign j1 str v) (assign j2 str v)) ->
  (forall f x, sim_k R (call1 f x) (call2 f x)) ->
  forall n m, n <= m ->
  forall f x, sim_k R (apply_body call1 n f x) (apply_body call2 m f x).
Proof.
  intros R_assign Hcall n m Hle [p t b] x j1 j2 HR.
  destruct p; simpl.
  - by apply sim_ret.
  - destruct (strict_eq _ _); by apply sim_ret.
  - destruct (String.eqb _ _); by apply sim_ret.
  - destruct (String.eqb _ _); by apply sim_ret.
  - destruct (String.eqb _ _); by apply sim_ret.
  - by apply sim_or_for.
  - by apply sim_name_body.
  - by apply sim_repeat_body.
  - destruct x; try (by apply sim_ret).
    apply sim_submatch; [exact Hcall | lia | exact HR].
  - by apply Hcall.
  - by apply sim_ret.
Qed.

Lemma sim_apply (R : ctx -> ctx -> Prop) :
  (forall str v j1 j2, R j1 j2 -> R (assign j1 str v) (assign j2 str v)) ->
  forall n m, n <= m ->
  forall f x, sim_k R (apply n f x) (apply m f x).
Proof.
  intros R_assign.
  induction n as [|n IH]; intros m Hle f x j1 j2 HR; [exact I|].
  destruct m as [|m]; [lia|]. simpl.
  apply sim_apply_body; [done | | lia | done].
  intros g y. apply IH. lia.
Qed.

(** ** Enough fuel *)

Lemma branch_is_Some c y n :
  is_Some c -> (forall j, is_Some (y j)) -> (forall j, is_Some (n j)) ->
  is_Some (branch c y n).
Proof.
  intros [[o j] ->] Hy Hn. destruct o; simpl; [apply Hy | apply Hn | eauto].
Qed.

Section Defined.

Variable call : pat -> value -> ctx -> call_res.
Variable P : pat -> Prop.
Hypothesis Hcall : forall f, P f -> forall x j, is_Some (call f x j).

Lemma or_for_is_Some args x :
  Forall P args -> forall j, is_Some (or_for call args x j).
Proof.
  induction 1 as [|a args Ha _ IH]; intros j; simpl; [by eexists|].
  apply branch_is_Some; [by apply Hcall | by eexists | exact IH].
Qed.

Lemma repeat_for_is_Some p xs :
  P p -> forall j, is_Some (repeat_for call p xs j).
Proof.
  intros Hp. induction xs as [|e xs IH]; intros j; simpl; [by eexists|].
  apply branch_is_Some; [by apply Hcall | exact IH | by eexists].
Qed.

Lemma repeat_body_is_Some p lo hi x j :
  P p -> is_Some (repeat_body call p lo hi x j).
Proof.
  intros Hp. unfold repeat_body. destruct x; try (by eexists).
  destruct (_ && _); [by eexists|].
  destruct (_ && _); [by eexists|].
  by apply repeat_for_is_Some.
Qed.

Lemma name_body_is_Some str p x j :
  P p -> is_Some (name_body call str p x j).
Proof.
  intros Hp. unfold name_body.
  apply branch_is_Some; [by apply Hcall | by eexists | by eexists].
Qed.

Lemma greedy_for_is_Some x e next xi n :
  P e -> (forall xi' j, is_Some (next xi' j)) ->
  forall j, is_Some (greedy_for call x e next xi n j).
Proof.
  intros He Hnext. induction n as [|n IH]; intros j; simpl; [by eexists|].
  apply branch_is_Some; [by apply Hcall | | exact IH].
  intros j'. apply branch_is_Some; [apply Hnext | by eexists | exact IH].
Qed.

Lemma lazy_for_is_Some x e next xi n :
  P e -> (forall xi' j, is_Some (next xi' j)) ->
  forall replength j, is_Some (lazy_for call x e next xi n replength j).
Proof.
  intros He Hnext.
  induction n as [|n IH]; intros replength j; simpl; [by eexists|].
  apply branch_is_Some; [by apply Hcall | | apply IH].
  intros j'. apply branch_is_Some; [apply Hnext | by eexists | apply IH].
Qed.

Lemma fixed_for_is_Some x fx xi rest :
  Forall P fx -> (forall j, is_Some (rest j)) ->
  forall c j, is_Some (fixed_for call x fx xi c rest j).
Proof.
  intros Hfx Hrest.
  induction Hfx as [|e fx He _ IH]; intros c j; simpl; [apply Hrest|].
  apply branch_is_Some; [by apply Hcall | apply IH | by eexists].
Qed.

Lemma submatch_is_Some chunks x :
  Forall (fun c => Forall P (chunk_pats c)) chunks ->
  forall fuel ci xi j,
    length chunks - ci < fuel ->
    is_Some (submatch call chunks x fuel ci xi j).
Proof.
  intros Hchunks.
  induction fuel as [|fuel IH]; intros ci xi j Hfuel; [lia|]. simpl.
  destruct (length chunks <=? ci) eqn:Hci; simpl.
  { destruct (length x <=? xi); by eexists. }
  apply Nat.leb_gt in Hci.
  destruct (chunks !! ci) as [c|] eqn:Hc; [|by eexists].
  assert (Hnext : forall xi' j', is_Some (submatch call chunks x fuel (ci + 1) xi' j')).
  { intros xi' j'. apply IH. lia. }
  pose proof (Forall_lookup_1 _ _ _ _ Hchunks Hc) as Hp.
  destruct c as [fx|e]; simpl in Hp.
  - destruct (_ <? _)%Z; [by eexists|].
    apply fixed_for_is_Some; [exact Hp | apply Hnext].
  - apply Forall_cons_1 in Hp as [He _].
    destruct (tag_eqb _ greedy_t); [by apply greedy_for_is_Some|].
    destruct (tag_eqb _ lazy_t).
    { exact (lazy_for_is_Some x e _ xi (S (length x)) He Hnext 0 j). }
    destruct (_ <? _)%Z; by eexists.
Qed.

End Defined.

Lemma max_list_with_Forall {A} (f : A -> nat) (l : list A) (n : nat) :
  max_list_with f l <= n -> Forall (fun a => f a <= n) l.
Proof.
  induction l as [|a l IH]; simpl; intros H; constructor; [lia|].
  apply IH. lia.
Qed.

Lemma height_chunk_pats c n :
  height_chunk c <= n -> Forall (fun f => height f <= n) (chunk_pats c).
Proof.
  destruct c as [fx|e]; simpl; intros H.
  - by apply max_list_with_Forall.
  - by repeat constructor.
Qed.

Lemma apply_is_Some n :
  forall f x j, height f <= n -> is_Some (apply n f x j).
Proof.
  induction n as [|n IH]; intros [p t b] x j Hh; simpl in Hh; [lia|].
  assert (Hcall : forall f, height f <= n -> forall y k, is_Some (apply n f y k)).
  { intros f Hf y k. by apply IH. }
  simpl. destruct p; simpl in *.
  - by eexists.
  - destruct (strict_eq _ _); by eexists.
  - destruct (String.eqb _ _); by eexists.
  - destruct (String.eqb _ _); by eexists.
  - destruct (String.eqb _ _); by eexists.
  - apply (or_for_is_Some _ _ Hcall). apply max_list_with_Forall. lia.
  - apply (name_body_is_Some _ _ Hcall). lia.
  - apply (repeat_body_is_Some _ _ Hcall). lia.
  - destruct x; try (by eexists).
    apply (submatch_is_Some _ _ Hcall); [|lia].
    assert (Hc : max_list_with height_chunk chunks <= n) by lia.
    apply max_list_with_Forall in Hc.
    eapply Forall_impl; [exact Hc|].
    intros c Hc'. by apply height_chunk_pats.
  - apply Hcall. lia.
  - by eexists.
Qed.

(** Fuel beyond the first that suffices changes nothing. *)
Lemma apply_mono n m f x j r :
  apply n f x j = Some r -> n <= m -> apply m f x j = Some r.
Proof.
  intros Hn Hle.
  assert (Hins : forall (str : string) (v : value) (j1 j2 : ctx),
            j1 = j2 -> assign j1 str v = assign j2 str v) by congruence.
  pose proof (sim_apply eq Hins n m Hle f x j j eq_refl) as H.
  rewrite Hn in H. destruct r as [o j']. simpl in H.
  by destruct H as (j2 & -> & ->).
Qed.

Lemma apply_run n f x j :
  height f <= n -> apply n f x j = Some (run f x j).
Proof.
  intros Hn. unfold run.
  destruct (apply_is_Some (height f) f x j (le_n _)) as [r Hr].
  rewrite Hr. simpl. by apply (apply_mono (height f)).
Qed.

Lemma apply_Some_run n f x j r :
  apply n f x j = Some r -> r = run f x j.
Proof.
  intros Hr.
  pose proof (apply_mono n (n `max` height f) f x j r Hr (Nat.le_max_l _ _)) as H1.
  rewrite apply_run in H1 by lia. congruence.
Qed.

(** ** The total matcher and its equations *)

Lemma eq_assign (str : string) (v : value) (j1 j2 : ctx) :
  j1 = j2 -> assign j1 str v = assign j2 str v.
Proof. congruence. Qed.

Lemma sim_eq_Some c1 c2 r : sim eq c1 c2 -> c1 = Some r -> c2 = Some r.
Proof.
  intros H ->. destruct r as [o j]. simpl in H.
  by destruct H as (j2 & -> & ->).
Qed.

Lemma run_call_apply n f x : sim_k eq (apply n f x) (run_call f x).
Proof.
  intros j1 j2 <-. unfold sim.
  destruct (apply n f x j1) as [[o j']|] eqn:H; [|done].
  apply apply_Some_run in H. exists j'. unfold run_call. by rewrite <- H.
Qed.

(** [run] satisfies the body of the predicate, with [run] for the calls. *)
Lemma run_unfold f x j n :
  height f <= S n -> apply_body run_call n f x j = Some (run f x j).
Proof.
  intros Hn. pose proof (apply_run (S n) f x j Hn) as Hr. simpl in Hr.
  eapply sim_eq_Some; [|exact Hr].
  apply sim_apply_body; [exact eq_assign | apply run_call_apply | lia | done].
Qed.

Lemma run_call_is_Some f : True -> forall x j, is_Some (run_call f x j).
Proof. intros _ x j. by eexists. Qed.

Lemma submatch_search chunks x n ci xi j :
  length chunks - ci < n ->
  submatch run_call chunks x n ci xi j = Some (search chunks x ci xi j).
Proof.
  intros Hn. unfold search.
  destruct (submatch_is_Some run_call (fun _ => True) run_call_is_Some
              chunks x) with (fuel := S (length chunks - ci)) (ci := ci)
              (xi := xi) (j := j) as [r Hr].
  { apply Forall_forall. intros c _. apply Forall_forall. done. }
  { lia. }
  rewrite Hr. simpl.
  eapply sim_eq_Some; [|exact Hr].
  apply sim_submatch; [|lia|done].
  intros f y j1 j2 <-. simpl. unfold run_call.
  destruct (run f y j1) as [o j']. eauto.
Qed.

Lemma run_lst chunks t b xs j :
  run (Matchable (lst_fn chunks) t b) (VArr xs) j = search chunks xs 0 0 j.
Proof.
  pose proof (run_unfold (Matchable (lst_fn chunks) t b) (VArr xs) j
                (S (length chunks) `max` max_list_with height_chunk chunks)
                (le_n _)) as H.
  simpl in H. rewrite submatch_search in H by lia. congruence.
Qed.

Lemma run_name str p t b x j :
  run (Matchable (name_fn str p) t b) x j =
    match run p x j with
    | (Matched, j') => (Matched, assign j' str x)
    | other => other
    end.
Proof.
  pose proof (run_unfold (Matchable (name_fn str p) t b) x j (height p)
                (le_n _)) as H.
  simpl in H. unfold name_body, run_call, branch, ret in H.
  destruct (run p x j) as [[] j']; congruence.
Qed.

Lemma run_pat_fn p t b x j :
  run (Matchable (pat_fn p) t b) x j = run p x j.
Proof.
  pose proof (run_unfold (Matchable (pat_fn p) t b) x j (height p)
                (le_n _)) as H.
  simpl in H. unfold run_call in H. congruence.
Qed.

Lemma run_repeat p lo hi t b x j :
  repeat_body run_call p lo hi x j
  = Some (run (Matchable (repeat_fn p lo hi) t b) x j).
Proof.
  exact (run_unfold (Matchable (repeat_fn p lo hi) t b) x j (height p)
           (le_n _)).
Qed.

Lemma run_or args t b x j :
  or_for run_call args x j = Some (run (Matchable (or_fn args) t b) x j).
Proof.
  exact (run_unfold (Matchable (or_fn args) t b) x j
           (max_list_with height args) (le_n _)).
Qed.

(** ** No predicate reads the binding context *)

Lemma run_outcome_ctx f x j1 j2 : fst (run f x j1) = fst (run f x j2).
Proof.
  pose proof (sim_apply (fun _ _ => True) (fun _ _ _ _ _ => I)
                (height f) (height f) (le_n _) f x j1 j2 I) as H.
  rewrite !apply_run in H by done. simpl in H.
  destruct (run f x j1) as [o j1']. destruct H as (j2' & H & _).
  by injection H as ->.
Qed.

Lemma run_call_blind f y :
  sim_k (fun _ _ => True) (run_call f y) (run_call f y).
Proof.
  intros k1 k2 _. unfold run_call. simpl.
  pose proof (run_outcome_ctx f y k1 k2) as E.
  destruct (run f y k1) as [o1 k1'], (run f y k2) as [o2 k2'].
  simpl in E. subst. eauto.
Qed.

Lemma search_outcome_ctx chunks x ci xi j1 j2 :
  fst (search chunks x ci xi j1) = fst (search chunks x ci xi j2).
Proof.
  pose proof (sim_submatch (fun _ _ => True) run_call run_call run_call_blind
                chunks x (S (length chunks - ci)) (S (length chunks - ci))
                ci xi (le_n _) j1 j2 I) as H.
  rewrite !submatch_search in H by lia. simpl in H.
  destruct (search chunks x ci xi j1) as [o j1'].
  destruct H as (j2' & H & _). by injection H as ->.
Qed.

(** ** What a call does to the binding context *)

Lemma post_weaken Q (P P' : Prop) c j :
  (P' -> P) -> post Q P c j -> post Q P' c j.
Proof. intros HP. destruct c as [[o j']|]; simpl; [|done]. intuition. Qed.

Lemma forallb_lookup {A} (f : A -> bool) (l : list A) i a :
  forallb f l = true -> l !! i = Some a -> f a = true.
Proof.
  revert i. induction l as [|b l IH]; intros i H Hi; [done|].
  simpl in H. apply andb_prop in H as [Hb Hl].
  destruct i as [|i]; simpl in Hi; [congruence | eauto].
Qed.

Section Invariant.

Variable Q : ctx -> ctx -> Prop.
Hypothesis Q_refl : forall j, Q j j.
Hypothesis Q_trans : forall j1 j2 j3, Q j1 j2 -> Q j2 j3 -> Q j1 j3.
Hypothesis Q_assign : forall str v j, Q j (assign j str v).

Lemma post_ret (P : Prop) o j : o <> TypeError -> post Q P (ret o j) j.
Proof. intros Ho. simpl. auto. Qed.

Lemma post_branch (P : Prop) c y n j :
  post Q P c j ->
  (forall j1, Q j j1 -> post Q P (y j1) j1) ->
  (forall j1, Q j j1 -> post Q P (n j1) j1) ->
  post Q P (branch c y n) j.
Proof.
  intros Hc Hy Hn. destruct c as [[o j1]|]; [|done].
  destruct Hc as [HQ Ho].
  assert (Hk : forall k, post Q P (k j1) j1 -> post Q P (k j1) j).
  { intros k Hk. destruct (k j1) as [[o' j2]|]; [|done].
    destruct Hk as [HQ' Ho']. split; [by eapply Q_trans | done]. }
  destruct o; simpl; [by apply Hk, Hy | by apply Hk, Hn | done].
Qed.

Variable call : pat -> value -> ctx -> call_res.
Hypothesis Hcall :
  forall f x j, post Q (well_formed f = true) (call f x j) j.

Lemma post_call (P : Prop) f x j :
  (P -> well_formed f = true) -> post Q P (call f x j) j.
Proof. intros HP. eapply post_weaken; [exact HP | apply Hcall]. Qed.

Lemma post_or_for args x j :
  post Q (forallb well_formed args = true) (or_for call args x j) j.
Proof.
  revert j. induction args as [|a args IH]; intros j; simpl.
  - by apply post_ret.
  - apply post_branch.
    + apply post_call. intros H. by apply andb_prop in H as [? ?].
    + intros j1 _. by apply post_ret.
    + intros j1 _. eapply post_weaken; [|apply IH].
      intros H. by apply andb_prop in H as [? ?].
Qed.

Lemma post_repeat_for p xs j :
  post Q (well_formed p = true) (repeat_for call p xs j) j.
Proof.
  revert j. induction xs as [|e xs IH]; intros j; simpl.
  - by apply post_ret.
  - apply post_branch; [by apply post_call | |].
    + intros j1 _. apply IH.
    + intros j1 _. by apply post_ret.
Qed.

Lemma post_repeat_body p lo hi x j :
  post Q (well_formed p = true) (repeat_body call p lo hi x j) j.
Proof.
  unfold repeat_body. destruct x; try (by apply post_ret).
  destruct (_ && _); [by apply post_ret|].
  destruct (_ && _); [by apply post_ret|].
  apply post_repeat_for.
Qed.

Lemma post_name_body str p x j :
  post Q (well_formed p = true) (name_body call str p x j) j.
Proof.
  unfold name_body. apply post_branch; [by apply post_call | |].
  - intros j1 _. simpl. auto.
  - intros j1 _. by apply post_ret.
Qed.

Section Sequence.

Variable x : list value.
Variable P : Prop.
Variable next : nat -> ctx -> call_res.
Hypothesis Hnext : forall xi j, post Q P (next xi j) j.

Lemma post_greedy_for e xi n j :
  (P -> well_formed e = true) ->
  post Q P (greedy_for call x e next xi n j) j.
Proof.
  intros He. revert j. induction n as [|n IH]; intros j; simpl.
  - by apply post_ret.
  - apply post_branch; [by apply post_call | |].
    + intros j1 _. apply post_branch; [apply Hnext | |].
      * intros j2 _. by apply post_ret.
      * intros j2 _. apply IH.
    + intros j1 _. apply IH.
Qed.

Lemma post_lazy_for e xi n replength j :
  (P -> well_formed e = true) ->
  post Q P (lazy_for call x e next xi n replength j) j.
Proof.
  intros He. revert replength j.
  induction n as [|n IH]; intros replength j; simpl.
  - by apply post_ret.
  - apply post_branch; [by apply post_call | |].
    + intros j1 _. apply post_branch; [apply Hnext | |].
      * intros j2 _. by apply post_ret.
      * intros j2 _. apply IH.
    + intros j1 _. apply IH.
Qed.

Lemma post_fixed_for fx xi c rest j :
  (P -> forallb well_formed fx = true) ->
  (forall j, post Q P (rest j) j) ->
  post Q P (fixed_for call x fx xi c rest j) j.
Proof.
  intros Hfx Hrest. revert c j.
  induction fx as [|e fx IH]; intros c j; simpl.
  - apply Hrest.
  - apply post_branch.
    + apply post_call. intros HP.
      specialize (Hfx HP). by apply andb_prop in Hfx as [? ?].
    + intros j1 _. apply IH. intros HP.
      specialize (Hfx HP). by apply andb_prop in Hfx as [? ?].
    + intros j1 _. by apply post_ret.
Qed.

End Sequence.

Lemma post_submatch chunks x fuel :
  forall ci xi j,
    post Q (forallb well_formed_chunk chunks = true)
      (submatch call chunks x fuel ci xi j) j.
Proof.
  induction fuel as [|fuel IH]; intros ci xi j; [done|]. simpl.
  destruct (length chunks <=? ci) eqn:Hci; simpl.
  { destruct (length x <=? xi); by apply post_ret. }
  apply Nat.leb_gt in Hci.
  destruct (chunks !! ci) as [c|] eqn:Hc.
  2:{ apply lookup_ge_None in Hc. lia. }
  assert (Hwf : forallb well_formed_chunk chunks = true ->
                well_formed_chunk c = true).
  { intros H. by eapply forallb_lookup. }
  destruct c as [fx|e]; simpl in Hwf.
  - destruct (_ <? _)%Z; [by apply post_ret|].
    apply post_fixed_for; [exact Hwf | intros j'; apply IH].
  - assert (He : forallb well_formed_chunk chunks = true ->
                 well_formed e = true).
    { intros H. specialize (Hwf H). by apply andb_prop in Hwf as [? ?]. }
    unfold is_repeating in Hwf.
    destruct (tag_eqb _ greedy_t).
    { apply post_greedy_for; [apply IH | exact He]. }
    destruct (tag_eqb _ lazy_t).
    { exact (post_lazy_for x _ _ (IH (ci + 1)) e xi (S (length x)) 0 j He). }
    destruct (_ <? _)%Z; [by apply post_ret|].
    simpl. split; [done|]. intros H. specialize (Hwf H).
    rewrite andb_false_r in Hwf. done.
Qed.

Lemma post_apply_body n f x j :
  post Q (well_formed f = true) (apply_body call n f x j) j.
Proof.
  destruct f as [p t b]. destruct p; simpl.
  - by apply post_ret.
  - destruct (strict_eq _ _); by apply post_ret.
  - destruct (String.eqb _ _); by apply post_ret.
  - destruct (String.eqb _ _); by apply post_ret.
  - destruct (String.eqb _ _); by apply post_ret.
  - apply post_or_for.
  - apply post_name_body.
  - apply post_repeat_body.
  - destruct x; try (by apply post_ret). apply post_submatch.
  - apply Hcall.
  - split; [done|]. intros H. discriminate H.
Qed.

End Invariant.

Lemma post_apply Q :
  (forall j, Q j j) ->
  (forall j1 j2 j3, Q j1 j2 -> Q j2 j3 -> Q j1 j3) ->
  (forall str v j, Q j (assign j str v)) ->
  forall n f x j, post Q (well_formed f = true) (apply n f x j) j.
Proof.
  intros Q_refl Q_trans Q_assign.
  induction n as [|n IH]; intros f x j; [done|]. simpl.
  by apply post_apply_body.
Qed.

(** ** Constructors build well-formed predicates *)

Lemma chunkify_for_well_formed l :
  forall fx result,
    forallb well_formed l = true ->
    forallb well_formed fx = true ->
    forallb well_formed_chunk result = true ->
    forallb well_formed_chunk (chunkify_for is_repeating l fx result) = true.
Proof.
  induction l as [|e l IH]; intros fx result Hl Hfx Hres; simpl.
  - destruct (0 <? length fx); [|done].
    rewrite forallb_app. simpl. by rewrite Hres, Hfx.
  - simpl in Hl. apply andb_prop in Hl as [He Hl].
    destruct (is_repeating e) eqn:Hrep; simpl.
    + apply IH; [done | done |].
      rewrite forallb_app. simpl. rewrite He, Hrep. simpl.
      rewrite andb_true_r.
      destruct (0 <? length fx); [|done].
      rewrite forallb_app. simpl. by rewrite Hres, Hfx.
    + apply IH; [done | | done].
      rewrite forallb_app. simpl. by rewrite Hfx, He.
Qed.

Lemma lst_of_well_formed ps :
  forallb well_formed ps = true -> well_formed (lst_of ps) = true.
Proof. intros H. simpl. by apply chunkify_for_well_formed. Qed.

Lemma match_well_formed (p : raw) :
  raw_well_formed p = true -> well_formed (match_ p) = true.
Proof.
  revert p. fix IH 1. intros [| f | ps | | | n | s | b |]; simpl; try done.
  intros H. apply lst_of_well_formed.
  induction ps as [|q ps IHps]; [done|].
  simpl in *. apply andb_prop in H as [Hq Hps].
  rewrite (IH q Hq). simpl. by apply IHps.
Qed.

Lemma or_any_well_formed p :
  raw_well_formed p = true -> raw_well_formed (or_any p) = true.
Proof. by destruct p. Qed.

Lemma name_well_formed str p :
  raw_well_formed p = true -> well_formed (name str p) = true.
Proof. intros H. simpl. by apply match_well_formed, or_any_well_formed. Qed.

Lemma repeat_well_formed p min max rep :
  raw_well_formed p = true -> repeat_ p min max = inl rep ->
  well_formed rep = true.
Proof.
  intros H E. apply or_any_well_formed, match_well_formed in H.
  destruct min, max; simpl in E; inversion E; done.
Qed.

(** ** Repetition *)

Lemma matches_run f x j : matches f x <-> fst (run f x j) = Matched.
Proof. unfold matches, invoke. by rewrite (run_outcome_ctx f x ∅ j). Qed.

Lemma repeat_for_all p xs :
  forall j, Forall (matches p) xs ->
    repeat_for run_call p xs j = Some (Matched, fold_elems p xs j).
Proof.
  induction xs as [|e xs IH]; intros j H; [done|].
  apply Forall_cons_1 in H as [He Hxs]. simpl. unfold run_call at 1.
  apply (matches_run p e j) in He.
  destruct (run p e j) as [o j1]. simpl in He. subst o. simpl.
  by apply IH.
Qed.

Lemma repeat_for_first_mismatch p pre e post :
  forall j, Forall (matches p) pre -> fst (invoke p e) = NoMatch ->
    repeat_for run_call p (pre ++ e :: post) j
    = Some (NoMatch, snd (run p e (fold_elems p pre j))).
Proof.
  induction pre as [|a pre IH]; intros j H He; simpl.
  - unfold run_call. unfold invoke in He.
    rewrite (run_outcome_ctx p e ∅ j) in He.
    destruct (run p e j) as [o j1]. simpl in He. by subst o.
  - apply Forall_cons_1 in H as [Ha Hpre]. unfold run_call at 1.
    apply (matches_run p a j) in Ha.
    destruct (run p a j) as [o j1]. simpl in Ha. subst o. simpl.
    by apply IH.
Qed.

Lemma repeat_for_Matched p xs :
  forall j j', repeat_for run_call p xs j = Some (Matched, j') ->
    Forall (matches p) xs.
Proof.
  induction xs as [|e xs IH]; intros j j' H; [constructor|].
  simpl in H. unfold run_call at 1 in H.
  destruct (run p e j) as [o j1] eqn:E. destruct o; simpl in H; try done.
  constructor; [|by eapply IH].
  apply (matches_run p e j). by rewrite E.
Qed.

(** The bounds the closure of [repeat] holds, read as a range. *)
Lemma repeat_bounds p min max rep :
  repeat_ p min max = inl rep ->
  exists lo hi,
    rep = matchable (repeat_fn (match_ (or_any p)) lo hi) repeat_t
    /\ forall len,
         (not_false lo && len_lt len lo = false
          /\ not_false hi && len_gt len hi = false)
         <-> within len min max.
Proof.
  unfold within.
  destruct min as [lo|], max as [hi|]; simpl; intros E; inversion E;
    do 2 eexists; (split; [reflexivity|]); intros len; simpl.
  - rewrite Z.ltb_ge, Z.gtb_ltb, Z.ltb_ge. done.
  - rewrite Z.ltb_ge. tauto.
  - tauto.
Qed.

Lemma repeat_matched_iff p min max rep x j :
  repeat_ p min max = inl rep ->
  fst (run rep x j) = Matched
  <-> exists xs, x = VArr xs
        /\ Forall (matches (match_ (or_any p))) xs
        /\ within (length xs) min max.
Proof.
  intros E. destruct (repeat_bounds p min max rep E) as (lo & hi & -> & Hb).
  pose proof (run_repeat (match_ (or_any p)) lo hi repeat_t None x j) as H.
  unfold matchable. destruct (run _ x j) as [o j'] eqn:Er. simpl.
  unfold repeat_body in H. split.
  - intros ->. destruct x; try done. exists xs. split; [done|].
    destruct (not_false lo && _) eqn:E1; [done|].
    destruct (not_false hi && _) eqn:E2; [done|].
    split; [by eapply repeat_for_Matched | by apply Hb].
  - intros (xs & -> & Hall & Hw). apply Hb in Hw as [E1 E2].
    rewrite E1, E2 in H. rewrite repeat_for_all in H by done. congruence.
Qed.

(** ** Well-formed predicates do not raise; bindings are never removed *)

Lemma run_well_formed f x j :
  well_formed f = true -> fst (run f x j) <> TypeError.
Proof.
  intros Hwf.
  pose proof (post_apply (fun _ _ => True) (fun _ => I)
                (fun _ _ _ _ _ => I) (fun _ _ _ => I) (height f) f x j) as H.
  rewrite apply_run in H by done. simpl in H.
  destruct (run f x j) as [o j']. simpl. by apply H.
Qed.

Lemma run_keeps_labels f x j label :
  is_Some (j !! label) -> is_Some (snd (run f x j) !! label).
Proof.
  pose proof (post_apply
    (fun j j' : ctx => forall l, is_Some (j !! l) -> is_Some (j' !! l))) as H.
  specialize (H (fun _ _ Hl => Hl)).
  specialize (H (fun _ _ _ H12 H23 l Hl => H23 l (H12 l Hl))).
  specialize (H (fun str v j0 l => assign_keeps j0 str v l) (height f) f x j).
  rewrite apply_run in H by done. simpl in H.
  destruct (run f x j) as [o j']. simpl. apply H.
Qed.

(** * Main results *)

(** ** Compilation *)

(** C7. Compilation is idempotent: [match] returns a predicate it is given
    unchanged, so compiling the result of a compilation changes nothing. *)
Theorem match_idempotent :
  (forall f : pat, match_ (RPat f) = f)
  /\ (forall p : raw, match_ (RPat (match_ p)) = match_ p)
  /\ (forall ps, match_ (RPat (lst ps)) = lst ps)
  /\ (forall args, match_ (RPat (or_ args)) = or_ args)
  /\ (forall str p, match_ (RPat (name str p)) = name str p)
  /\ (forall p min max rep,
        repeat_ p min max = inl rep -> match_ (RPat rep) = rep)
  /\ (forall p min max,
        match_ (RPat (greedy p min max)) = greedy p min max
        /\ match_ (RPat (lazy_ p min max)) = lazy_ p min max)
  /\ match_ (RPat any) = any
  /\ match_ RAny = any.
Proof. repeat split; reflexivity. Qed.

(** ** Repetition with bounds *)

(** C4. With both bounds given or both omitted, [repeat(inner, min, max)]
    matches exactly the arrays whose elements all match [inner] and whose
    length lies within the bounds. It answers [false], leaving the context
    untouched, for a candidate that is not an array and for a length out of
    range; and at the first element that does not match it answers [false]
    without looking at the elements behind it. *)
Theorem repeat_contract inner min max rep x j
    (Hpaired : paired min max)
    (Hrep : repeat_ inner min max = inl rep) :
  let p := match_ (or_any inner) in
  (fst (run rep x j) = Matched
   <-> exists xs, x = VArr xs /\ Forall (matches p) xs
                  /\ within (length xs) min max)
  /\ ((forall xs, x <> VArr xs) -> run rep x j = (NoMatch, j))
  /\ (forall xs, x = VArr xs -> ~ within (length xs) min max ->
        run rep x j = (NoMatch, j))
  /\ (forall xs, x = VArr xs -> within (length xs) min max ->
        Forall (matches p) xs ->
        run rep x j = (Matched, fold_elems p xs j))
  /\ (forall pre e post,
        x = VArr (pre ++ e :: post) ->
        within (length (pre ++ e :: post)) min max ->
        Forall (matches p) pre -> fst (invoke p e) = NoMatch ->
        run rep x j = (NoMatch, snd (run p e (fold_elems p pre j))))
  /\ (well_formed p = true ->
      fst (run rep x j) = NoMatch
      <-> ~ exists xs, x = VArr xs /\ Forall (matches p) xs
                       /\ within (length xs) min max).
Proof.
  intros p. split; [by apply repeat_matched_iff|].
  assert (Hlast : well_formed p = true ->
      fst (run rep x j) = NoMatch
      <-> ~ exists xs, x = VArr xs /\ Forall (matches p) xs
                       /\ within (length xs) min max).
  { intros Hwf.
    pose proof (repeat_matched_iff inner min max rep x j Hrep) as Hiff.
    assert (Hne : fst (run rep x j) <> TypeError).
    { apply run_well_formed.
      destruct min, max; simpl in Hrep; inversion Hrep; exact Hwf. }
    split.
    - intros E Hex. apply Hiff in Hex. congruence.
    - intros Hn. destruct (fst (run rep x j)); [|done|done].
      destruct Hn. by apply Hiff. }
  revert Hlast.
  destruct (repeat_bounds inner min max rep Hrep) as (lo & hi & -> & Hb).
  fold p in Hb |- *.
  pose proof (run_repeat p lo hi repeat_t None x j) as H.
  unfold matchable. unfold repeat_body in H. intros Hlast.
  split; [|split; [|split; [|split]]]; [| | | |exact Hlast].
  - intros Hx. destruct x; try (by inversion H). by destruct (Hx xs).
  - intros xs -> Hw.
    destruct (not_false lo && _) eqn:E1; [by inversion H|].
    destruct (not_false hi && _) eqn:E2; [by inversion H|].
    destruct Hw. by apply Hb.
  - intros xs -> Hw Hall. apply Hb in Hw as [E1 E2].
    rewrite E1, E2, repeat_for_all in H by done. by inversion H.
  - intros pre e post -> Hw Hpre He. apply Hb in Hw as [E1 E2].
    rewrite E1, E2, repeat_for_first_mismatch in H by done. by inversion H.
Qed.

Lemma repeat_contract_witness :
  paired (Some 1%Z) (Some 2%Z)
  /\ repeat_ (RStr "x") (Some 1%Z) (Some 2%Z)
     = inl (matchable (repeat_fn (is_ (VStr "x")) (BNum 1) (BNum 2)) repeat_t)
  /\ (fst (run (matchable (repeat_fn (is_ (VStr "x")) (BNum 1) (BNum 2)) repeat_t)
         (VArr [VStr "x"; VStr "x"]) ∅) = Matched
  <-> exists xs, VArr [VStr "x"; VStr "x"] = VArr xs
        /\ Forall (matches (is_ (VStr "x"))) xs
        /\ within (length xs) (Some 1%Z) (Some 2%Z)).
Proof.
  split; [exact I|]. split; [reflexivity|].
  exact (proj1 (repeat_contract (RStr "x") (Some 1%Z) (Some 2%Z) _
                  (VArr [VStr "x"; VStr "x"]) ∅ I eq_refl)).
Defined.

(** The bounded repetition of the test suite: [repeat(is('x'), 1, 2)]
    inside [greedy]. *)
Lemma bounded_repetition_example :
  let p := greedy (RStr "x") (Some 1%Z) (Some 2%Z) in
  invoke p (VArr [VStr "x"]) = (Matched, ∅)
  /\ invoke p (VArr [VStr "x"; VStr "x"]) = (Matched, ∅)
  /\ invoke p (VArr []) = (NoMatch, ∅)
  /\ invoke p (VArr [VStr "x"; VStr "x"; VStr "x"]) = (NoMatch, ∅).
Proof. repeat split; vm_compute; reflexivity. Qed.

(** C10. A repetition with [min] given and [max] omitted is built without
    any error, and the predicate enforces the lower bound only: it matches
    exactly the arrays of at least [min] elements that all match the inner
    pattern, however long. *)
Theorem repeat_min_only inner lo :
  exists rep,
    repeat_ inner (Some lo) None = inl rep
    /\ forall x j,
         fst (run rep x j) = Matched
         <-> exists xs, x = VArr xs
               /\ Forall (matches (match_ (or_any inner))) xs
               /\ (lo <= Z.of_nat (length xs))%Z.
Proof.
  eexists. split; [reflexivity|]. intros x j.
  rewrite (repeat_matched_iff inner (Some lo) None _ x j eq_refl).
  unfold within. split; intros (xs & Hx & Hall & Hw); exists xs; tauto.
Qed.

(** C6, at the input where the code departs from it: [repeat(is('x'), 1)],
    with [min] and no [max], returns a working predicate and nothing
    signals the malformed bounds, while [repeat(is('x'), undefined, 1)],
    with [max] only, returns the error string. *)
Theorem repeat_min_without_max_accepted :
  (exists rep,
     repeat_ (RStr "x") (Some 1%Z) None = inl rep
     /\ well_formed rep = true
     /\ invoke rep (VArr [VStr "x"; VStr "x"; VStr "x"]) = (Matched, ∅)
     /\ invoke (greedy (RStr "x") (Some 1%Z) None)
          (VArr [VStr "x"; VStr "x"; VStr "x"]) = (Matched, ∅))
  /\ repeat_ (RStr "x") None (Some 1%Z) = inr repeat_error
  /\ fst (invoke (greedy (RStr "x") None (Some 1%Z)) (VArr [])) = TypeError.
Proof.
  split; [eexists; split; [reflexivity|]|]; repeat split; vm_compute; done.
Qed.

(** ** Greedy and lazy *)

(** C3. [[name('A', X()), name('B', greedy(2))]] on [[1,2]] gives
    [A=[1], B=[2]] for [X = lazy] and [A=[1,2], B=[]] for [X = greedy]; on
    [[1,2,3]] both give [A=[1,2,3], B=[]]. *)
Theorem lazy_vs_greedy_bindings :
  invoke (lazy_vs_greedy lazy_) (nums [1; 2]%Z)
    = (Matched, {[ Own "A" := nums [1]%Z; Own "B" := nums [2]%Z ]})
  /\ invoke (lazy_vs_greedy greedy) (nums [1; 2]%Z)
    = (Matched, {[ Own "A" := nums [1; 2]%Z; Own "B" := nums [] ]})
  /\ invoke (lazy_vs_greedy greedy) (nums [1; 2; 3]%Z)
    = (Matched, {[ Own "A" := nums [1; 2; 3]%Z; Own "B" := nums [] ]})
  /\ invoke (lazy_vs_greedy lazy_) (nums [1; 2; 3]%Z)
    = (Matched, {[ Own "A" := nums [1; 2; 3]%Z; Own "B" := nums [] ]}).
Proof. repeat split; vm_compute; reflexivity. Qed.

(** ** Naming *)

Lemma chunkify_for_kinds pred l l' :
  Forall2 (fun a b => pred a = pred b) l l' ->
  forall fx fx' result result',
    length fx = length fx' ->
    map chunk_kind result = map chunk_kind result' ->
    map chunk_kind (chunkify_for pred l fx result)
    = map chunk_kind (chunkify_for pred l' fx' result').
Proof.
  induction 1 as [|a b l l' Hab _ IH]; intros fx fx' result result' Hfx Hres;
    simpl.
  - rewrite <- Hfx. destruct (0 <? length fx); [|done].
    rewrite !map_app. simpl. by rewrite Hres, Hfx.
  - rewrite <- Hab. destruct (pred a); simpl.
    + apply IH; [done|]. rewrite <- Hfx.
      rewrite !map_app. simpl. f_equal.
      destruct (0 <? length fx); [|done].
      rewrite !map_app. simpl. by rewrite Hres, Hfx.
    + apply IH; [|done]. rewrite !length_app. simpl. lia.
Qed.

Lemma chunkify_for_keeps pred l :
  forall fx result c,
    c ∈ result -> c ∈ chunkify_for pred l fx result.
Proof.
  induction l as [|e l IH]; intros fx result c Hc; simpl.
  - destruct (0 <? length fx); [|done]. apply elem_of_app. by left.
  - destruct (pred e); simpl; [|by apply IH].
    apply IH. apply elem_of_app. left.
    destruct (0 <? length fx); [|done]. apply elem_of_app. by left.
Qed.

Lemma chunkify_for_Rep pred pre e post :
  pred e = true ->
  forall fx result,
    Rep e ∈ chunkify_for pred (pre ++ e :: post) fx result.
Proof.
  intros He. induction pre as [|a pre IH]; intros fx result; simpl.
  - rewrite He. simpl. apply chunkify_for_keeps.
    apply elem_of_app. right. by apply list_elem_of_singleton.
  - destruct (pred a); simpl; apply IH.
Qed.

(** C5. [name(label, inner)] matches exactly when [inner] does and fails
    exactly when [inner] fails; the only difference is the assignment
    [j[label] = x] on success. The assignment writes the candidate under
    [label], whatever the label except [__proto__], where the setter of
    [Object.prototype] takes it; it touches no other entry of the context.
    The predicate carries the [type] of [inner], so the chunker takes it
    for a repetition exactly when it would take [inner] for one: always
    when [inner] is a [greedy] or a [lazy], and then the chunks of a
    sequence have the same shape with or without the name. *)
Theorem name_transparent label inner x j :
  let p := match_ (or_any inner) in
  run (name label inner) x j
    = match run p x j with
      | (Matched, j') => (Matched, assign j' label x)
      | other => other
      end
  /\ (label <> "__proto__" ->
      forall j', assign j' label x = <[Own label := x]> j')
  /\ (forall j' s, slot_label s <> label -> assign j' label x !! s = j' !! s)
  /\ fst (run (name label inner) x j) = fst (run p x j)
  /\ type_of (name label inner) = type_of p
  /\ is_repeating (name label inner) = is_repeating p
  /\ (forall q min max,
        is_repeating (name label (RPat (greedy q min max))) = true
        /\ is_repeating (name label (RPat (lazy_ q min max))) = true)
  /\ (forall pre post,
        map chunk_kind
          (chunkify (pre ++ name label inner :: post) is_repeating)
        = map chunk_kind (chunkify (pre ++ p :: post) is_repeating))
  /\ (is_repeating p = true ->
      forall pre post,
        Rep (name label inner)
          ∈ chunkify (pre ++ name label inner :: post) is_repeating).
Proof.
  intros p.
  assert (Hrun : run (name label inner) x j
    = match run p x j with
      | (Matched, j') => (Matched, assign j' label x)
      | other => other
      end) by apply run_name.
  split; [exact Hrun|].
  split; [intros Hl j'; by apply assign_ordinary|].
  split; [intros j' s Hs; by apply assign_untouched|]. split.
  { rewrite Hrun. by destruct (run p x j) as [[] j']. }
  split; [reflexivity|]. split; [reflexivity|]. split; [done|]. split.
  - intros pre post. apply chunkify_for_kinds; [|done|done].
    apply Forall2_app; [by apply Forall_Forall2_diag, Forall_forall|].
    constructor; [reflexivity|].
    by apply Forall_Forall2_diag, Forall_forall.
  - intros Hp pre post. by apply chunkify_for_Rep.
Qed.

(** ** Termination *)

(** C8. Every call of a predicate on a candidate ends: with [height f]
    units of fuel, one for each nested call, [apply] returns, and more fuel
    gives the same result. What it returns is the context or [false],
    unless the predicate was built around a call to what is not a
    function. *)
Theorem apply_terminates f x j fuel (Hfuel : height f <= fuel) :
  exists o j',
    apply fuel f x j = Some (o, j')
    /\ (forall more, fuel <= more -> apply more f x j = Some (o, j'))
    /\ (well_formed f = true -> o = Matched \/ o = NoMatch).
Proof.
  destruct (run f x j) as [o j'] eqn:E. exists o, j'.
  split; [rewrite apply_run by done; by rewrite E|]. split.
  - intros more Hmore. rewrite apply_run by lia. by rewrite E.
  - intros Hwf. pose proof (run_well_formed f x j Hwf) as H.
    rewrite E in H. simpl in H. destruct o; auto. done.
Qed.

Lemma apply_terminates_witness :
  height (lazy_vs_greedy lazy_) <= 5
  /\ exists o j',
       apply 5 (lazy_vs_greedy lazy_) (nums [1; 2; 3]%Z) ∅ = Some (o, j')
       /\ (forall more, 5 <= more ->
             apply more (lazy_vs_greedy lazy_) (nums [1; 2; 3]%Z) ∅
             = Some (o, j'))
       /\ (well_formed (lazy_vs_greedy lazy_) = true ->
           o = Matched \/ o = NoMatch).
Proof.
  split; [vm_compute; lia|].
  apply (apply_terminates (lazy_vs_greedy lazy_)). vm_compute. lia.
Defined.

(** ** Dispatch *)

Section SelectFacts.

Context {A : Type}.
Implicit Types (pairs seen rest : list (pat * (ctx -> A))).
Implicit Types (fallback : option (value -> A)) (h : ctx -> A).

Lemma clauses_of_app pairs1 pairs2 :
  clauses_of (pairs1 ++ pairs2) = clauses_of pairs1 ++ clauses_of pairs2.
Proof. apply flat_map_app. Qed.

Lemma length_clauses_of pairs : length (clauses_of pairs) = 2 * length pairs.
Proof. induction pairs as [|mf pairs IH]; simpl; [done|]. rewrite IH. lia. Qed.

Lemma select_for_dispatch x fallback pairs :
  forall seen i,
    i = 2 * length seen ->
    select_for x (clauses_of (seen ++ pairs)) fallback i (length pairs)
    = dispatch x pairs fallback.
Proof.
  induction pairs as [|[m h] pairs IH]; intros seen i ->; [done|].
  cbn [select_for dispatch length].
  assert (H0 : clauses_of (seen ++ (m, h) :: pairs) !! (2 * length seen)
               = Some (Pred m)).
  { rewrite clauses_of_app, lookup_app_r by (rewrite length_clauses_of; lia).
    rewrite length_clauses_of, Nat.sub_diag. done. }
  assert (H1 : clauses_of (seen ++ (m, h) :: pairs) !! (2 * length seen + 1)
               = Some (Func h)).
  { rewrite clauses_of_app, lookup_app_r by (rewrite length_clauses_of; lia).
    rewrite length_clauses_of.
    by replace (2 * length seen + 1 - 2 * length seen) with 1 by lia. }
  rewrite H0, H1. destruct (invoke m x) as [[] j]; try done.
  replace (seen ++ (m, h) :: pairs) with ((seen ++ [(m, h)]) ++ pairs)
    by (by rewrite <- app_assoc).
  apply IH. rewrite length_app. simpl. lia.
Qed.

Lemma select_clauses_of x pairs fallback :
  select x (clauses_of pairs) fallback = dispatch x pairs fallback.
Proof.
  unfold select. rewrite length_clauses_of.
  replace (2 * length pairs mod 2) with 0
    by (rewrite Nat.mul_comm; symmetry; apply Nat.Div0.mod_mul).
  cbn [Nat.eqb negb].
  replace (Nat.div2 (S (2 * length pairs))) with (length pairs)
    by (symmetry; apply Nat.div2_succ_double).
  exact (select_for_dispatch x fallback pairs [] 0 eq_refl).
Qed.

Lemma dispatch_first x seen m h rest fallback j :
  none_matches x seen -> invoke m x = (Matched, j) ->
  dispatch x (seen ++ (m, h) :: rest) fallback = Handled (h j).
Proof.
  intros Hseen Hm. induction Hseen as [|[m' h'] seen Hm' _ IH]; simpl.
  - by rewrite Hm.
  - simpl in Hm'. destruct (invoke m' x) as [o j']. simpl in Hm'. by subst o.
Qed.

Lemma dispatch_none x pairs fallback :
  none_matches x pairs -> dispatch x pairs fallback = or_fallback fallback x.
Proof.
  induction 1 as [|[m h] pairs Hm _ IH]; simpl; [done|].
  simpl in Hm. destruct (invoke m x) as [o j']. simpl in Hm. by subst o.
Qed.

Lemma dispatch_fallback_only x pairs fallback :
  dispatch x pairs fallback = or_fallback fallback x ->
  none_matches x pairs.
Proof.
  induction pairs as [|[m h] pairs IH]; simpl; [constructor|].
  destruct (invoke m x) as [o j'] eqn:E. destruct o.
  - by destruct fallback.
  - intros H. constructor; [simpl; by rewrite E | by apply IH].
  - by destruct fallback.
Qed.

End SelectFacts.

(** C9. [select] on an array of odd length throws its own error, whatever
    the candidate and the predicates; on the array of a list of pairs it
    calls the handler of the first pair whose predicate matches, and it
    turns to the fallback exactly when no predicate matches. *)
Theorem select_contract {A : Type} :
  (forall x (clauses : list (clause A)) fallback,
     length clauses mod 2 <> 0 ->
     select x clauses fallback
     = Threw (Error "number of clauses is not even"))
  /\ (forall x (pairs : list (pat * (ctx -> A))) fallback,
        select x (clauses_of pairs) fallback = dispatch x pairs fallback)
  /\ (forall x (seen : list (pat * (ctx -> A))) m h rest fallback j,
        none_matches x seen -> invoke m x = (Matched, j) ->
        select x (clauses_of (seen ++ (m, h) :: rest)) fallback
        = Handled (h j))
  /\ (forall x (pairs : list (pat * (ctx -> A))) fallback,
        select x (clauses_of pairs) fallback = or_fallback fallback x
        <-> none_matches x pairs).
Proof.
  split; [|split; [|split]].
  - intros x clauses fallback Hodd. unfold select.
    destruct (length clauses mod 2 =? 0) eqn:E; [|done].
    apply Nat.eqb_eq in E. done.
  - intros. apply select_clauses_of.
  - intros. rewrite select_clauses_of. by apply dispatch_first.
  - intros. rewrite select_clauses_of. split.
    + apply dispatch_fallback_only.
    + apply dispatch_none.
Qed.

(** ** The greedy search *)

Section Descend.

Variable validate : list value -> ctx -> res.
Variable remainder : nat -> ctx -> res.
Variable x : list value.
Variable xi : nat.
Hypothesis validate_blind :
  forall s j1 j2, fst (validate s j1) = fst (validate s j2).
Hypothesis remainder_blind :
  forall i j1 j2, fst (remainder i j1) = fst (remainder i j2).
Hypothesis validate_sound : forall s j, fst (validate s j) <> TypeError.
Hypothesis remainder_sound : forall i j, fst (remainder i j) <> TypeError.

(** One round: the attempt at [n] succeeds and ends the search with the
    context it leaves, or it fails and the search goes on below [n]. *)
Lemma descend_step n j :
  (attempt validate remainder x xi n
   /\ descend validate remainder x xi (S n) j
      = (Matched,
         snd (remainder (xi + n) (snd (validate (slice x xi (xi + n)) j)))))
  \/ (~ attempt validate remainder x xi n
      /\ exists j', descend validate remainder x xi (S n) j
                    = descend validate remainder x xi n j').
Proof.
  unfold attempt. simpl.
  pose proof (validate_blind (slice x xi (xi + n)) j ∅) as Hv.
  pose proof (validate_sound (slice x xi (xi + n)) j) as Hvs.
  destruct (validate (slice x xi (xi + n)) j) as [ov j1].
  cbn [fst snd] in *. rewrite <- Hv.
  destruct ov; [| right; split; [intros [? _]; done | eauto] | done].
  pose proof (remainder_blind (xi + n) j1 ∅) as Hr.
  pose proof (remainder_sound (xi + n) j1) as Hrs.
  destruct (remainder (xi + n) j1) as [orr j2].
  cbn [fst snd] in *. rewrite <- Hr.
  destruct orr; [by left | right; split; [intros [_ ?]; done | eauto] | done].
Qed.

Lemma descend_Matched n :
  forall j,
    fst (descend validate remainder x xi n j) = Matched
    <-> exists r, r < n /\ attempt validate remainder x xi r.
Proof.
  induction n as [|n IH]; intros j.
  - simpl. split; [done | intros (r & Hr & _); lia].
  - destruct (descend_step n j) as [[Hok ->] | [Hno [j' ->]]].
    + simpl. split; [|done]. intros _. exists n. split; [lia | done].
    + rewrite IH. split; intros (r & Hr & Hok).
      * exists r. split; [lia | done].
      * exists r. split; [|done].
        destruct (decide (r = n)) as [->|]; [done | lia].
Qed.

Lemma descend_NoMatch n j :
  fst (descend validate remainder x xi n j) = NoMatch
  <-> ~ exists r, r < n /\ attempt validate remainder x xi r.
Proof.
  rewrite <- (descend_Matched n j).
  assert (Hs : fst (descend validate remainder x xi n j) <> TypeError).
  { revert j. induction n as [|n IH]; intros j; [done|].
    destruct (descend_step n j) as [[_ ->] | [_ [j' ->]]]; [done | apply IH]. }
  destruct (fst (descend validate remainder x xi n j)); split; congruence.
Qed.

(** The largest length whose attempt succeeds is the one that wins: the
    context returned is the one its attempt leaves. *)
Lemma descend_largest n r :
  r < n -> attempt validate remainder x xi r ->
  (forall r', r < r' < n -> ~ attempt validate remainder x xi r') ->
  forall j, exists j0,
    descend validate remainder x xi n j
    = (Matched,
       snd (remainder (xi + r) (snd (validate (slice x xi (xi + r)) j0)))).
Proof.
  induction n as [|n IH]; intros Hr Hok Hmax j; [lia|].
  destruct (descend_step n j) as [[Hn ->] | [Hno [j' ->]]].
  - destruct (decide (r = n)) as [->|Hne]; [by exists j|].
    destruct (Hmax n); [lia | done].
  - apply IH; [|done|].
    + destruct (decide (r = n)) as [->|]; [done | lia].
    + intros r' Hr'. apply Hmax. lia.
Qed.

End Descend.

Lemma run_greedy inner min max rep x j :
  repeat_ inner min max = inl rep ->
  run (greedy inner min max) x j = run rep x j.
Proof. intros H. unfold greedy. rewrite H. apply run_pat_fn. Qed.

Lemma run_lazy inner min max rep x j :
  repeat_ inner min max = inl rep ->
  run (lazy_ inner min max) x j = run rep x j.
Proof. intros H. unfold lazy_. rewrite H. apply run_pat_fn. Qed.

(** Validating a slice with a greedy repetition, named or not, is checking
    its elements against the inner pattern and its length against the
    bounds. *)
Lemma greedy_validates inner min max rep s j :
  repeat_ inner min max = inl rep ->
  fst (run (greedy inner min max) (VArr s) j) = Matched
  <-> Forall (matches (match_ (or_any inner))) s
      /\ within (length s) min max.
Proof.
  intros H. rewrite (run_greedy inner min max rep) by done.
  rewrite (repeat_matched_iff inner min max rep (VArr s) j H). split.
  - intros (xs & E & Hall & Hw). by injection E as <-.
  - intros [Hall Hw]. by exists s.
Qed.

Lemma named_greedy_validates label inner min max rep s j :
  repeat_ inner min max = inl rep ->
  fst (run (name label (RPat (greedy inner min max))) (VArr s) j) = Matched
  <-> Forall (matches (match_ (or_any inner))) s
      /\ within (length s) min max.
Proof.
  intros H. rewrite <- (greedy_validates inner min max rep s j H).
  unfold name. simpl. unfold matchable. simpl. rewrite run_name.
  by destruct (run (greedy inner min max) (VArr s) j) as [[] j'].
Qed.

(** Inside the greedy branch the guard of the [fixlength] loop is false:
    the chunk it tests is the greedy chunk itself. *)
Lemma fixlength_for_greedy chunks ci n z :
  has_type (chunks !! ci) greedy_t = true ->
  fixlength_for chunks ci n z = z.
Proof.
  intros H. revert z. induction n as [|n IH]; intros z; simpl; [done|].
  rewrite H. simpl. apply IH.
Qed.

Lemma greedy_for_descend x e next remainder xi :
  (forall i j, next i j = Some (remainder i j)) ->
  forall n j,
    greedy_for run_call x e next xi n j
    = Some (descend (fun s => run e (VArr s)) remainder x xi n j).
Proof.
  intros Hnext. induction n as [|n IH]; intros j; simpl; [done|].
  unfold run_call at 1.
  destruct (run e (VArr (slice x xi (xi + n))) j) as [[] j1]; simpl;
    [|apply IH|done].
  rewrite Hnext.
  destruct (remainder (xi + n) j1) as [[] j2]; simpl; [done|apply IH|done].
Qed.

Lemma search_well_formed chunks x ci xi j :
  forallb well_formed_chunk chunks = true ->
  fst (search chunks x ci xi j) <> TypeError.
Proof.
  intros Hwf.
  pose proof (post_submatch (fun _ _ => True) (fun _ => I)
                (fun _ _ _ _ _ => I) run_call) as H.
  assert (Hcall : forall f y k,
    post (fun _ _ => True) (well_formed f = true) (run_call f y k) k).
  { intros f y k. unfold run_call. simpl.
    pose proof (run_well_formed f y k) as Hr.
    destruct (run f y k) as [o k']. by split. }
  specialize (H Hcall chunks x (S (length chunks - ci)) ci xi j).
  rewrite submatch_search in H by lia. simpl in H.
  destruct (search chunks x ci xi j) as [o j']. simpl. by apply H.
Qed.

(** C2. At a greedy chunk the amount subtracted from the first length is
    zero, so [submatch] tries the lengths [r = R, R - 1, ..., 0] for
    [R = x.length - xi]: it validates the slice [[xi, xi + r)] with the
    chunk, which checks its elements against the inner pattern and its
    length against the bounds, then runs the chunks from
    [(ci + 1, xi + r)], and the first [r] for which both succeed ends the
    search with success. So the chunk succeeds exactly when some [r] of
    [[0, R]] does, with the largest such [r], and fails exactly when none
    does. *)
Theorem greedy_chunk_search chunks x ci xi e j
    (Hchunk : chunks !! ci = Some (Rep e))
    (Hgreedy : type_of e = greedy_t) :
  fixlength_for chunks ci (length chunks - (ci + 1)) 0 = 0%Z
  /\ (forall fuel, length chunks - ci < fuel ->
        submatch run_call chunks x fuel ci xi j
        = Some (greedy_spec e chunks x ci xi j))
  /\ (forall label inner min max rep,
        repeat_ inner min max = inl rep ->
        e = greedy inner min max
        \/ e = name label (RPat (greedy inner min max)) ->
        forall s k,
          fst (run e (VArr s) k) = Matched
          <-> Forall (matches (match_ (or_any inner))) s
              /\ within (length s) min max)
  /\ (forallb well_formed_chunk chunks = true ->
      (fst (search chunks x ci xi j) = Matched
       <-> exists r, xi + r <= length x /\ consumes e chunks x ci xi r)
      /\ (fst (search chunks x ci xi j) = NoMatch
          <-> ~ exists r, xi + r <= length x /\ consumes e chunks x ci xi r)
      /\ (forall r,
            xi + r <= length x ->
            consumes e chunks x ci xi r ->
            (forall r', r < r' -> xi + r' <= length x ->
                        ~ consumes e chunks x ci xi r') ->
            exists j0,
              search chunks x ci xi j
              = (Matched,
                 snd (search chunks x (ci + 1) (xi + r)
                        (snd (run e (VArr (slice x xi (xi + r))) j0)))))).
Proof.
  assert (Hty : has_type (chunks !! ci) greedy_t = true).
  { rewrite Hchunk. simpl. by rewrite Hgreedy. }
  assert (Hci : ci < length chunks) by (by eapply lookup_lt_Some).
  assert (Hsub : forall fuel, length chunks - ci < fuel ->
            submatch run_call chunks x fuel ci xi j
            = Some (greedy_spec e chunks x ci xi j)).
  { intros fuel Hfuel. destruct fuel as [|fuel]; [lia|]. simpl.
    replace (length chunks <=? ci) with false by (symmetry; apply Nat.leb_gt; lia).
    simpl. rewrite Hchunk, Hgreedy. simpl.
    rewrite fixlength_for_greedy by done.
    rewrite Z.sub_0_r. apply greedy_for_descend.
    intros i k. apply submatch_search. lia. }
  assert (Hsearch : search chunks x ci xi j = greedy_spec e chunks x ci xi j).
  { pose proof (Hsub (S (length chunks - ci)) (le_n _)) as H.
    rewrite submatch_search in H by lia. congruence. }
  split; [by apply fixlength_for_greedy|]. split; [exact Hsub|].
  split.
  { intros label inner lo hi rep Hrep [-> | ->] s k.
    - by apply (greedy_validates inner lo hi rep).
    - by apply (named_greedy_validates label inner lo hi rep). }
  intros Hwf. rewrite Hsearch. unfold greedy_spec, consumes.
  assert (He : well_formed e = true).
  { pose proof (forallb_lookup _ _ _ _ Hwf Hchunk) as H. simpl in H.
    by apply andb_prop in H as [? ?]. }
  assert (Hreach : forall r,
            r < Z.to_nat (remaining x xi + 1) <-> xi + r <= length x).
  { intros r. unfold remaining. lia. }
  split; [|split].
  - setoid_rewrite <- Hreach. apply descend_Matched.
    + intros s k1 k2. apply run_outcome_ctx.
    + intros i k1 k2. apply search_outcome_ctx.
    + intros s k. by apply run_well_formed.
    + intros i k. by apply search_well_formed.
  - setoid_rewrite <- Hreach. apply descend_NoMatch.
    + intros s k1 k2. apply run_outcome_ctx.
    + intros i k1 k2. apply search_outcome_ctx.
    + intros s k. by apply run_well_formed.
    + intros i k. by apply search_well_formed.
  - intros r Hr Hok Hmax. apply descend_largest; try done.
    + intros s k1 k2. apply run_outcome_ctx.
    + intros i k1 k2. apply search_outcome_ctx.
    + intros s k. by apply run_well_formed.
    + intros i k. by apply search_well_formed.
    + by apply Hreach.
    + intros r' [H1 H2]. apply Hmax; [done | by apply Hreach].
Qed.

Lemma greedy_chunk_search_witness :
  let e := name "A" (RPat (greedy RUndef None None)) in
  let chunks := [Rep e; Fixed [is_ (VNum 2)]] in
  chunks !! 0 = Some (Rep e)
  /\ type_of e = greedy_t
  /\ fixlength_for chunks 0 (length chunks - (0 + 1)) 0 = 0%Z
  /\ (forall fuel, length chunks - 0 < fuel ->
        submatch run_call chunks [VNum 1; VNum 2] fuel 0 0 ∅
        = Some (greedy_spec e chunks [VNum 1; VNum 2] 0 0 ∅)).
Proof.
  intros e chunks. split; [reflexivity|]. split; [reflexivity|].
  pose proof (greedy_chunk_search chunks [VNum 1; VNum 2] 0 0 e ∅
                eq_refl eq_refl) as H.
  exact (conj (proj1 H) (proj1 (proj2 H))).
Defined.

(** * Further properties of the matcher *)

(** ** Equations of [search] *)

Lemma search_step chunks x ci xi j :
  submatch run_call chunks x (S (length chunks - ci)) ci xi j
  = Some (search chunks x ci xi j).
Proof. apply submatch_search. lia. Qed.

Lemma search_end chunks x ci xi j :
  length chunks <= ci ->
  search chunks x ci xi j
  = (if length x <=? xi then Matched else NoMatch, j).
Proof.
  intros Hci. pose proof (search_step chunks x ci xi j) as H. simpl in H.
  replace (length chunks <=? ci) with true in H
    by (symmetry; by apply Nat.leb_le).
  simpl in H. destruct (length x <=? xi); by injection H as <-.
Qed.

Lemma fixed_for_run x fx xi rest restr :
  (forall j, rest j = Some (restr j)) ->
  forall c j,
    fixed_for run_call x fx xi c rest j
    = Some (match fixed_run fx x xi c j with
            | (Matched, j1) => restr j1
            | other => other
            end).
Proof.
  intros Hrest. induction fx as [|e fx IH]; intros c j; simpl; [apply Hrest|].
  unfold run_call at 1.
  destruct (run e (index x (c + xi)) j) as [[] j1]; simpl; [apply IH|done|done].
Qed.

Lemma search_fixed chunks x ci xi j fx :
  chunks !! ci = Some (Fixed fx) ->
  search chunks x ci xi j
  = if (remaining x xi <? Z.of_nat (length fx))%Z then (NoMatch, j)
    else match fixed_run fx x xi 0 j with
         | (Matched, j1) => search chunks x (ci + 1) (xi + length fx) j1
         | other => other
         end.
Proof.
  intros Hc. assert (Hci : ci < length chunks) by (by eapply lookup_lt_Some).
  pose proof (search_step chunks x ci xi j) as H. simpl in H.
  replace (length chunks <=? ci) with false in H
    by (symmetry; apply Nat.leb_gt; lia).
  simpl in H. rewrite Hc in H. fold (remaining x xi) in H.
  destruct (remaining x xi <? Z.of_nat (length fx))%Z; [by injection H as <-|].
  rewrite (fixed_for_run x fx xi _
             (search chunks x (ci + 1) (xi + length fx))) in H.
  - by injection H as <-.
  - intros k. apply submatch_search. lia.
Qed.

Lemma search_greedy chunks x ci xi j e :
  chunks !! ci = Some (Rep e) -> type_of e = greedy_t ->
  search chunks x ci xi j = greedy_spec e chunks x ci xi j.
Proof.
  intros Hc Hty.
  assert (Hci : ci < length chunks) by (by eapply lookup_lt_Some).
  pose proof (search_step chunks x ci xi j) as H. simpl in H.
  replace (length chunks <=? ci) with false in H
    by (symmetry; apply Nat.leb_gt; lia).
  simpl in H. rewrite Hc, Hty in H. simpl in H.
  rewrite fixlength_for_greedy in H by (rewrite Hc; simpl; by rewrite Hty).
  rewrite Z.sub_0_r in H.
  rewrite (greedy_for_descend x e _ (search chunks x (ci + 1))) in H.
  - by injection H as <-.
  - intros i k. apply submatch_search. lia.
Qed.

Lemma lazy_for_ascend x e next remainder xi :
  (forall i j, next i j = Some (remainder i j)) ->
  forall n replength j,
    lazy_for run_call x e next xi n replength j
    = Some (ascend (fun s => run e (VArr s)) remainder x xi n replength j).
Proof.
  intros Hnext. induction n as [|n IH]; intros replength j; [done|].
  cbn [lazy_for ascend]. unfold run_call at 1.
  destruct (run e (VArr (slice x xi (xi + replength))) j) as [[] j1]; simpl;
    [|apply IH|done].
  rewrite Hnext.
  destruct (remainder (xi + replength) j1) as [[] j2]; simpl;
    [done|apply IH|done].
Qed.

Lemma search_lazy chunks x ci xi j e :
  chunks !! ci = Some (Rep e) -> type_of e = lazy_t ->
  search chunks x ci xi j = lazy_spec e chunks x ci xi j.
Proof.
  intros Hc Hty.
  assert (Hci : ci < length chunks) by (by eapply lookup_lt_Some).
  pose proof (search_step chunks x ci xi j) as H.
  cbn [submatch] in H.
  replace (length chunks <=? ci) with false in H
    by (symmetry; apply Nat.leb_gt; lia).
  cbn [andb] in H. rewrite Hc, Hty in H. cbn [tag_eqb] in H.
  rewrite (lazy_for_ascend x e _ (search chunks x (ci + 1))) in H.
  - by injection H as <-.
  - intros i k. apply submatch_search. lia.
Qed.

(** ** The chunks before the cursor do not matter *)

Lemma branch_ext c y1 y2 n1 n2 :
  (forall j, y1 j = y2 j) -> (forall j, n1 j = n2 j) ->
  branch c y1 n1 = branch c y2 n2.
Proof. intros Hy Hn. destruct c as [[[] j]|]; simpl; auto. Qed.

Lemma greedy_for_ext call x e next1 next2 xi :
  (forall i j, next1 i j = next2 i j) ->
  forall n j,
    greedy_for call x e next1 xi n j = greedy_for call x e next2 xi n j.
Proof.
  intros Hnext. induction n as [|n IH]; intros j; [done|]. simpl.
  apply branch_ext; [|exact IH].
  intros k. rewrite Hnext. by apply branch_ext.
Qed.

Lemma lazy_for_ext call x e next1 next2 xi :
  (forall i j, next1 i j = next2 i j) ->
  forall n replength j,
    lazy_for call x e next1 xi n replength j
    = lazy_for call x e next2 xi n replength j.
Proof.
  intros Hnext. induction n as [|n IH]; intros replength j; [done|]. simpl.
  apply branch_ext; [|apply IH].
  intros k. rewrite Hnext. apply branch_ext; [done | apply IH].
Qed.

Lemma fixed_for_ext call x fx xi rest1 rest2 :
  (forall j, rest1 j = rest2 j) ->
  forall c j,
    fixed_for call x fx xi c rest1 j = fixed_for call x fx xi c rest2 j.
Proof.
  intros Hrest. induction fx as [|e fx IH]; intros c j; simpl; [apply Hrest|].
  apply branch_ext; [apply IH | done].
Qed.

Lemma fixlength_for_app cs1 cs2 k n z :
  fixlength_for (cs1 ++ cs2) (length cs1 + k) n z = fixlength_for cs2 k n z.
Proof.
  revert z. induction n as [|n IH]; intros z; [done|]. simpl.
  rewrite lookup_app_r by lia.
  replace (length cs1 + k - length cs1) with k by lia.
  rewrite (lookup_app_r cs1 cs2 (length cs1 + k + 1)) by lia.
  replace (length cs1 + k + 1 - length cs1) with (k + 1) by lia.
  destruct (_ && _); apply IH.
Qed.

Lemma submatch_app call cs1 cs2 x fuel :
  forall k xi j,
    submatch call (cs1 ++ cs2) x fuel (length cs1 + k) xi j
    = submatch call cs2 x fuel k xi j.
Proof.
  induction fuel as [|fuel IH]; intros k xi j; [done|]. cbn [submatch].
  assert (Hnext : forall i k',
            submatch call (cs1 ++ cs2) x fuel (length cs1 + k + 1) i k'
            = submatch call cs2 x fuel (k + 1) i k').
  { intros i k'. rewrite <- Nat.add_assoc. apply IH. }
  rewrite length_app.
  replace (length cs1 + length cs2 <=? length cs1 + k)
    with (length cs2 <=? k).
  2:{ destruct (Nat.leb_spec (length cs2) k);
        symmetry; [apply Nat.leb_le | apply Nat.leb_gt]; lia. }
  rewrite lookup_app_r by lia.
  replace (length cs1 + k - length cs1) with k by lia.
  destruct (_ && _); [done|]. destruct (length cs2 <=? k); [done|].
  destruct (cs2 !! k) as [[fx|e]|]; [| |done].
  - destruct (_ <? _)%Z; [done|]. by apply fixed_for_ext.
  - destruct (tag_eqb _ greedy_t).
    { rewrite <- length_app, fixlength_for_app.
      replace (length (cs1 ++ cs2) - (length cs1 + k + 1))
        with (length cs2 - (k + 1)) by (rewrite length_app; lia).
      by apply greedy_for_ext. }
    destruct (tag_eqb _ lazy_t); [|done].
    by apply lazy_for_ext.
Qed.

Lemma search_app cs1 cs2 x k xi j :
  search (cs1 ++ cs2) x (length cs1 + k) xi j = search cs2 x k xi j.
Proof.
  unfold search. rewrite submatch_app. rewrite length_app.
  by replace (length cs1 + length cs2 - (length cs1 + k))
    with (length cs2 - k) by lia.
Qed.

Lemma search_cons c cs x k xi j :
  search (c :: cs) x (S k) xi j = search cs x k xi j.
Proof. exact (search_app [c] cs x k xi j). Qed.

(** ** The chunks of a sequence *)

Lemma chunkify_for_result pred l :
  forall fx result,
    chunkify_for pred l fx result = result ++ chunkify_for pred l fx [].
Proof.
  induction l as [|e l IH]; intros fx result; simpl.
  - destruct (0 <? length fx); [done | by rewrite app_nil_r].
  - destruct (pred e); simpl; [|apply IH].
    rewrite IH. rewrite (IH [] (_ ++ [Rep e])).
    rewrite !app_assoc. do 2 f_equal.
    destruct (0 <? length fx); [done | by rewrite app_nil_r].
Qed.

Lemma chunkify_for_fixed pred ps l :
  Forall (fun p => pred p = false) ps ->
  forall fx result,
    chunkify_for pred (ps ++ l) fx result
    = chunkify_for pred l (fx ++ ps) result.
Proof.
  induction 1 as [|p ps Hp _ IH]; intros fx result; simpl.
  - by rewrite app_nil_r.
  - rewrite Hp. simpl. rewrite IH. by rewrite <- app_assoc.
Qed.

Lemma chunkify_fixed ps :
  non_repeating ps -> chunkify ps is_repeating = flush ps.
Proof.
  intros H. unfold chunkify.
  rewrite <- (app_nil_r ps) at 1.
  by rewrite (chunkify_for_fixed is_repeating ps [] H).
Qed.

Lemma chunkify_fixed_rep ps e l :
  non_repeating ps -> is_repeating e = true ->
  chunkify (ps ++ e :: l) is_repeating
  = flush ps ++ Rep e :: chunkify l is_repeating.
Proof.
  intros H He. unfold chunkify.
  rewrite (chunkify_for_fixed is_repeating ps (e :: l) H). simpl.
  rewrite He. simpl. rewrite chunkify_for_result.
  unfold flush. by destruct (0 <? length ps); simpl.
Qed.

Lemma chunkify_for_chunks_of pred l :
  forall fx,
    chunkify_for pred l fx [] = prepend fx (chunks_of pred l).
Proof.
  induction l as [|e l IH]; intros fx; simpl.
  - by destruct fx.
  - destruct (pred e); simpl.
    + rewrite chunkify_for_result, IH. simpl. by destruct fx.
    + rewrite IH. destruct (chunks_of pred l) as [|[g|e'] cs];
        destruct fx; simpl; try done.
      by rewrite <- app_assoc.
Qed.

Lemma chunkify_chunks_of l pred : chunkify l pred = chunks_of pred l.
Proof. unfold chunkify. by rewrite chunkify_for_chunks_of. Qed.

Lemma chunks_of_flatten pred l :
  concat (map chunk_pats (chunks_of pred l)) = l.
Proof.
  induction l as [|e l IH]; simpl; [done|].
  destruct (pred e); simpl; [by rewrite IH|].
  destruct (chunks_of pred l) as [|[g|e'] cs]; simpl in *; by rewrite IH.
Qed.

Lemma chunks_of_proper pred l :
  Forall (proper_chunk pred) (chunks_of pred l).
Proof.
  induction l as [|e l IH]; simpl; [constructor|].
  destruct (pred e) eqn:He; [by constructor|].
  destruct (chunks_of pred l) as [|[g|e'] cs].
  - constructor; [|done]. split; [done | by repeat constructor].
  - apply Forall_cons_1 in IH as [[_ Hg] Hcs].
    constructor; [|done]. split; [done | by constructor].
  - constructor; [|done]. split; [done | by repeat constructor].
Qed.

Lemma chunks_of_maximal pred l i c c' :
  chunks_of pred l !! i = Some c -> chunks_of pred l !! S i = Some c' ->
  is_fixed c && is_fixed c' = false.
Proof.
  revert i c c'. induction l as [|e l IH]; intros i c c'; simpl; [done|].
  destruct (pred e).
  - destruct i as [|i]; simpl; [by intros [= <-] | apply IH].
  - destruct (chunks_of pred l) as [|[g|e'] cs] eqn:E.
    + destruct i; simpl; done.
    + destruct i as [|i]; simpl.
      * intros [= <-] H. by apply (IH 0 (Fixed g) c').
      * apply (IH (S i)).
    + destruct i as [|i]; simpl.
      * by intros [= <-] [= <-].
      * apply (IH i).
Qed.

(** X1. The chunks of [chunkify], laid end to end, are the list it was
    given: nothing is lost, repeated or reordered. *)
Theorem chunkify_flatten l pred :
  concat (map chunk_pats (chunkify l pred)) = l.
Proof. rewrite chunkify_chunks_of. apply chunks_of_flatten. Qed.

(** X2. [chunkify] builds maximal runs: a fixed chunk is never empty and
    holds only elements the predicate rejects, a repetition chunk is one
    element the predicate accepts, and two fixed chunks are never
    neighbours. *)
Theorem chunkify_maximal_runs l pred :
  Forall (proper_chunk pred) (chunkify l pred)
  /\ forall i c c',
       chunkify l pred !! i = Some c -> chunkify l pred !! S i = Some c' ->
       is_fixed c && is_fixed c' = false.
Proof.
  rewrite chunkify_chunks_of. split.
  - apply chunks_of_proper.
  - apply chunks_of_maximal.
Qed.

(** ** Sequences without repetition *)

Lemma index_drop (x : list value) n y ys :
  drop n x = y :: ys -> index x n = y /\ drop (S n) x = ys.
Proof.
  intros H. split.
  - unfold index. rewrite <- (Nat.add_0_r n), <- lookup_drop, H. done.
  - rewrite <- (Nat.add_1_l n), Nat.add_comm, <- drop_drop, H. done.
Qed.

Lemma fixed_run_Matched x xi fx :
  forall c j ys rest,
    drop (c + xi) x = ys ++ rest -> length ys = length fx ->
    fst (fixed_run fx x xi c j) = Matched <-> Forall2 matches fx ys.
Proof.
  induction fx as [|e fx IH]; intros c j ys rest Hd Hlen.
  - destruct ys; [|done]. simpl. split; [constructor | done].
  - destruct ys as [|y ys]; [done|]. simpl in Hd, Hlen.
    apply index_drop in Hd as [Hy Hd]. simpl. rewrite Hy.
    pose proof (matches_run e y j) as Hm.
    destruct (run e y j) as [o j1]. simpl in Hm. split.
    + intros H. assert (o = Matched) as -> by (by destruct o).
      constructor; [by apply Hm|].
      apply (IH (S c) j1 ys rest); [done | lia | done].
    + intros H. apply Forall2_cons_1 in H as [He Hfx].
      apply Hm in He as ->.
      apply (IH (S c) j1 ys rest); [done | lia | done].
Qed.

Lemma fixed_run_silent x xi fx :
  Forall silent fx -> forall c j, snd (fixed_run fx x xi c j) = j.
Proof.
  induction 1 as [|e fx He _ IH]; intros c j; simpl; [done|].
  pose proof (He (index x (c + xi)) j) as Hj.
  destruct (run e (index x (c + xi)) j) as [[] j1]; simpl in Hj; subst;
    [apply IH | done | done].
Qed.

Lemma run_lst_not_array chunks t b x j :
  (forall xs, x <> VArr xs) ->
  run (Matchable (lst_fn chunks) t b) x j = (NoMatch, j).
Proof.
  intros Hx.
  pose proof (run_unfold (Matchable (lst_fn chunks) t b) x j _ (le_n _)) as H.
  simpl in H. destruct x as [| | | | |xs|]; try (by inversion H).
  by destruct (Hx xs).
Qed.

Lemma search_flush fx cs x xi j :
  xi <= length x ->
  search (flush fx ++ cs) x 0 xi j
  = if (remaining x xi <? Z.of_nat (length fx))%Z then (NoMatch, j)
    else match fixed_run fx x xi 0 j with
         | (Matched, j1) => search cs x 0 (xi + length fx) j1
         | other => other
         end.
Proof.
  intros Hxi. unfold flush. destruct fx as [|e fx].
  - simpl. replace (remaining x xi <? Z.of_nat 0)%Z with false
      by (symmetry; apply Z.ltb_ge; unfold remaining; lia).
    by rewrite Nat.add_0_r.
  - cbn [length Nat.ltb Nat.leb app].
    rewrite (search_fixed _ x 0 xi j (e :: fx)) by done.
    destruct (_ <? _)%Z; [done|].
    destruct (fixed_run (e :: fx) x xi 0 j) as [[] j1]; try done.
    apply (search_cons (Fixed (e :: fx)) cs x 0).
Qed.

Lemma run_any x j : run any x j = (Matched, j).
Proof. reflexivity. Qed.

Lemma run_is v x j :
  run (is_ v) x j = (if strict_eq x v then Matched else NoMatch, j).
Proof. unfold run. simpl. by destruct (strict_eq x v). Qed.

Lemma silent_any : silent any.
Proof. intros x j. reflexivity. Qed.

Lemma silent_is v : silent (is_ v).
Proof. intros x j. by rewrite run_is. Qed.

Lemma search_nil x xi j :
  search [] x 0 xi j = (if length x <=? xi then Matched else NoMatch, j).
Proof. apply search_end. simpl. lia. Qed.

Lemma run_lst_of_fixed ps xs j :
  non_repeating ps ->
  run (lst_of ps) (VArr xs) j
  = if length xs <? length ps then (NoMatch, j)
    else match fixed_run ps xs 0 0 j with
         | (Matched, j1) =>
             (if length xs <=? length ps then Matched else NoMatch, j1)
         | other => other
         end.
Proof.
  intros Hps. unfold lst_of, matchable. rewrite run_lst, chunkify_fixed by done.
  rewrite <- (app_nil_r (flush ps)), search_flush by lia.
  unfold remaining. rewrite Z.sub_0_r.
  destruct (Nat.ltb_spec (length xs) (length ps)) as [Hlt|Hge].
  - replace (_ <? _)%Z with true by (symmetry; apply Z.ltb_lt; lia). done.
  - replace (_ <? _)%Z with false by (symmetry; apply Z.ltb_ge; lia).
    destruct (fixed_run ps xs 0 0 j) as [[] j1]; try done.
    by rewrite search_nil.
Qed.

Lemma lst_of_fixed_facts ps x j (Hps : non_repeating ps) :
  (fst (run (lst_of ps) x j) = Matched
   <-> exists xs, x = VArr xs /\ Forall2 matches ps xs)
  /\ (Forall silent ps -> snd (run (lst_of ps) x j) = j).
Proof.
  destruct (match x with VArr xs => Some xs | _ => None end) as [xs|] eqn:Ex.
  2:{ assert (Hx : forall xs, x <> VArr xs) by (intros xs ->; done).
      unfold lst_of, matchable. rewrite run_lst_not_array by done. simpl.
      split; [|done]. split; [done|]. intros (xs & -> & _). by destruct (Hx xs). }
  assert (x = VArr xs) as -> by (destruct x; by inversion Ex). clear Ex.
  rewrite run_lst_of_fixed by done. split.
  - destruct (Nat.ltb_spec (length xs) (length ps)) as [Hlt|Hge].
    { simpl. split; [done|]. intros (ys & [= <-] & H).
      apply Forall2_length in H. lia. }
    destruct (Nat.leb_spec (length xs) (length ps)) as [Hle|Hgt].
    + assert (Hlen : length xs = length ps) by lia.
      pose proof (fixed_run_Matched xs 0 ps 0 j xs []) as Hm.
      rewrite app_nil_r in Hm. specialize (Hm eq_refl Hlen).
      destruct (fixed_run ps xs 0 0 j) as [o j1]. simpl in Hm.
      destruct o; simpl.
      * split; [|done]. intros _. exists xs. split; [done | by apply Hm].
      * split; [done|]. intros (ys & [= <-] & H). by apply Hm in H.
      * split; [done|]. intros (ys & [= <-] & H). by apply Hm in H.
    + assert (Hne : fst (match fixed_run ps xs 0 0 j with
                         | (Matched, j1) => (NoMatch, j1)
                         | other => other
                         end) <> Matched).
      { by destruct (fixed_run ps xs 0 0 j) as [[] j1]. }
      split; [done|]. intros (ys & [= <-] & H).
      apply Forall2_length in H. lia.
  - intros Hs. destruct (length xs <? length ps); [done|].
    pose proof (fixed_run_silent xs 0 ps Hs 0 j) as Hj.
    destruct (fixed_run ps xs 0 0 j) as [[] j1]; simpl in *; by subst.
Qed.

(** X3. A sequence without repetitions matches exactly the arrays of the
    same length whose elements match its elements one by one; nothing else
    matches, whatever is not an array included. If none of the elements
    writes a binding, neither does the sequence. *)
Theorem lst_elementwise ps x j (Hps : non_repeating ps) :
  (fst (run (lst_of ps) x j) = Matched
   <-> exists xs, x = VArr xs /\ Forall2 matches ps xs)
  /\ (Forall silent ps -> snd (run (lst_of ps) x j) = j).
Proof. by apply lst_of_fixed_facts. Qed.

Lemma lst_elementwise_witness :
  non_repeating [is_ (VStr "a"); any]
  /\ (fst (run (lst_of [is_ (VStr "a"); any]) (VArr [VStr "a"; VNum 7]) ∅)
      = Matched
      <-> exists xs, VArr [VStr "a"; VNum 7] = VArr xs
                     /\ Forall2 matches [is_ (VStr "a"); any] xs).
Proof.
  assert (H : non_repeating [is_ (VStr "a"); any]) by (by repeat constructor).
  split; [exact H|].
  exact (proj1 (lst_elementwise _ (VArr [VStr "a"; VNum 7]) ∅ H)).
Defined.

(** ** Literal patterns *)

Lemma raw_nested_ind (P : raw -> Prop) :
  P RAny -> (forall f, P (RPat f)) ->
  (forall ps, Forall P ps -> P (RArr ps)) ->
  P RUndef -> P RNull -> (forall n, P (RNum n)) ->
  (forall s, P (RStr s)) -> (forall b, P (RBool b)) -> P RNaN ->
  forall p, P p.
Proof.
  intros Hany Hpat Harr Hundef Hnull Hnum Hstr Hbool Hnan.
  fix IH 1.
  intros [| f | ps | | | n | s | b |];
    [exact Hany | apply Hpat | | exact Hundef | exact Hnull
     | apply Hnum | apply Hstr | apply Hbool | exact Hnan].
  apply Harr. induction ps as [|q ps IHps]; constructor; [apply IH | exact IHps].
Qed.

Lemma strict_eq_scalar x v :
  (forall xs, v <> VArr xs) -> v <> VNaN -> strict_eq x v = true <-> x = v.
Proof.
  intros Hv Hn.
  destruct v as [| | n | s | b | ys |]; [..|by destruct (Hv ys)|done];
    destruct x as [| | m | t | c | xs |]; simpl; try (split; done).
  - rewrite Z.eqb_eq. split; congruence.
  - rewrite String.eqb_eq. split; congruence.
  - destruct b, c; simpl; split; congruence.
Qed.

Lemma matches_is v x :
  (forall xs, v <> VArr xs) -> v <> VNaN -> matches (is_ v) x <-> x = v.
Proof.
  intros Hv Hn. unfold matches, invoke. rewrite run_is. simpl.
  rewrite <- (strict_eq_scalar x v Hv Hn). by destruct (strict_eq x v).
Qed.

Lemma strict_eq_NaN x : strict_eq x VNaN = false.
Proof. by destruct x. Qed.

Lemma literal_facts p :
  literal p = true ->
  (forall x, matches (match_ p) x <-> x = value_of p)
  /\ silent (match_ p)
  /\ is_repeating (match_ p) = false.
Proof.
  induction p as [| f | ps IH | | | n | s | b |] using raw_nested_ind;
    intros Hlit; try done;
    try (split; [intros x; by apply matches_is | split; [apply silent_is | done]]).
  simpl in Hlit.
  assert (Hall : Forall (fun q =>
            (forall x, matches (match_ q) x <-> x = value_of q)
            /\ silent (match_ q) /\ is_repeating (match_ q) = false) ps).
  { clear -IH Hlit. induction IH as [|q ps Hq _ IHps]; [constructor|].
    simpl in Hlit. apply andb_prop in Hlit as [H1 H2]. constructor; auto. }
  clear IH Hlit.
  assert (Hnr : non_repeating (map match_ ps)).
  { apply Forall_map. eapply Forall_impl; [exact Hall|]. by intros q (_ & _ & H). }
  assert (Hsil : Forall silent (map match_ ps)).
  { apply Forall_map. eapply Forall_impl; [exact Hall|]. by intros q (_ & H & _). }
  split; [|split; [|done]].
  - intros x. unfold matches, invoke. simpl.
    rewrite (proj1 (lst_of_fixed_facts (map match_ ps) x ∅ Hnr)). split.
    + intros (xs & -> & H). f_equal.
      clear Hnr Hsil. revert xs H.
      induction Hall as [|q ps (Hq & _) _ IHps]; intros xs H.
      * by apply Forall2_nil_inv_l in H as ->.
      * destruct xs as [|y xs]; [by apply Forall2_length in H|].
        simpl in H. apply Forall2_cons_1 in H as [Hy H]. simpl.
        f_equal; [by apply Hq | by apply IHps].
    + intros ->. exists (map value_of ps). split; [done|].
      clear Hnr Hsil. induction Hall as [|q ps (Hq & _) _ IHps]; simpl;
        constructor; [by apply Hq | done].
  - intros x j. simpl.
    exact (proj2 (lst_of_fixed_facts (map match_ ps) x j Hnr) Hsil).
Qed.

Lemma literal_raw_well_formed p : literal p = true -> raw_well_formed p = true.
Proof.
  induction p as [| f | ps IH | | | n | s | b |] using raw_nested_ind; try done.
  simpl. induction IH as [|q ps Hq _ IHps]; [done|].
  simpl. intros H. apply andb_prop in H as [H1 H2].
  by rewrite Hq, IHps.
Qed.

(** X4. A pattern written as plain data, scalars other than [NaN] and
    nested arrays of such, matches the equal data and nothing else, and
    never writes a binding: [1] and ["1"] differ, and so do [[1]] and
    [[1, undefined]]. The literal [NaN] matches nothing, [NaN] included,
    for [is] compares with [===]; so an array pattern that holds [NaN]
    does not match the array it is written as. *)
Theorem literal_matches_itself p x j (Hlit : literal p = true) :
  (x = value_of p -> run (match_ p) x j = (Matched, j))
  /\ (x <> value_of p -> run (match_ p) x j = (NoMatch, j))
  /\ run (match_ RNaN) x j = (NoMatch, j)
  /\ run (match_ (RArr [p; RNaN])) (value_of (RArr [p; RNaN])) j
     = (NoMatch, j).
Proof.
  destruct (literal_facts p Hlit) as (Hm & Hs & Hrep).
  pose proof (run_well_formed (match_ p) x j
                (match_well_formed p (literal_raw_well_formed p Hlit))) as Hwf.
  pose proof (Hm x) as Hmx. rewrite (matches_run (match_ p) x j) in Hmx.
  pose proof (Hs x j) as Hsx.
  destruct (run (match_ p) x j) as [o j']. simpl in *. subst j'.
  split; [|split; [|split]].
  - intros Hx. by rewrite (proj2 Hmx Hx).
  - intros Hx. destruct o; [by destruct Hx; apply Hmx | done | done].
  - rewrite run_is. by rewrite strict_eq_NaN.
  - set (ps := [match_ p; is_ VNaN]).
    assert (Hnr : non_repeating ps) by (by repeat constructor).
    assert (Hsil : Forall silent ps).
    { repeat constructor; [exact Hs | apply silent_is]. }
    destruct (lst_of_fixed_facts ps (VArr [value_of p; VNaN]) j Hnr)
      as [Hiff Hj].
    specialize (Hj Hsil).
    assert (Hne : fst (run (lst_of ps) (VArr [value_of p; VNaN]) j)
                  <> TypeError).
    { apply run_well_formed, lst_of_well_formed. simpl.
      by rewrite (match_well_formed p (literal_raw_well_formed p Hlit)). }
    change (match_ (RArr [p; RNaN])) with (lst_of ps).
    change (value_of (RArr [p; RNaN])) with (VArr [value_of p; VNaN]).
    destruct (run (lst_of ps) (VArr [value_of p; VNaN]) j) as [o' j'].
    simpl in *. subst j'. destruct o'; [|done|done].
    destruct (proj1 Hiff eq_refl) as (xs & [= <-] & Hall).
    apply Forall2_cons_1 in Hall as [_ Hall].
    apply Forall2_cons_1 in Hall as [Hnan _].
    unfold matches, invoke in Hnan. rewrite run_is in Hnan. done.
Qed.

Lemma literal_matches_itself_witness :
  literal (RArr [RStr "and"; RArr [RStr "=="; RNum 1]]) = true
  /\ run (match_ (RArr [RStr "and"; RArr [RStr "=="; RNum 1]]))
       (VArr [VStr "and"; VArr [VStr "=="; VNum 1]]) ∅
     = (Matched, ∅).
Proof.
  split; [reflexivity|].
  exact (proj1 (literal_matches_itself
                  (RArr [RStr "and"; RArr [RStr "=="; RNum 1]])
                  _ ∅ eq_refl) eq_refl).
Defined.

(** ** Capturing between a fixed start and a fixed end *)

Lemma fold_elems_any xs j : fold_elems any xs j = j.
Proof. revert j. induction xs as [|e xs IH]; intros j; simpl; [done | apply IH]. Qed.

Lemma run_greedy_any s j :
  run (greedy RUndef None None) (VArr s) j = (Matched, j).
Proof.
  rewrite (run_greedy RUndef None None _ (VArr s) j eq_refl).
  pose proof (run_repeat any BFalse BFalse repeat_t None (VArr s) j) as H.
  simpl in H. rewrite repeat_for_all in H.
  - rewrite fold_elems_any in H. injection H as H. exact (eq_sym H).
  - apply Forall_forall. intros e _. reflexivity.
Qed.

Lemma run_named_greedy_any label s j :
  run (name label (RPat (greedy RUndef None None))) (VArr s) j
  = (Matched, assign j label (VArr s)).
Proof.
  unfold name. simpl. unfold matchable. simpl.
  rewrite run_name. by rewrite run_greedy_any.
Qed.

Lemma search_tail_fixed post xs i k :
  i <= length xs ->
  search (flush post) xs 0 i k
  = if (remaining xs i <? Z.of_nat (length post))%Z then (NoMatch, k)
    else match fixed_run post xs i 0 k with
         | (Matched, k1) =>
             (if length xs <=? i + length post then Matched else NoMatch, k1)
         | other => other
         end.
Proof.
  intros Hi. rewrite <- (app_nil_r (flush post)), search_flush by done.
  destruct (_ <? _)%Z; [done|].
  destruct (fixed_run post xs i 0 k) as [[] k1]; try done.
  apply search_nil.
Qed.

Section DescendFacts.

Variable validate : list value -> ctx -> res.
Variable remainder : nat -> ctx -> res.
Variable x : list value.
Variable xi : nat.

(** A search that succeeds did so at some length. *)
Lemma descend_Matched_inv n :
  (forall s j1 j2, fst (validate s j1) = fst (validate s j2)) ->
  (forall i j1 j2, fst (remainder i j1) = fst (remainder i j2)) ->
  forall j,
    fst (descend validate remainder x xi n j) = Matched ->
    exists r, r < n /\ attempt validate remainder x xi r.
Proof.
  intros Hv Hr. induction n as [|n IH]; intros j H; [done|].
  simpl in H. unfold attempt.
  pose proof (Hv (slice x xi (xi + n)) j ∅) as Hv'.
  destruct (validate (slice x xi (xi + n)) j) as [ov j1].
  simpl in Hv'. destruct ov; [| |done].
  - pose proof (Hr (xi + n) j1 ∅) as Hr'.
    destruct (remainder (xi + n) j1) as [orr j2].
    simpl in Hr'. destruct orr; [| |done].
    + exists n. split; [lia|]. by rewrite <- Hv', <- Hr'.
    + destruct (IH j2 H) as (r & Hlt & Hok). exists r. split; [lia | done].
  - destruct (IH j1 H) as (r & Hlt & Hok). exists r. split; [lia | done].
Qed.

(** When validation always succeeds, assigning the slice to [label], and
    the remainder fails without a trace above [r0], the search comes down
    to the attempt at [r0] with only that slice assigned. *)
Lemma descend_skip label r0 n :
  (forall s j, validate s j = (Matched, assign j label (VArr s))) ->
  (forall r j, r0 < r < n -> remainder (xi + r) j = (NoMatch, j)) ->
  r0 < n ->
  forall j,
    descend validate remainder x xi n j
    = match remainder (xi + r0)
              (assign j label (VArr (slice x xi (xi + r0)))) with
      | (NoMatch, j2) => descend validate remainder x xi r0 j2
      | other => other
      end.
Proof.
  intros Hv Hr. induction n as [|n IH]; intros Hlt j; [lia|].
  simpl. rewrite Hv.
  destruct (decide (n = r0)) as [->|Hne].
  - by destruct (remainder _ _) as [[] j2].
  - rewrite Hr by lia. rewrite IH; [|intros r k Hrk; apply Hr; lia|lia].
    by rewrite assign_assign_arr.
Qed.

End DescendFacts.

Lemma capture_remainder label post xs i k :
  i <= length xs ->
  search (Rep (capture label) :: flush post) xs (0 + 1) i k
  = if (remaining xs i <? Z.of_nat (length post))%Z then (NoMatch, k)
    else match fixed_run post xs i 0 k with
         | (Matched, k1) =>
             (if length xs <=? i + length post then Matched else NoMatch, k1)
         | other => other
         end.
Proof.
  intros Hi. change (0 + 1) with 1. rewrite search_cons.
  by apply search_tail_fixed.
Qed.

Lemma capture_unfold label pre post xs j :
  non_repeating pre -> non_repeating post ->
  run (lst_of (pre ++ capture label :: post)) (VArr xs) j
  = if length xs <? length pre then (NoMatch, j)
    else match fixed_run pre xs 0 0 j with
         | (Matched, j1) =>
             descend (fun s => run (capture label) (VArr s))
               (search (Rep (capture label) :: flush post) xs (0 + 1))
               xs (length pre) (S (length xs - length pre)) j1
         | other => other
         end.
Proof.
  intros Hpre Hpost. unfold lst_of, matchable. rewrite run_lst.
  rewrite chunkify_fixed_rep, chunkify_fixed by done.
  rewrite search_flush by lia. unfold remaining at 1. rewrite Z.sub_0_r.
  destruct (Nat.ltb_spec (length xs) (length pre)) as [Hlt|Hge].
  { by replace (_ <? _)%Z with true by (symmetry; apply Z.ltb_lt; lia). }
  replace (_ <? _)%Z with false by (symmetry; apply Z.ltb_ge; lia).
  destruct (fixed_run pre xs 0 0 j) as [[] j1]; try done.
  rewrite (search_greedy _ xs 0 (0 + length pre) j1 (capture label))
    by done.
  unfold greedy_spec. f_equal. unfold remaining. simpl. lia.
Qed.

Lemma fixed_run_pre pre xs j :
  length pre <= length xs ->
  fst (fixed_run pre xs 0 0 j) = Matched
  <-> Forall2 matches pre (take (length pre) xs).
Proof.
  intros Hle.
  apply (fixed_run_Matched xs 0 pre 0 j _ (drop (length pre) xs)).
  - simpl. by rewrite take_drop.
  - rewrite length_take. lia.
Qed.

Lemma fixed_run_post post xs j :
  length post <= length xs ->
  fst (fixed_run post xs (length xs - length post) 0 j) = Matched
  <-> Forall2 matches post (drop (length xs - length post) xs).
Proof.
  intros Hle.
  apply (fixed_run_Matched xs _ post 0 j _ []).
  - simpl. by rewrite app_nil_r.
  - rewrite length_drop. lia.
Qed.

Lemma capture_between_inv label pre post xs j :
  non_repeating pre -> non_repeating post ->
  fst (run (lst_of (pre ++ capture label :: post)) (VArr xs) j) = Matched ->
  bracketed pre post xs.
Proof.
  intros Hpre Hpost. rewrite capture_unfold by done.
  destruct (Nat.ltb_spec (length xs) (length pre)) as [Hlt|Hge]; [done|].
  pose proof (fixed_run_pre pre xs j Hge) as Hp.
  destruct (fixed_run pre xs 0 0 j) as [o j1]. simpl in Hp.
  destruct o; [|done|done]. intros H.
  apply descend_Matched_inv in H as (r & Hr & _ & Hrem).
  2:{ intros s k1 k2. apply run_outcome_ctx. }
  2:{ intros i k1 k2. apply search_outcome_ctx. }
  rewrite capture_remainder in Hrem by lia.
  unfold remaining in Hrem.
  destruct (Z.ltb_spec (Z.of_nat (length xs) - Z.of_nat (length pre + r))
              (Z.of_nat (length post))) as [Hlt|Hfit]; [done|].
  destruct (fixed_run post xs (length pre + r) 0 ∅) as [o k1] eqn:Epost.
  destruct o; [|done|done].
  destruct (Nat.leb_spec (length xs) (length pre + r + length post))
    as [Hend|Hend]; [|done].
  assert (Hpos : length pre + r = length xs - length post) by lia.
  split; [lia|]. split; [by apply Hp|].
  rewrite Hpos in Epost.
  apply (fixed_run_post post xs ∅); [lia | by rewrite Epost].
Qed.

Lemma capture_between_run label pre post xs j :
  non_repeating pre -> non_repeating post ->
  bracketed pre post xs ->
  run (lst_of (pre ++ capture label :: post)) (VArr xs) j
  = (Matched,
     snd (fixed_run post xs (length xs - length post) 0
            (assign (snd (fixed_run pre xs 0 0 j)) label
               (VArr (between (length pre) (length post) xs))))).
Proof.
  intros Hpre Hpost (Hlen & Hp & Hq). rewrite capture_unfold by done.
  replace (length xs <? length pre) with false
    by (symmetry; apply Nat.ltb_ge; lia).
  apply (fixed_run_pre pre xs j) in Hp; [|lia].
  destruct (fixed_run pre xs 0 0 j) as [o j1]. simpl in Hp. subst o. simpl snd.
  rewrite (descend_skip _ _ xs (length pre) label
             (length xs - length pre - length post)).
  - replace (length pre + (length xs - length pre - length post))
      with (length xs - length post) by lia.
    rewrite capture_remainder by lia. unfold remaining.
    replace (_ <? _)%Z with false by (symmetry; apply Z.ltb_ge; lia).
    unfold slice, between.
    replace (length xs - length post - length pre)
      with (length xs - length pre - length post) by lia.
    set (j2 := assign j1 label _).
    apply (fixed_run_post post xs j2) in Hq; [|lia].
    destruct (fixed_run post xs (length xs - length post) 0 j2) as [o k1].
    simpl in Hq. subst o.
    by replace (length xs <=? length xs - length post + length post)
      with true by (symmetry; apply Nat.leb_le; lia).
  - intros s k. apply run_named_greedy_any.
  - intros r k Hr. rewrite capture_remainder by lia. unfold remaining.
    by replace (_ <? _)%Z with true by (symmetry; apply Z.ltb_lt; lia).
  - lia.
Qed.

(** X5. [[...pre, name(label, greedy()), ...post]] with fixed [pre] and
    [post] matches exactly the arrays that start with elements matching
    [pre] and end with elements matching [post]; and when [pre] and [post]
    write no bindings, the match returns the context after the one
    assignment [j[label] = middle] of the elements in between: they are
    bound under [label], and nothing else is, for every label but
    [__proto__], under which the middle becomes the prototype of the
    context as long as the setter is in reach. *)
Theorem capture_between label pre post xs j
    (Hpre : non_repeating pre) (Hpost : non_repeating post) :
  let p := lst_of (pre ++ capture label :: post) in
  let middle := VArr (between (length pre) (length post) xs) in
  (fst (run p (VArr xs) j) = Matched <-> bracketed pre post xs)
  /\ (Forall silent pre -> Forall silent post -> bracketed pre post xs ->
      run p (VArr xs) j = (Matched, assign j label middle)
      /\ (label <> "__proto__" ->
          run p (VArr xs) j = (Matched, <[Own label := middle]> j))
      /\ (label = "__proto__" -> direct j = false ->
          run p (VArr xs) j = (Matched, <[Proto := middle]> j))).
Proof.
  intros p middle. split.
  - split; [by apply capture_between_inv|].
    intros H. unfold p. by rewrite capture_between_run.
  - intros Hs1 Hs2 H.
    assert (Hrun : run p (VArr xs) j = (Matched, assign j label middle)).
    { unfold p. rewrite capture_between_run by done.
      by rewrite !fixed_run_silent. }
    split; [exact Hrun|]. split.
    + intros Hl. by rewrite Hrun, assign_ordinary.
    + intros -> Hd. by rewrite Hrun, assign_proto, Hd.
Qed.

Lemma capture_between_witness :
  non_repeating [is_ (VNum 1)] /\ non_repeating [is_ (VNum 2)]
  /\ bracketed [is_ (VNum 1)] [is_ (VNum 2)] (map VNum [1; 3; 4; 2]%Z)
  /\ run (lst_of ([is_ (VNum 1)] ++ capture "A" :: [is_ (VNum 2)]))
       (nums [1; 3; 4; 2]%Z) ∅
     = (Matched, {[ Own "A" := nums [3; 4]%Z ]}).
Proof.
  assert (H1 : non_repeating [is_ (VNum 1)]) by (by repeat constructor).
  assert (H2 : non_repeating [is_ (VNum 2)]) by (by repeat constructor).
  assert (Hb : bracketed [is_ (VNum 1)] [is_ (VNum 2)]
                 (map VNum [1; 3; 4; 2]%Z)).
  { split; [simpl; lia|]. split; repeat constructor. }
  split; [exact H1|]. split; [exact H2|]. split; [exact Hb|].
  refine (proj1 (proj2 (capture_between "A" _ _ (map VNum [1; 3; 4; 2]%Z) ∅
                          H1 H2) _ _ Hb)).
  - repeat constructor. apply silent_is.
  - repeat constructor. apply silent_is.
Defined.

(** ** The lazy search *)

Section Ascend.

Variable validate : list value -> ctx -> res.
Variable remainder : nat -> ctx -> res.
Variable x : list value.
Variable xi : nat.
Hypothesis validate_blind :
  forall s j1 j2, fst (validate s j1) = fst (validate s j2).
Hypothesis remainder_blind :
  forall i j1 j2, fst (remainder i j1) = fst (remainder i j2).

Lemma ascend_Matched_inv n :
  forall r0 j,
    fst (ascend validate remainder x xi n r0 j) = Matched ->
    exists r, r0 <= r < r0 + n /\ attempt validate remainder x xi r.
Proof.
  induction n as [|n IH]; intros r0 j H; [done|].
  simpl in H. unfold attempt.
  pose proof (validate_blind (slice x xi (xi + r0)) j ∅) as Hv'.
  destruct (validate (slice x xi (xi + r0)) j) as [ov j1].
  simpl in Hv'. destruct ov; [| |done].
  - pose proof (remainder_blind (xi + r0) j1 ∅) as Hr'.
    destruct (remainder (xi + r0) j1) as [orr j2].
    simpl in Hr'. destruct orr; [| |done].
    + exists r0. split; [lia|]. by rewrite <- Hv', <- Hr'.
    + destruct (IH (S r0) j2 H) as (r & Hlt & Hok).
      exists r. split; [lia | done].
  - destruct (IH (S r0) j1 H) as (r & Hlt & Hok).
    exists r. split; [lia | done].
Qed.

Hypothesis validate_sound : forall s j, fst (validate s j) <> TypeError.
Hypothesis remainder_sound : forall i j, fst (remainder i j) <> TypeError.

Lemma ascend_step n r j :
  (attempt validate remainder x xi r
   /\ ascend validate remainder x xi (S n) r j
      = (Matched,
         snd (remainder (xi + r) (snd (validate (slice x xi (xi + r)) j)))))
  \/ (~ attempt validate remainder x xi r
      /\ exists j', ascend validate remainder x xi (S n) r j
                    = ascend validate remainder x xi n (S r) j').
Proof.
  unfold attempt. simpl.
  pose proof (validate_blind (slice x xi (xi + r)) j ∅) as Hv.
  pose proof (validate_sound (slice x xi (xi + r)) j) as Hvs.
  destruct (validate (slice x xi (xi + r)) j) as [ov j1].
  cbn [fst snd] in *. rewrite <- Hv.
  destruct ov; [| right; split; [intros [? _]; done | eauto] | done].
  pose proof (remainder_blind (xi + r) j1 ∅) as Hr.
  pose proof (remainder_sound (xi + r) j1) as Hrs.
  destruct (remainder (xi + r) j1) as [orr j2].
  cbn [fst snd] in *. rewrite <- Hr.
  destruct orr; [by left | right; split; [intros [_ ?]; done | eauto] | done].
Qed.

Lemma ascend_Matched n :
  forall r0 j,
    fst (ascend validate remainder x xi n r0 j) = Matched
    <-> exists r, r0 <= r < r0 + n /\ attempt validate remainder x xi r.
Proof.
  induction n as [|n IH]; intros r0 j.
  - simpl. split; [done | intros (r & Hr & _); lia].
  - destruct (ascend_step n r0 j) as [[Hok ->] | [Hno [j' ->]]].
    + simpl. split; [|done]. intros _. exists r0. split; [lia | done].
    + rewrite IH. split; intros (r & Hr & Hok).
      * exists r. split; [lia | done].
      * exists r. split; [|done].
        destruct (decide (r = r0)) as [->|]; [done | lia].
Qed.

Lemma ascend_NoMatch n r0 j :
  fst (ascend validate remainder x xi n r0 j) = NoMatch
  <-> ~ exists r, r0 <= r < r0 + n /\ attempt validate remainder x xi r.
Proof.
  rewrite <- (ascend_Matched n r0 j).
  assert (Hs : fst (ascend validate remainder x xi n r0 j) <> TypeError).
  { revert r0 j. induction n as [|n IH]; intros r0 j; [done|].
    destruct (ascend_step n r0 j) as [[_ ->] | [_ [j' ->]]]; [done | apply IH]. }
  destruct (fst (ascend validate remainder x xi n r0 j)); split; congruence.
Qed.

(** The smallest length whose attempt succeeds is the one that wins. *)
Lemma ascend_smallest n :
  forall r0 r,
    r0 <= r < r0 + n -> attempt validate remainder x xi r ->
    (forall r', r0 <= r' < r -> ~ attempt validate remainder x xi r') ->
    forall j, exists j0,
      ascend validate remainder x xi n r0 j
      = (Matched,
         snd (remainder (xi + r) (snd (validate (slice x xi (xi + r)) j0)))).
Proof.
  induction n as [|n IH]; intros r0 r Hr Hok Hmin j; [lia|].
  destruct (ascend_step n r0 j) as [[Hn ->] | [Hno [j' ->]]].
  - destruct (decide (r = r0)) as [->|Hne]; [by exists j|].
    destruct (Hmin r0); [lia | done].
  - apply IH; [|done|].
    + destruct (decide (r = r0)) as [->|]; [done | lia].
    + intros r' Hr'. apply Hmin. lia.
Qed.

End Ascend.

(** X6. At a lazy chunk [submatch] tries the lengths [0, 1, ...] up to the
    length of the whole array, whatever the cursor: it validates the slice
    with the chunk, then runs the chunks behind it. With well-formed chunks
    it succeeds exactly when one of these lengths does, with the smallest
    of them, and fails exactly when none does. *)
Theorem lazy_chunk_search chunks x ci xi e j
    (Hchunk : chunks !! ci = Some (Rep e))
    (Hlazy : type_of e = lazy_t) :
  (forall fuel, length chunks - ci < fuel ->
     submatch run_call chunks x fuel ci xi j
     = Some (lazy_spec e chunks x ci xi j))
  /\ (forallb well_formed_chunk chunks = true ->
      (fst (search chunks x ci xi j) = Matched
       <-> exists r, r <= length x /\ consumes e chunks x ci xi r)
      /\ (fst (search chunks x ci xi j) = NoMatch
          <-> ~ exists r, r <= length x /\ consumes e chunks x ci xi r)
      /\ (forall r,
            r <= length x -> consumes e chunks x ci xi r ->
            (forall r', r' < r -> ~ consumes e chunks x ci xi r') ->
            exists j0,
              search chunks x ci xi j
              = (Matched,
                 snd (search chunks x (ci + 1) (xi + r)
                        (snd (run e (VArr (slice x xi (xi + r))) j0)))))).
Proof.
  pose proof (search_lazy chunks x ci xi j e Hchunk Hlazy) as Hsearch.
  split.
  { intros fuel Hfuel. rewrite submatch_search by done. by rewrite Hsearch. }
  intros Hwf. rewrite Hsearch. unfold lazy_spec, consumes.
  assert (He : well_formed e = true).
  { pose proof (forallb_lookup _ _ _ _ Hwf Hchunk) as H. simpl in H.
    by apply andb_prop in H as [? ?]. }
  assert (Hreach : forall r, 0 <= r < 0 + S (length x) <-> r <= length x)
    by (intros r; lia).
  split; [|split].
  - setoid_rewrite <- Hreach. apply ascend_Matched.
    + intros s k1 k2. apply run_outcome_ctx.
    + intros i k1 k2. apply search_outcome_ctx.
    + intros s k. by apply run_well_formed.
    + intros i k. by apply search_well_formed.
  - setoid_rewrite <- Hreach. apply ascend_NoMatch.
    + intros s k1 k2. apply run_outcome_ctx.
    + intros i k1 k2. apply search_outcome_ctx.
    + intros s k. by apply run_well_formed.
    + intros i k. by apply search_well_formed.
  - intros r Hr Hok Hmin. apply ascend_smallest; try done.
    + intros s k1 k2. apply run_outcome_ctx.
    + intros i k1 k2. apply search_outcome_ctx.
    + intros s k. by apply run_well_formed.
    + intros i k. by apply search_well_formed.
    + lia.
    + intros r' Hr'. apply Hmin. lia.
Qed.

Lemma lazy_chunk_search_witness :
  let e := name "A" (RPat (lazy_ RUndef None None)) in
  let chunks := [Rep e; Fixed [is_ (VNum 2)]] in
  chunks !! 0 = Some (Rep e)
  /\ type_of e = lazy_t
  /\ (forall fuel, length chunks - 0 < fuel ->
        submatch run_call chunks [VNum 1; VNum 2] fuel 0 0 ∅
        = Some (lazy_spec e chunks [VNum 1; VNum 2] 0 0 ∅)).
Proof.
  intros e chunks. split; [reflexivity|]. split; [reflexivity|].
  exact (proj1 (lazy_chunk_search chunks [VNum 1; VNum 2] 0 0 e ∅
                  eq_refl eq_refl)).
Defined.

(** ** Lengths past the end *)

Lemma tag_eqb_eq a b : tag_eqb a b = true <-> a = b.
Proof. destruct a, b; simpl; split; congruence. Qed.

Lemma slice_past_end (x : list value) xi r :
  length x <= xi -> slice x xi (xi + r) = [].
Proof. intros H. unfold slice. by rewrite drop_ge, take_nil. Qed.

Lemma search_stray chunks x ci xi j e :
  chunks !! ci = Some (Rep e) ->
  tag_eqb (type_of e) greedy_t = false -> tag_eqb (type_of e) lazy_t = false ->
  search chunks x ci xi j
  = (if (remaining x xi <? 2)%Z then NoMatch else TypeError, j).
Proof.
  intros Hc Hg Hl.
  assert (Hci : ci < length chunks) by (by eapply lookup_lt_Some).
  pose proof (search_step chunks x ci xi j) as H. cbn [submatch] in H.
  replace (length chunks <=? ci) with false in H
    by (symmetry; apply Nat.leb_gt; lia).
  cbn [andb] in H. rewrite Hc, Hg, Hl in H. fold (remaining x xi) in H.
  destruct (remaining x xi <? 2)%Z; by injection H as <-.
Qed.

(** With the cursor past the end, a search that succeeds also succeeds
    with the cursor at the end. *)
Lemma search_past_end chunks x n :
  forall ci xi,
    length chunks - ci <= n -> length x <= xi ->
    fst (search chunks x ci xi ∅) = Matched ->
    fst (search chunks x ci (length x) ∅) = Matched.
Proof.
  induction n as [|n IH]; intros ci xi Hn Hxi H.
  { rewrite search_end in H |- * by lia.
    by replace (length x <=? length x) with true
      by (symmetry; by apply Nat.leb_le). }
  destruct (decide (xi = length x)) as [->|Hne]; [done|].
  destruct (chunks !! ci) as [[fx|e]|] eqn:Hc.
  - rewrite (search_fixed chunks x ci xi ∅ fx Hc) in H.
    replace (_ <? _)%Z with true in H
      by (symmetry; apply Z.ltb_lt; unfold remaining; lia).
    done.
  - destruct (tag_eqb (type_of e) greedy_t) eqn:Hg.
    { apply tag_eqb_eq in Hg.
      rewrite (search_greedy chunks x ci xi ∅ e Hc Hg) in H.
      unfold greedy_spec in H.
      replace (Z.to_nat (remaining x xi + 1)) with 0 in H
        by (unfold remaining; lia).
      done. }
    destruct (tag_eqb (type_of e) lazy_t) eqn:Hl.
    2:{ rewrite (search_stray chunks x ci xi ∅ e Hc Hg Hl) in H.
        replace (_ <? _)%Z with true in H
          by (symmetry; apply Z.ltb_lt; unfold remaining; lia).
        done. }
    apply tag_eqb_eq in Hl.
    rewrite (search_lazy chunks x ci xi ∅ e Hc Hl) in H.
    apply ascend_Matched_inv in H as (r & _ & Hv & Hr).
    2:{ intros s k1 k2. apply run_outcome_ctx. }
    2:{ intros i k1 k2. apply search_outcome_ctx. }
    rewrite slice_past_end in Hv by done.
    apply IH in Hr; [|apply lookup_lt_Some in Hc; lia | lia].
    rewrite (search_lazy chunks x ci (length x) ∅ e Hc Hl).
    unfold lazy_spec. cbn [ascend].
    rewrite slice_past_end by done.
    destruct (run e (VArr []) ∅) as [ov j1]. simpl in Hv. subst ov.
    rewrite Nat.add_0_r.
    rewrite (search_outcome_ctx chunks x (ci + 1) (length x) ∅ j1) in Hr.
    destruct (search chunks x (ci + 1) (length x) j1) as [orr j2].
    simpl in Hr. by subst orr.
  - apply lookup_ge_None in Hc.
    rewrite search_end in H |- * by lia.
    by replace (length x <=? length x) with true
      by (symmetry; by apply Nat.leb_le).
Qed.

Lemma consumes_overshoot e chunks x ci xi r :
  xi <= length x -> length x <= xi + r ->
  consumes e chunks x ci xi r ->
  consumes e chunks x ci xi (length x - xi).
Proof.
  intros Hxi Hover [Hv Hr]. split.
  - replace (slice x xi (xi + (length x - xi))) with (slice x xi (xi + r));
      [done|].
    unfold slice. rewrite !take_ge; [done | |]; rewrite length_drop; lia.
  - replace (xi + (length x - xi)) with (length x) by lia.
    by apply (search_past_end chunks x (length chunks) (ci + 1) (xi + r));
      [lia | lia |].
Qed.

Lemma search_lazy_Matched chunks x ci xi e j :
  chunks !! ci = Some (Rep e) -> type_of e = lazy_t ->
  forallb well_formed_chunk chunks = true ->
  fst (search chunks x ci xi j) = Matched
  <-> exists r, r <= length x /\ consumes e chunks x ci xi r.
Proof.
  intros Hc Hl Hwf. rewrite (search_lazy chunks x ci xi j e Hc Hl).
  unfold lazy_spec, consumes.
  assert (He : well_formed e = true).
  { pose proof (forallb_lookup _ _ _ _ Hwf Hc) as H. simpl in H.
    by apply andb_prop in H as [? ?]. }
  rewrite ascend_Matched.
  - split; intros (r & Hr & Hok); exists r; (split; [lia | done]).
  - intros s k1 k2. apply run_outcome_ctx.
  - intros i k1 k2. apply search_outcome_ctx.
  - intros s k. by apply run_well_formed.
  - intros i k. by apply search_well_formed.
Qed.

(** X7. The lazy loop runs up to the length of the whole array, so behind
    a cursor [xi > 0] it also tries lengths that reach past the end. They
    add nothing: such a length gives the slice that ends at the end, and if
    the chunks behind succeed from a cursor past the end they succeed from
    the end. So a lazy chunk succeeds exactly when a length that fits the
    array does. *)
Theorem lazy_overshoot_harmless chunks x ci xi e j
    (Hchunk : chunks !! ci = Some (Rep e))
    (Hlazy : type_of e = lazy_t)
    (Hxi : xi <= length x) :
  (forall r, length x <= xi + r ->
     slice x xi (xi + r) = drop xi x
     /\ (consumes e chunks x ci xi r ->
         consumes e chunks x ci xi (length x - xi)))
  /\ (forallb well_formed_chunk chunks = true ->
      fst (search chunks x ci xi j) = Matched
      <-> exists r, xi + r <= length x /\ consumes e chunks x ci xi r).
Proof.
  split.
  - intros r Hover. split; [|by apply consumes_overshoot].
    unfold slice. rewrite take_ge; [done|]. rewrite length_drop. lia.
  - intros Hwf. rewrite (search_lazy_Matched chunks x ci xi e j) by done.
    split; intros (r & Hr & Hok).
    + destruct (Nat.le_gt_cases (xi + r) (length x)) as [Hfit|Hover].
      * by exists r.
      * exists (length x - xi). split; [lia|].
        apply (consumes_overshoot e chunks x ci xi r); [done | lia | done].
    + exists r. split; [lia | done].
Qed.

Lemma lazy_overshoot_harmless_witness :
  let e := lazy_ RUndef None None in
  let chunks := [Fixed [is_ (VNum 1)]; Rep e] in
  chunks !! 1 = Some (Rep e) /\ type_of e = lazy_t /\ 1 <= length [VNum 1; VNum 7]
  /\ forall r, length [VNum 1; VNum 7] <= 1 + r ->
       slice [VNum 1; VNum 7] 1 (1 + r) = drop 1 [VNum 1; VNum 7]
       /\ (consumes e chunks [VNum 1; VNum 7] 1 1 r ->
           consumes e chunks [VNum 1; VNum 7] 1 1
             (length [VNum 1; VNum 7] - 1)).
Proof.
  intros e chunks. split; [reflexivity|]. split; [reflexivity|].
  split; [simpl; lia|].
  exact (proj1 (lazy_overshoot_harmless chunks [VNum 1; VNum 7] 1 1 e ∅
                  eq_refl eq_refl (le_S _ _ (le_n 1)))).
Defined.

(** ** Greedy and lazy accept the same arrays *)

Lemma search_greedy_Matched chunks x ci xi e j :
  chunks !! ci = Some (Rep e) -> type_of e = greedy_t ->
  forallb well_formed_chunk chunks = true ->
  fst (search chunks x ci xi j) = Matched
  <-> exists r, xi + r <= length x /\ consumes e chunks x ci xi r.
Proof.
  intros Hc Hg Hwf. rewrite (search_greedy chunks x ci xi j e Hc Hg).
  unfold greedy_spec, consumes.
  assert (He : well_formed e = true).
  { pose proof (forallb_lookup _ _ _ _ Hwf Hc) as H. simpl in H.
    by apply andb_prop in H as [? ?]. }
  rewrite descend_Matched.
  - unfold remaining.
    split; intros (r & Hr & Hok); exists r; (split; [lia | done]).
  - intros s k1 k2. apply run_outcome_ctx.
  - intros i k1 k2. apply search_outcome_ctx.
  - intros s k. by apply run_well_formed.
  - intros i k. by apply search_well_formed.
Qed.

Lemma search_lazy_fit chunks x ci xi e j :
  chunks !! ci = Some (Rep e) -> type_of e = lazy_t ->
  forallb well_formed_chunk chunks = true -> xi <= length x ->
  fst (search chunks x ci xi j) = Matched
  <-> exists r, xi + r <= length x /\ consumes e chunks x ci xi r.
Proof.
  intros Hc Hl Hwf Hxi.
  rewrite (search_lazy_Matched chunks x ci xi e j) by done.
  split; intros (r & Hr & Hok).
  - destruct (Nat.le_gt_cases (xi + r) (length x)) as [Hfit|Hover].
    + by exists r.
    + exists (length x - xi). split; [lia|].
      apply (consumes_overshoot e chunks x ci xi r); [done | lia | done].
  - exists r. split; [lia | done].
Qed.

Lemma search_repeating_Matched chunks x ci xi e j :
  chunks !! ci = Some (Rep e) -> is_repeating e = true ->
  forallb well_formed_chunk chunks = true -> xi <= length x ->
  fst (search chunks x ci xi j) = Matched
  <-> exists r, xi + r <= length x /\ consumes e chunks x ci xi r.
Proof.
  intros Hc Hrep Hwf Hxi. unfold is_repeating in Hrep.
  destruct (tag_eqb (type_of e) greedy_t) eqn:Hg.
  - apply tag_eqb_eq in Hg. by apply search_greedy_Matched.
  - simpl in Hrep. apply tag_eqb_eq in Hrep. by apply search_lazy_fit.
Qed.

Lemma search_alike cs1 cs2 x :
  Forall2 chunk_alike cs1 cs2 ->
  forallb well_formed_chunk cs1 = true ->
  forallb well_formed_chunk cs2 = true ->
  forall n ci xi,
    length cs1 - ci <= n -> xi <= length x ->
    fst (search cs1 x ci xi ∅) = Matched
    <-> fst (search cs2 x ci xi ∅) = Matched.
Proof.
  intros Hcs Hwf1 Hwf2.
  pose proof (Forall2_length _ _ _ Hcs) as Hlen.
  induction n as [|n IH]; intros ci xi Hn Hxi.
  { rewrite !search_end by lia. done. }
  destruct (cs1 !! ci) as [c1|] eqn:Hc1.
  2:{ apply lookup_ge_None in Hc1. rewrite !search_end by lia. done. }
  destruct (Forall2_lookup_l _ _ _ _ _ Hcs Hc1) as (c2 & Hc2 & Hal).
  assert (Hci : ci < length cs1) by (by eapply lookup_lt_Some).
  destruct c1 as [fx1|e1], c2 as [fx2|e2]; simpl in Hal; try done.
  - subst fx2. rewrite (search_fixed cs1 x ci xi ∅ fx1 Hc1).
    rewrite (search_fixed cs2 x ci xi ∅ fx1 Hc2).
    destruct (Z.ltb_spec (remaining x xi) (Z.of_nat (length fx1)))
      as [Hlt|Hfit]; [done|].
    destruct (fixed_run fx1 x xi 0 ∅) as [[] j1]; try done.
    rewrite (search_outcome_ctx cs1 x (ci + 1) _ j1 ∅).
    rewrite (search_outcome_ctx cs2 x (ci + 1) _ j1 ∅).
    apply IH; [lia | unfold remaining in Hfit; lia].
  - destruct Hal as (Hr1 & Hr2 & Hout).
    rewrite (search_repeating_Matched cs1 x ci xi e1 ∅) by done.
    rewrite (search_repeating_Matched cs2 x ci xi e2 ∅) by done.
    assert (Hcons : forall r, xi + r <= length x ->
              consumes e1 cs1 x ci xi r <-> consumes e2 cs2 x ci xi r).
    { intros r Hr. unfold consumes, attempt. rewrite Hout.
      rewrite (IH (ci + 1) (xi + r)) by lia. done. }
    split; intros (r & Hr & Hok); exists r; (split; [done|]);
      by apply (Hcons r Hr).
Qed.

Lemma chunks_of_alike ps1 ps2 :
  Forall2 alike ps1 ps2 ->
  Forall2 chunk_alike (chunks_of is_repeating ps1)
    (chunks_of is_repeating ps2).
Proof.
  induction 1 as [|p1 p2 ps1 ps2 Hp _ IH]; simpl; [constructor|].
  destruct Hp as [<- | (H1 & H2 & Hout)].
  - destruct (is_repeating p1) eqn:Hrep.
    + constructor; [|done]. simpl. auto.
    + destruct IH as [|c1 c2 cs1 cs2 Hc Hcs].
      * by repeat constructor.
      * destruct c1 as [fx1|e1], c2 as [fx2|e2]; simpl in Hc; try done.
        -- subst fx2. by constructor.
        -- constructor; [done|]. by constructor.
  - rewrite H1, H2. constructor; [|done]. simpl. auto.
Qed.

Lemma alike_greedy_lazy p min max : alike (greedy p min max) (lazy_ p min max).
Proof.
  right. split; [done|]. split; [done|]. intros s.
  unfold greedy, lazy_, matchable.
  destruct (repeat_ p min max) as [rep|err]; simpl callee.
  - by rewrite !run_pat_fn.
  - reflexivity.
Qed.

Lemma alike_name label q1 q2 :
  alike q1 q2 -> alike (name label (RPat q1)) (name label (RPat q2)).
Proof.
  intros [<- | (H1 & H2 & Hout)]; [by left|].
  right. split; [exact H1|]. split; [exact H2|]. intros s.
  unfold name. simpl. unfold matchable. simpl. rewrite !run_name.
  specialize (Hout s).
  destruct (run q1 (VArr s) ∅) as [[] k1], (run q2 (VArr s) ∅) as [[] k2];
    simpl in *; done.
Qed.

(** X8. Greedy and lazy decide which bindings a match returns, never
    whether it matches: two well-formed sequences that differ only in
    repetitions validating the same slices match the same candidates. A
    [greedy] and the [lazy] of the same arguments are such repetitions,
    also under the same name. *)
Theorem greedy_lazy_same_candidates ps1 ps2 x j
    (Halike : Forall2 alike ps1 ps2)
    (Hwf1 : forallb well_formed ps1 = true)
    (Hwf2 : forallb well_formed ps2 = true) :
  (fst (run (lst_of ps1) x j) = Matched
   <-> fst (run (lst_of ps2) x j) = Matched)
  /\ (forall p min max, alike (greedy p min max) (lazy_ p min max))
  /\ (forall label q1 q2,
        alike q1 q2 -> alike (name label (RPat q1)) (name label (RPat q2))).
Proof.
  split; [|split; [apply alike_greedy_lazy | apply alike_name]].
  unfold lst_of, matchable.
  destruct (match x with VArr xs => Some xs | _ => None end) as [xs|] eqn:Ex.
  2:{ assert (Hx : forall xs, x <> VArr xs) by (intros xs ->; done).
      by rewrite !run_lst_not_array. }
  assert (x = VArr xs) as -> by (destruct x; by inversion Ex). clear Ex.
  rewrite !run_lst.
  rewrite (search_outcome_ctx _ xs 0 0 j ∅).
  rewrite (search_outcome_ctx (chunkify ps2 _) xs 0 0 j ∅).
  apply (search_alike _ _ xs) with (n := length (chunkify ps1 is_repeating)).
  - rewrite !chunkify_chunks_of. by apply chunks_of_alike.
  - by apply chunkify_for_well_formed.
  - by apply chunkify_for_well_formed.
  - lia.
  - lia.
Qed.

Lemma greedy_lazy_same_candidates_witness :
  let ps1 := [name "A" (RPat (greedy RUndef None None)); is_ (VNum 2)] in
  let ps2 := [name "A" (RPat (lazy_ RUndef None None)); is_ (VNum 2)] in
  Forall2 alike ps1 ps2
  /\ forallb well_formed ps1 = true /\ forallb well_formed ps2 = true
  /\ (fst (run (lst_of ps1) (nums [2; 1; 2]%Z) ∅) = Matched
      <-> fst (run (lst_of ps2) (nums [2; 1; 2]%Z) ∅) = Matched).
Proof.
  intros ps1 ps2.
  assert (H : Forall2 alike ps1 ps2).
  { constructor; [apply alike_name, alike_greedy_lazy|].
    constructor; [by left | constructor]. }
  split; [exact H|]. split; [reflexivity|]. split; [reflexivity|].
  exact (proj1 (greedy_lazy_same_candidates ps1 ps2 (nums [2; 1; 2]%Z) ∅
                  H eq_refl eq_refl)).
Defined.

(** ** Alternation *)

Lemma rejects_run q x j : rejects q x <-> fst (run q x j) = NoMatch.
Proof. unfold rejects, invoke. by rewrite (run_outcome_ctx q x ∅ j). Qed.

Lemma or_for_first pre a post x :
  forall j, Forall (fun q => rejects q x) pre -> matches a x ->
    or_for run_call (pre ++ a :: post) x j
    = Some (Matched, snd (run a x (fold_alts pre x j))).
Proof.
  induction pre as [|q pre IH]; intros j Hpre Ha; simpl.
  - unfold run_call. apply (matches_run a x j) in Ha.
    destruct (run a x j) as [o j1]. simpl in Ha. by subst o.
  - apply Forall_cons_1 in Hpre as [Hq Hpre]. unfold run_call at 1.
    apply (rejects_run q x j) in Hq.
    destruct (run q x j) as [o j1]. simpl in Hq. subst o. simpl.
    by apply IH.
Qed.

Lemma or_for_none args x :
  forall j, Forall (fun q => rejects q x) args ->
    or_for run_call args x j = Some (NoMatch, fold_alts args x j).
Proof.
  induction args as [|q args IH]; intros j H; [done|].
  apply Forall_cons_1 in H as [Hq Hargs]. simpl. unfold run_call at 1.
  apply (rejects_run q x j) in Hq.
  destruct (run q x j) as [o j1]. simpl in Hq. subst o. simpl.
  by apply IH.
Qed.

Lemma or_for_Matched_inv args x :
  forall j j', or_for run_call args x j = Some (Matched, j') ->
    Exists (fun q => matches q x) args.
Proof.
  induction args as [|q args IH]; intros j j' H; [done|].
  simpl in H. unfold run_call at 1 in H.
  destruct (run q x j) as [o j1] eqn:E. destruct o; simpl in H; [| |done].
  - left. apply (matches_run q x j). by rewrite E.
  - right. by eapply IH.
Qed.

Lemma Exists_first {A} (P Q : A -> Prop) (l : list A) :
  (forall a, a ∈ l -> P a \/ Q a) -> Exists P l ->
  exists pre a post, l = pre ++ a :: post /\ Forall Q pre /\ P a.
Proof.
  intros Hdec Hex. induction l as [|b l IH]; [by inversion Hex|].
  destruct (Hdec b) as [Hb|Hb]; [by left| |].
  { exists [], b, l. by repeat split. }
  apply Exists_cons in Hex as [Hb'|Hex].
  { exists [], b, l. by repeat split. }
  destruct IH as (pre & a & post & -> & Hpre & Ha); [|done|].
  { intros a Ha. apply Hdec. by right. }
  exists (b :: pre), a, post. split; [done|]. split; [by constructor | done].
Qed.

(** X9. [or] tries its alternatives in order against the same candidate.
    The first one that matches ends it: the result is the context that
    alternative returns, started from what the rejected ones before it
    left, and the later ones are not tried. If all reject, the answer is
    [false]. With well-formed alternatives [or] matches exactly when one
    of them does. *)
Theorem or_first_match args x j :
  let p := or_ args in
  let alts := map match_ args in
  (forall pre a post,
     alts = pre ++ a :: post ->
     Forall (fun q => rejects q x) pre -> matches a x ->
     run p x j = (Matched, snd (run a x (fold_alts pre x j))))
  /\ (Forall (fun q => rejects q x) alts ->
      run p x j = (NoMatch, fold_alts alts x j))
  /\ (fst (run p x j) = Matched -> Exists (fun q => matches q x) alts)
  /\ (forallb well_formed alts = true ->
      Exists (fun q => matches q x) alts -> fst (run p x j) = Matched).
Proof.
  intros p alts.
  pose proof (run_or alts or_t None x j) as H. fold (matchable (or_fn alts) or_t) in H.
  change (matchable (or_fn alts) or_t) with p in H.
  assert (H1 : forall pre a post,
     alts = pre ++ a :: post ->
     Forall (fun q => rejects q x) pre -> matches a x ->
     run p x j = (Matched, snd (run a x (fold_alts pre x j)))).
  { intros pre a post E Hpre Ha. rewrite E, or_for_first in H by done.
    by injection H as <-. }
  split; [exact H1|]. split; [|split].
  - intros Hall. rewrite or_for_none in H by done. by injection H as <-.
  - intros Hm. destruct (run p x j) as [o j']. simpl in Hm. subst o.
    by eapply or_for_Matched_inv.
  - intros Hwf Hex.
    destruct (Exists_first (fun q => matches q x) (fun q => rejects q x) alts)
      as (pre & a & post & E & Hpre & Ha); [|done|].
    + intros q Hq. unfold matches, rejects.
      assert (Hq' : well_formed q = true).
      { apply list_elem_of_lookup in Hq as [i Hi].
        by eapply forallb_lookup. }
      pose proof (run_well_formed q x ∅ Hq') as Hne. unfold invoke.
      destruct (fst (run q x ∅)); auto. done.
    + by rewrite (H1 pre a post E Hpre Ha).
Qed.

(** ** A context given by the caller *)

Lemma run_over f x (j : ctx) :
  direct j = false ->
  run f x j = (fst (invoke f x), snd (invoke f x) ∪ j)
  /\ direct (snd (run f x j)) = direct (snd (invoke f x)).
Proof.
  intros Hd.
  pose proof (sim_apply
    (fun j1 j2 : ctx => j2 = j1 ∪ j /\ direct (j1 ∪ j) = direct j1)) as H.
  assert (Hins : forall (str : string) (v : value) (j1 j2 : ctx),
            j2 = j1 ∪ j /\ direct (j1 ∪ j) = direct j1 ->
            assign j2 str v = assign j1 str v ∪ j
            /\ direct (assign j1 str v ∪ j) = direct (assign j1 str v)).
  { intros str v j1 j2 [-> Hb]. by apply assign_union. }
  specialize (H Hins (height f) (height f) (le_n _) f x ∅ j).
  rewrite !apply_run in H by done. simpl in H.
  unfold invoke. destruct (run f x ∅) as [o j1].
  destruct H as (j2 & H & -> & Hb2); [by rewrite (left_id_L ∅ (∪))|].
  injection H as ->. by split.
Qed.

(** X10. A predicate never reads the bindings of the context it is given:
    called with a context [j] of the caller it answers as in a top-level
    call, and, when [j] is an object on which [__proto__] reaches the
    setter, as every object written [{...}] without that key is, the
    context it returns is the bindings of the top-level call laid over
    [j]. So entries of [j] under other labels survive, and running the
    predicate again on its own result changes nothing, as long as the
    first run left the setter in reach. Out of reach of the setter the
    label [__proto__] tells the contexts apart: on [Object.create(null)]
    [name('__proto__')] binds what it does not bind on [{}], and
    [[name('__proto__', 5), name('__proto__', null)]] run again on its own
    result binds what the first run did not. *)
Theorem run_frame f x (j : ctx) :
  fst (run f x j) = fst (invoke f x)
  /\ (direct j = false ->
      run f x j = (fst (invoke f x), snd (invoke f x) ∪ j)
      /\ (forall s,
            snd (invoke f x) !! s = None ->
            snd (run f x j) !! s = j !! s)
      /\ (direct (snd (run f x j)) = false ->
          run f x (snd (run f x j)) = run f x j))
  /\ invoke (name "__proto__" RAny) (VNum 5) = (Matched, ∅)
  /\ run (name "__proto__" RAny) (VNum 5) {[ Proto := VNull ]}
     = (Matched, {[ Proto := VNull; Own "__proto__" := VNum 5 ]})
  /\ (let p := lst [RPat (name "__proto__" (RNum 5));
                    RPat (name "__proto__" RNull)] in
      let x := VArr [VNum 5; VNull] in
      invoke p x = (Matched, {[ Proto := VNull ]})
      /\ run p x {[ Proto := VNull ]}
         = (Matched, {[ Proto := VNull; Own "__proto__" := VNull ]})).
Proof.
  split; [apply run_outcome_ctx|]. split.
  { intros Hd. destruct (run_over f x j Hd) as [Hrun Hdir].
    split; [exact Hrun|]. split.
    - intros s Hs. rewrite Hrun. simpl. by rewrite lookup_union_r.
    - intros Hd'.
      rewrite (proj1 (run_over f x (snd (run f x j)) Hd')).
      rewrite Hrun. simpl.
      by rewrite (assoc_L (∪)), (idemp_L (∪)). }
  repeat split; vm_compute; reflexivity.
Qed.

(** ** Only the labels of the pattern are bound *)

Section Labels.

Variable L : list string.

Lemma untouched_refl j : untouched L j j.
Proof. by intros l _. Qed.

Lemma untouched_trans j1 j2 j3 :
  untouched L j1 j2 -> untouched L j2 j3 -> untouched L j1 j3.
Proof. intros H12 H23 l Hl. by rewrite H23, H12. Qed.

Lemma guarded_ret (P : Prop) o j : guarded L P (ret o j) j.
Proof. intros _. apply untouched_refl. Qed.

Lemma guarded_weaken (P P' : Prop) c j :
  (P' -> P) -> guarded L P c j -> guarded L P' c j.
Proof. intros HP. destruct c as [[o j']|]; simpl; auto. Qed.

Lemma guarded_branch (P : Prop) c y n j :
  guarded L P c j ->
  (forall j1, guarded L P (y j1) j1) ->
  (forall j1, guarded L P (n j1) j1) ->
  guarded L P (branch c y n) j.
Proof.
  intros Hc Hy Hn. destruct c as [[o j1]|]; [|done]. simpl in Hc.
  assert (Hk : forall k, guarded L P (k j1) j1 -> guarded L P (k j1) j).
  { intros k Hk. destruct (k j1) as [[o' j2]|]; [|done].
    intros HP. eapply untouched_trans; [by apply Hc | by apply Hk]. }
  destruct o; simpl; [apply Hk, Hy | apply Hk, Hn | exact Hc].
Qed.

Variable call : pat -> value -> ctx -> call_res.
Hypothesis Hcall :
  forall f x j, guarded L (binds_within L f = true) (call f x j) j.

Lemma guarded_call (P : Prop) f x j :
  (P -> binds_within L f = true) -> guarded L P (call f x j) j.
Proof. intros HP. eapply guarded_weaken; [exact HP | apply Hcall]. Qed.

Lemma guarded_or_for args x j :
  guarded L (forallb (binds_within L) args = true) (or_for call args x j) j.
Proof.
  revert j. induction args as [|a args IH]; intros j; cbn [or_for forallb].
  - apply guarded_ret.
  - apply guarded_branch.
    + apply guarded_call. intros H. by apply andb_prop in H as [? ?].
    + intros j1. apply guarded_ret.
    + intros j1. eapply guarded_weaken; [|apply IH].
      intros H. by apply andb_prop in H as [? ?].
Qed.

Lemma guarded_repeat_for p xs j :
  guarded L (binds_within L p = true) (repeat_for call p xs j) j.
Proof.
  revert j. induction xs as [|e xs IH]; intros j; cbn [repeat_for].
  - apply guarded_ret.
  - apply guarded_branch; [by apply guarded_call | exact IH |].
    intros j1. apply guarded_ret.
Qed.

Lemma guarded_repeat_body p lo hi x j :
  guarded L (binds_within L p = true) (repeat_body call p lo hi x j) j.
Proof.
  unfold repeat_body. destruct x; try apply guarded_ret.
  destruct (_ && _); [apply guarded_ret|].
  destruct (_ && _); [apply guarded_ret|].
  apply guarded_repeat_for.
Qed.

Lemma guarded_name_body str p x j :
  guarded L (bool_decide (str ∈ L) && binds_within L p = true)
    (name_body call str p x j) j.
Proof.
  unfold name_body. apply guarded_branch.
  - apply guarded_call. intros H. by apply andb_prop in H as [? ?].
  - intros j1. unfold ret, guarded. intros H s Hs.
    apply andb_prop in H as [H _]. apply bool_decide_eq_true in H.
    apply assign_untouched. intros E. by rewrite E in Hs.
  - intros j1. apply guarded_ret.
Qed.

Section Sequence.

Variable x : list value.
Variable P : Prop.
Variable next : nat -> ctx -> call_res.
Hypothesis Hnext : forall xi j, guarded L P (next xi j) j.

Lemma guarded_greedy_for e xi n j :
  (P -> binds_within L e = true) ->
  guarded L P (greedy_for call x e next xi n j) j.
Proof.
  intros He. revert j. induction n as [|n IH]; intros j; cbn [greedy_for].
  - apply guarded_ret.
  - apply guarded_branch; [by apply guarded_call | | exact IH].
    intros j1. apply guarded_branch; [apply Hnext | | exact IH].
    intros j2. apply guarded_ret.
Qed.

Lemma guarded_lazy_for e xi n replength j :
  (P -> binds_within L e = true) ->
  guarded L P (lazy_for call x e next xi n replength j) j.
Proof.
  intros He. revert replength j.
  induction n as [|n IH]; intros replength j; cbn [lazy_for].
  - apply guarded_ret.
  - apply guarded_branch; [by apply guarded_call | | apply IH].
    intros j1. apply guarded_branch; [apply Hnext | | apply IH].
    intros j2. apply guarded_ret.
Qed.

Lemma guarded_fixed_for fx xi c rest j :
  (P -> forallb (binds_within L) fx = true) ->
  (forall j, guarded L P (rest j) j) ->
  guarded L P (fixed_for call x fx xi c rest j) j.
Proof.
  intros Hfx Hrest. revert c j.
  induction fx as [|e fx IH]; intros c j; cbn [fixed_for].
  - apply Hrest.
  - apply guarded_branch.
    + apply guarded_call. intros HP.
      specialize (Hfx HP). by apply andb_prop in Hfx as [? ?].
    + intros j1. apply IH. intros HP.
      specialize (Hfx HP). by apply andb_prop in Hfx as [? ?].
    + intros j1. apply guarded_ret.
Qed.

End Sequence.

Lemma guarded_submatch chunks x fuel :
  forall ci xi j,
    guarded L (forallb (binds_within_chunk L) chunks = true)
      (submatch call chunks x fuel ci xi j) j.
Proof.
  induction fuel as [|fuel IH]; intros ci xi j; [done|]. cbn [submatch].
  destruct (length chunks <=? ci) eqn:Hci; cbn [andb].
  { destruct (length x <=? xi); apply guarded_ret. }
  destruct (chunks !! ci) as [c|] eqn:Hc; [|apply guarded_ret].
  assert (Hin : forallb (binds_within_chunk L) chunks = true ->
                binds_within_chunk L c = true).
  { intros H. by eapply forallb_lookup. }
  destruct c as [fx|e]; cbn [binds_within_chunk] in Hin.
  - destruct (_ <? _)%Z; [apply guarded_ret|].
    apply guarded_fixed_for; [exact Hin | intros j'; apply IH].
  - destruct (tag_eqb _ greedy_t).
    { apply guarded_greedy_for; [apply IH | exact Hin]. }
    destruct (tag_eqb _ lazy_t).
    { apply guarded_lazy_for; [apply IH | exact Hin]. }
    destruct (_ <? _)%Z; apply guarded_ret.
Qed.

Lemma guarded_apply_body n f x j :
  guarded L (binds_within L f = true) (apply_body call n f x j) j.
Proof.
  destruct f as [p t b].
  destruct p; cbn [apply_body binds_within binds_within_fn].
  - apply guarded_ret.
  - destruct (strict_eq _ _); apply guarded_ret.
  - destruct (String.eqb _ _); apply guarded_ret.
  - destruct (String.eqb _ _); apply guarded_ret.
  - destruct (String.eqb _ _); apply guarded_ret.
  - apply guarded_or_for.
  - apply guarded_name_body.
  - apply guarded_repeat_body.
  - destruct x; try apply guarded_ret. apply guarded_submatch.
  - apply Hcall.
  - apply guarded_ret.
Qed.

End Labels.

Lemma guarded_apply L n :
  forall f x j, guarded L (binds_within L f = true) (apply n f x j) j.
Proof.
  induction n as [|n IH]; intros f x j; [done|]. simpl.
  by apply guarded_apply_body.
Qed.

Lemma run_untouched L f x j :
  binds_within L f = true -> untouched L j (snd (run f x j)).
Proof.
  intros H. pose proof (guarded_apply L (height f) f x j) as Hg.
  rewrite apply_run in Hg by done. simpl in Hg.
  destruct (run f x j) as [o j']. by apply Hg.
Qed.

Lemma binds_within_labels f :
  forall L, (forall l, l ∈ labels f -> l ∈ L) -> binds_within L f = true.
Proof.
  revert f.
  fix IHf 1 with
    (IHp (p : fn) {struct p} :
       forall L, (forall l, l ∈ labels_fn p -> l ∈ L) ->
                 binds_within_fn L p = true)
    (IHc (c : chunk) {struct c} :
       forall L, (forall l, l ∈ labels_chunk c -> l ∈ L) ->
                 binds_within_chunk L c = true).
  - intros [p t b] L H. simpl. apply IHp. exact H.
  - intros p L H.
    destruct p as [| | | | | args | str q | q lo hi | chunks | q | s];
      simpl in *; try reflexivity.
    + induction args as [|a args IHargs]; [reflexivity|]. simpl in *.
      rewrite (IHf a L), IHargs; [reflexivity | |].
      * intros l Hl. apply H, elem_of_app. by right.
      * intros l Hl. apply H, elem_of_app. by left.
    + rewrite (IHf q L).
      * rewrite bool_decide_eq_true_2; [reflexivity|]. apply H. by left.
      * intros l Hl. apply H. by right.
    + by apply IHf.
    + induction chunks as [|c chunks IHchunks]; [reflexivity|]. simpl in *.
      rewrite (IHc c L), IHchunks; [reflexivity | |].
      * intros l Hl. apply H, elem_of_app. by right.
      * intros l Hl. apply H, elem_of_app. by left.
    + by apply IHf.
  - intros c L H. destruct c as [fx|e]; simpl in *.
    + induction fx as [|a fx IHfx]; [reflexivity|]. simpl in *.
      rewrite (IHf a L), IHfx; [reflexivity | |].
      * intros l Hl. apply H, elem_of_app. by right.
      * intros l Hl. apply H, elem_of_app. by left.
    + by apply IHf.
Qed.

(** X11. A call binds nothing but the labels of the [name]s inside the
    pattern: every own property under another name is returned as it was
    given, and so is the prototype unless [__proto__] is one of the labels;
    the result of a top-level call has no other keys, also when the match
    fails or backtracks. *)
Theorem binds_only_its_labels f x (j : ctx) :
  (forall s, slot_label s ∉ labels f -> snd (run f x j) !! s = j !! s)
  /\ (forall l, l ∉ labels f -> snd (run f x j) !! Own l = j !! Own l)
  /\ ("__proto__" ∉ labels f -> snd (run f x j) !! Proto = j !! Proto)
  /\ (forall s, is_Some (snd (invoke f x) !! s) -> slot_label s ∈ labels f).
Proof.
  assert (H : forall k : ctx, untouched (labels f) k (snd (run f x k))).
  { intros k. apply run_untouched. by apply binds_within_labels. }
  split; [apply H|]. split; [intros l Hl; by apply (H j (Own l))|].
  split; [intros Hl; by apply (H j Proto)|].
  intros s [v Hv]. destruct (decide (slot_label s ∈ labels f)) as [|Hn]; [done|].
  unfold invoke in Hv. by rewrite (H ∅ s Hn) in Hv.
Qed.

(** ** One repetition between a fixed start and a fixed end *)

Lemma tail_fixed_Matched post xs i k :
  i <= length xs ->
  fst (search (flush post) xs 0 i k) = Matched
  <-> i + length post = length xs /\ Forall2 matches post (drop i xs).
Proof.
  intros Hi. rewrite search_tail_fixed by done. unfold remaining.
  destruct (Z.ltb_spec (Z.of_nat (length xs) - Z.of_nat i)
              (Z.of_nat (length post))) as [Hlt|Hfit].
  { simpl. split; [done | intros [? _]; lia]. }
  destruct (Nat.leb_spec (length xs) (i + length post)) as [Hend|Hend].
  - assert (Hpos : i = length xs - length post) by lia.
    pose proof (fixed_run_post post xs k) as Hq.
    rewrite <- Hpos in Hq. specialize (Hq ltac:(lia)).
    destruct (fixed_run post xs i 0 k) as [[] k1]; simpl in *.
    + split; [|done]. intros _. split; [lia | by apply Hq].
    + split; [done|]. intros [_ H]. by apply Hq in H.
    + split; [done|]. intros [_ H]. by apply Hq in H.
  - assert (Hne : fst (match fixed_run post xs i 0 k with
                       | (Matched, k1) => (NoMatch, k1)
                       | other => other
                       end) <> Matched).
    { by destruct (fixed_run post xs i 0 k) as [[] k1]. }
    split; [done | intros [? _]; lia].
Qed.

Lemma forallb_app_true {A} (f : A -> bool) (l1 l2 : list A) :
  forallb f (l1 ++ l2) = true ->
  forallb f l1 = true /\ forallb f l2 = true.
Proof. rewrite forallb_app. apply andb_prop. Qed.

(** X12. A well-formed sequence with one repetition between fixed
    elements, [[...pre, e, ...post]], matches exactly the arrays that start
    with [pre], end with [post] and whose part in between is valid for
    [e]; this holds for [greedy] and [lazy] alike, named or bounded. *)
Theorem single_repetition pre e post xs j
    (Hpre : non_repeating pre) (Hpost : non_repeating post)
    (He : is_repeating e = true)
    (Hwf : forallb well_formed (pre ++ e :: post) = true) :
  fst (run (lst_of (pre ++ e :: post)) (VArr xs) j) = Matched
  <-> bracketed pre post xs
      /\ matches e (VArr (between (length pre) (length post) xs)).
Proof.
  unfold lst_of, matchable. rewrite run_lst.
  assert (Hwfc : forallb well_formed_chunk
                   (chunkify (pre ++ e :: post) is_repeating) = true)
    by (by apply chunkify_for_well_formed).
  rewrite chunkify_fixed_rep, chunkify_fixed in Hwfc |- * by done.
  apply forallb_app_true in Hwfc as [_ Hwfc].
  rewrite search_flush by lia. unfold remaining at 1. rewrite Z.sub_0_r.
  unfold bracketed.
  destruct (Nat.ltb_spec (length xs) (length pre)) as [Hlt|Hge].
  { replace (_ <? _)%Z with true by (symmetry; apply Z.ltb_lt; lia).
    simpl. split; [done | intros [[? _] _]; lia]. }
  replace (_ <? _)%Z with false by (symmetry; apply Z.ltb_ge; lia).
  pose proof (fixed_run_pre pre xs j Hge) as Hp.
  destruct (fixed_run pre xs 0 0 j) as [o j1]. simpl in Hp.
  destruct o;
    [| split; [done | intros [(_ & H & _) _]; by apply Hp in H]
     | split; [done | intros [(_ & H & _) _]; by apply Hp in H]].
  rewrite (search_repeating_Matched _ xs 0 (0 + length pre) e j1)
    by (done || simpl; lia).
  simpl (0 + length pre). unfold consumes, attempt.
  split.
  - intros (r & Hr & Hv & Hrem).
    change (0 + 1) with 1 in Hrem. rewrite search_cons in Hrem.
    apply tail_fixed_Matched in Hrem as [Hpos Hq]; [|lia].
    assert (Hr0 : r = length xs - length pre - length post) by lia.
    split; [split; [lia | split; [by apply Hp|]]|].
    + by replace (length xs - length post) with (length pre + r) by lia.
    + unfold matches, invoke, between. rewrite <- Hr0.
      unfold slice in Hv. by replace (length pre + r - length pre) with r
        in Hv by lia.
  - intros [(Hlen & _ & Hq) Hv].
    exists (length xs - length pre - length post). split; [lia|]. split.
    + unfold slice.
      by replace (length pre + (length xs - length pre - length post)
                  - length pre)
        with (length xs - length pre - length post) by lia.
    + change (0 + 1) with 1. rewrite search_cons.
      apply tail_fixed_Matched; [lia|]. split; [lia|].
      by replace (length pre + (length xs - length pre - length post))
        with (length xs - length post) by lia.
Qed.

Lemma single_repetition_witness :
  let pre := [is_ (VStr "a")] in
  let e := lazy_ (RStr "b") (Some 0%Z) (Some 1%Z) in
  let post := [is_ (VStr "c")] in
  non_repeating pre /\ non_repeating post /\ is_repeating e = true
  /\ forallb well_formed (pre ++ e :: post) = true
  /\ (fst (run (lst_of (pre ++ e :: post))
             (VArr [VStr "a"; VStr "b"; VStr "c"]) ∅) = Matched
      <-> bracketed pre post [VStr "a"; VStr "b"; VStr "c"]
          /\ matches e
               (VArr (between (length pre) (length post)
                        [VStr "a"; VStr "b"; VStr "c"]))).
Proof.
  intros pre e post.
  assert (H1 : non_repeating pre) by (by repeat constructor).
  assert (H2 : non_repeating post) by (by repeat constructor).
  split; [exact H1|]. split; [exact H2|]. split; [reflexivity|].
  split; [reflexivity|].
  exact (single_repetition pre e post [VStr "a"; VStr "b"; VStr "c"] ∅
           H1 H2 eq_refl eq_refl).
Defined.

(** ** Two repetitions side by side *)

Lemma run_lazy_any s j :
  run (lazy_ RUndef None None) (VArr s) j = (Matched, j).
Proof.
  rewrite (run_lazy RUndef None None _ (VArr s) j eq_refl).
  pose proof (run_repeat any BFalse BFalse repeat_t None (VArr s) j) as H.
  simpl in H. rewrite repeat_for_all in H.
  - rewrite fold_elems_any in H. injection H as H. exact (eq_sym H).
  - apply Forall_forall. intros e _. reflexivity.
Qed.

Lemma run_lazy_capture label s j :
  run (lazy_capture label) (VArr s) j = (Matched, assign j label (VArr s)).
Proof.
  unfold lazy_capture, name. simpl. unfold matchable. simpl.
  rewrite run_name. by rewrite run_lazy_any.
Qed.

Lemma run_capture label s j :
  run (capture label) (VArr s) j = (Matched, assign j label (VArr s)).
Proof. apply run_named_greedy_any. Qed.

Lemma slice_all (xs : list value) : slice xs 0 (0 + length xs) = xs.
Proof. unfold slice. simpl. rewrite Nat.sub_0_r. by rewrite take_ge. Qed.

Lemma slice_empty (xs : list value) i : slice xs i (i + 0) = [].
Proof. unfold slice. by rewrite Nat.add_0_r, Nat.sub_diag. Qed.

Lemma search_second_capture first b xs i j :
  i <= length xs ->
  search [Rep first; Rep (capture b)] xs (0 + 1) i j
  = (Matched, assign j b (VArr (drop i xs))).
Proof.
  intros Hi.
  rewrite (search_greedy _ xs (0 + 1) i j (capture b)) by done.
  unfold greedy_spec.
  replace (Z.to_nat (remaining xs i + 1)) with (S (length xs - i))
    by (unfold remaining; lia).
  cbn [descend]. rewrite run_capture.
  rewrite search_end by (simpl; lia).
  replace (length xs <=? i + (length xs - i)) with true
    by (symmetry; apply Nat.leb_le; lia).
  do 3 f_equal. unfold slice.
  replace (i + (length xs - i) - i) with (length xs - i) by lia.
  apply take_ge. rewrite length_drop. lia.
Qed.

(** X13. Of two wildcard repetitions side by side the first decides:
    [[name(a, greedy()), name(b, greedy())]] assigns the whole array to
    [a] and then the empty array to [b], and with [lazy()] first it is the
    other way round. Both match every array. For labels other than
    [__proto__] these assignments bind the two labels. *)
Theorem leftmost_repetition_decides a b xs j :
  run (lst_of [capture a; capture b]) (VArr xs) j
    = (Matched, assign (assign j a (VArr xs)) b (VArr []))
  /\ run (lst_of [lazy_capture a; capture b]) (VArr xs) j
    = (Matched, assign (assign j a (VArr [])) b (VArr xs))
  /\ (a <> "__proto__" -> b <> "__proto__" ->
      run (lst_of [capture a; capture b]) (VArr xs) j
        = (Matched, <[Own b := VArr []]> (<[Own a := VArr xs]> j))
      /\ run (lst_of [lazy_capture a; capture b]) (VArr xs) j
        = (Matched, <[Own b := VArr xs]> (<[Own a := VArr []]> j))).
Proof.
  assert (Hg : run (lst_of [capture a; capture b]) (VArr xs) j
    = (Matched, assign (assign j a (VArr xs)) b (VArr []))).
  { unfold lst_of, matchable. rewrite !run_lst.
    change (chunkify [capture a; capture b] is_repeating)
      with [Rep (capture a); Rep (capture b)].
    rewrite (search_greedy _ xs 0 0 j (capture a)) by done.
    unfold greedy_spec.
    replace (Z.to_nat (remaining xs 0 + 1)) with (S (length xs))
      by (unfold remaining; lia).
    cbn [descend]. rewrite slice_all, run_capture.
    rewrite search_second_capture by lia.
    by rewrite drop_ge by lia. }
  assert (Hl : run (lst_of [lazy_capture a; capture b]) (VArr xs) j
    = (Matched, assign (assign j a (VArr [])) b (VArr xs))).
  { unfold lst_of, matchable. rewrite !run_lst.
    change (chunkify [lazy_capture a; capture b] is_repeating)
      with [Rep (lazy_capture a); Rep (capture b)].
    rewrite (search_lazy _ xs 0 0 j (lazy_capture a)) by done.
    unfold lazy_spec. cbn [ascend].
    rewrite slice_empty, run_lazy_capture.
    rewrite search_second_capture by lia.
    by rewrite drop_0. }
  split; [exact Hg|]. split; [exact Hl|].
  intros Ha Hb. rewrite Hg, Hl. by rewrite !assign_ordinary.
Qed.

(** ** A lazy capture between a fixed start and a fixed end *)






(** ** Where a call can raise *)

Lemma map_match_well_formed ps :
  forallb raw_well_formed ps = true ->
  forallb well_formed (map match_ ps) = true.
Proof.
  induction ps as [|q ps IH]; [done|]. simpl. intros H.
  apply andb_prop in H as [Hq Hps].
  by rewrite (match_well_formed q Hq), (IH Hps).
Qed.

Lemma wrapped_well_formed p min max rep t :
  raw_well_formed p = true -> repeat_ p min max = inl rep ->
  well_formed (matchable (callee (repeat_ p min max)) t) = true.
Proof.
  intros Hp E. rewrite E. simpl. by eapply repeat_well_formed.
Qed.

Lemma run_not_fn s t x j : run (matchable (not_fn s) t) x j = (TypeError, j).
Proof. reflexivity. Qed.

(** X16. Where a call raises. Over a pattern [p] free of calls to what is
    not a function, [match(p)], [name(label, p)], [or(p, ...alts)] and
    [repeat(p, min, max)] raise on no candidate, and [greedy(p, min, max)]
    and [lazy(p, min, max)] raise on every candidate when [max] alone is
    given, for they call the string [repeat] returned, and on none
    otherwise. *)
Theorem raises_only_on_max_alone p min max x j
    (Hp : raw_well_formed p = true) :
  fst (run (match_ p) x j) <> TypeError
  /\ (forall label, fst (run (name label p) x j) <> TypeError)
  /\ (forall alts, forallb raw_well_formed alts = true ->
        fst (run (or_ (p :: alts)) x j) <> TypeError)
  /\ (forall rep, repeat_ p min max = inl rep ->
        fst (run rep x j) <> TypeError)
  /\ match min, max with
     | None, Some _ =>
         run (greedy p min max) x j = (TypeError, j)
         /\ run (lazy_ p min max) x j = (TypeError, j)
     | _, _ =>
         fst (run (greedy p min max) x j) <> TypeError
         /\ fst (run (lazy_ p min max) x j) <> TypeError
     end.
Proof.
  split; [by apply run_well_formed, match_well_formed|].
  split; [intros label; by apply run_well_formed, name_well_formed|].
  split.
  { intros alts Halts. apply run_well_formed.
    apply (map_match_well_formed (p :: alts)). simpl. by rewrite Hp. }
  split.
  { intros rep E. apply run_well_formed. by eapply repeat_well_formed. }
  unfold greedy, lazy_.
  destruct min as [lo|], max as [hi|];
    try (split; apply run_well_formed;
         by eapply wrapped_well_formed).
  split; apply run_not_fn.
Qed.

Lemma raises_only_on_max_alone_witness :
  let p := RArr [RNum 1; RPat (greedy RUndef None None)] in
  raw_well_formed p = true
  /\ fst (run (match_ p) (VArr [VNum 1]) ∅) <> TypeError
  /\ run (greedy p None (Some 2%Z)) (VArr [VNum 1]) ∅ = (TypeError, ∅).
Proof.
  intros p.
  pose proof (raises_only_on_max_alone p None (Some 2%Z) (VArr [VNum 1]) ∅
                eq_refl) as (H1 & _ & _ & _ & H2 & _).
  split; [reflexivity|]. split; [exact H1 | exact H2].
Defined.


(** * Bindings of abandoned branches *)

(** ** Contexts only grow *)

Lemma extends_refl j : extends j j.
Proof. by intros l _. Qed.

Lemma extends_trans j1 j2 j3 : extends j1 j2 -> extends j2 j3 -> extends j1 j3.
Proof. intros H12 H23 l Hl Hs. by apply H23, H12. Qed.

Lemma extends_empty j : extends ∅ j.
Proof. intros l _ [v Hv]. by rewrite lookup_empty in Hv. Qed.

Lemma extends_assign j str x : extends j (assign j str x).
Proof. intros l _. apply assign_keeps. Qed.

(** The same assignment keeps one context ahead of the other. *)
Lemma assign_extends j1 j2 str x :
  extends j1 j2 -> extends (assign j1 str x) (assign j2 str x).
Proof.
  intros H l Hl Hs. destruct (decide (str = l)) as [->|Hne].
  - rewrite assign_ordinary by done. apply is_Some_insert. by left.
  - rewrite assign_untouched in Hs |- * by (simpl; congruence).
    by apply H.
Qed.

Lemma run_extends f x j1 j2 :
  extends j1 j2 -> extends (snd (run f x j1)) (snd (run f x j2)).
Proof.
  intros He.
  pose proof (sim_apply extends
                (fun str v k1 k2 => assign_extends k1 k2 str v)
                (height f) (height f) (le_n _) f x j1 j2 He) as H.
  rewrite !apply_run in H by done. simpl in H.
  destruct (run f x j1) as [o k1]. destruct H as (k2 & H & He').
  by injection H as ->.
Qed.

Lemma run_call_extends f y :
  sim_k extends (run_call f y) (run_call f y).
Proof.
  intros k1 k2 He. unfold run_call. simpl.
  pose proof (run_outcome_ctx f y k1 k2) as E.
  pose proof (run_extends f y k1 k2 He) as He'.
  destruct (run f y k1) as [o1 k1'], (run f y k2) as [o2 k2'].
  simpl in *. subst. eauto.
Qed.

Lemma search_extends chunks x ci xi j1 j2 :
  extends j1 j2 ->
  extends (snd (search chunks x ci xi j1)) (snd (search chunks x ci xi j2)).
Proof.
  intros He.
  pose proof (sim_submatch extends run_call run_call run_call_extends
                chunks x (S (length chunks - ci)) (S (length chunks - ci))
                ci xi (le_n _) j1 j2 He) as H.
  rewrite !submatch_search in H by lia. simpl in H.
  destruct (search chunks x ci xi j1) as [o k1].
  destruct H as (k2 & H & He'). by injection H as ->.
Qed.

Lemma run_grows f x j : extends j (snd (run f x j)).
Proof.
  pose proof (post_apply extends extends_refl extends_trans
                (fun str v k => extends_assign k str v) (height f) f x j) as H.
  rewrite apply_run in H by done. simpl in H.
  destruct (run f x j) as [o j']. apply H.
Qed.

Lemma search_grows chunks x ci xi j :
  extends j (snd (search chunks x ci xi j)).
Proof.
  pose proof (post_submatch extends extends_refl extends_trans run_call) as H.
  assert (Hcall : forall f y k,
    post extends (well_formed f = true) (run_call f y k) k).
  { intros f y k. unfold run_call. simpl.
    pose proof (run_grows f y k) as Hg.
    pose proof (run_well_formed f y k) as Hr.
    destruct (run f y k) as [o k']. by split. }
  specialize (H Hcall chunks x (S (length chunks - ci)) ci xi j).
  rewrite submatch_search in H by lia. simpl in H.
  destruct (search chunks x ci xi j) as [o j']. apply H.
Qed.

(** What a call binds in a fresh context it binds in every context. *)
Lemma binds_run f x j label :
  label <> "__proto__" -> binds (invoke f x) label -> binds (run f x j) label.
Proof.
  intros Hl H. by apply (run_extends f x ∅ j (extends_empty j) label Hl).
Qed.

Lemma binds_search chunks x ci xi j label :
  label <> "__proto__" ->
  binds (search chunks x ci xi ∅) label ->
  binds (search chunks x ci xi j) label.
Proof.
  intros Hl H.
  by apply (search_extends chunks x ci xi ∅ j (extends_empty j) label Hl).
Qed.

(** ** The attempts of a repetition chunk *)

Section Attempts.

Variable validate : list value -> ctx -> res.
Variable remainder : nat -> ctx -> res.
Variable x : list value.
Variable xi : nat.
Variable label : string.
Hypothesis label_ordinary : label <> "__proto__".
Hypothesis validate_blind :
  forall s j1 j2, fst (validate s j1) = fst (validate s j2).
Hypothesis remainder_blind :
  forall i j1 j2, fst (remainder i j1) = fst (remainder i j2).
Hypothesis validate_grows : forall s j, extends j (snd (validate s j)).
Hypothesis remainder_grows : forall i j, extends j (snd (remainder i j)).
Hypothesis validate_fresh :
  forall s j, extends (snd (validate s ∅)) (snd (validate s j)).
Hypothesis remainder_fresh :
  forall i j, extends (snd (remainder i ∅)) (snd (remainder i j)).

(** One round of either loop: what the attempt at [r] binds is bound in
    the context the round ends or goes on with. *)
Lemma round_keeps r j :
  leaves validate remainder x xi r label ->
  match validate (slice x xi (xi + r)) j with
  | (Matched, j1) => is_Some (snd (remainder (xi + r) j1) !! Own label)
  | (_, j1) => is_Some (j1 !! Own label)
  end.
Proof.
  unfold leaves, binds. intros H.
  pose proof (validate_blind (slice x xi (xi + r)) ∅ j) as Hb.
  pose proof (validate_fresh (slice x xi (xi + r)) j label label_ordinary)
    as Hf.
  destruct (validate (slice x xi (xi + r)) j) as [ov j1]. simpl in Hb, Hf.
  destruct ov.
  - pose proof (remainder_grows (xi + r) j1 label label_ordinary) as Hg.
    pose proof (remainder_fresh (xi + r) j1 label label_ordinary) as Hr.
    destruct H as [H | [_ H]]; [by apply Hg, Hf | by apply Hr].
  - destruct H as [H | [H _]]; [by apply Hf | congruence].
  - destruct H as [H | [H _]]; [by apply Hf | congruence].
Qed.

(** A round whose attempt fails hands its context to the next round. *)
Lemma round_abandoned r j :
  ends validate remainder x xi r = NoMatch ->
  match validate (slice x xi (xi + r)) j with
  | (Matched, j1) => fst (remainder (xi + r) j1) = NoMatch
  | (o, _) => o = NoMatch
  end.
Proof.
  unfold ends.
  rewrite (validate_blind (slice x xi (xi + r)) ∅ j).
  destruct (validate (slice x xi (xi + r)) j) as [ov j1]. simpl.
  destruct ov; [|done|done].
  by rewrite (remainder_blind (xi + r) ∅ j1).
Qed.

Lemma descend_grows n :
  forall j, extends j (snd (descend validate remainder x xi n j)).
Proof.
  induction n as [|n IH]; intros j; simpl; [apply extends_refl|].
  pose proof (validate_grows (slice x xi (xi + n)) j) as Hv.
  destruct (validate (slice x xi (xi + n)) j) as [ov j1]. simpl in Hv.
  destruct ov; [| by eapply extends_trans | done].
  pose proof (remainder_grows (xi + n) j1) as Hr.
  destruct (remainder (xi + n) j1) as [orr j2]. simpl in Hr.
  assert (H2 : extends j j2) by (by eapply extends_trans).
  destruct orr; [done | by eapply extends_trans | done].
Qed.

Lemma ascend_grows n :
  forall r0 j, extends j (snd (ascend validate remainder x xi n r0 j)).
Proof.
  induction n as [|n IH]; intros r0 j; simpl; [apply extends_refl|].
  pose proof (validate_grows (slice x xi (xi + r0)) j) as Hv.
  destruct (validate (slice x xi (xi + r0)) j) as [ov j1]. simpl in Hv.
  destruct ov; [| by eapply extends_trans | done].
  pose proof (remainder_grows (xi + r0) j1) as Hr.
  destruct (remainder (xi + r0) j1) as [orr j2]. simpl in Hr.
  assert (H2 : extends j j2) by (by eapply extends_trans).
  destruct orr; [done | by eapply extends_trans | done].
Qed.

(** The descending loop: what the attempt at a length reached binds, the
    result binds. *)
Lemma descend_keeps n :
  forall r j,
    r < n ->
    (forall r', r < r' < n -> ends validate remainder x xi r' = NoMatch) ->
    leaves validate remainder x xi r label ->
    binds (descend validate remainder x xi n j) label.
Proof.
  unfold binds.
  induction n as [|n IH]; intros r j Hr Hab Hl; [lia|]. simpl.
  destruct (decide (r = n)) as [->|Hne].
  - pose proof (round_keeps n j Hl) as Hk.
    destruct (validate (slice x xi (xi + n)) j) as [ov j1].
    destruct ov;
      [| by apply (descend_grows n j1 label label_ordinary) | done].
    destruct (remainder (xi + n) j1) as [orr j2]. simpl in Hk.
    destruct orr;
      [done | by apply (descend_grows n j2 label label_ordinary) | done].
  - assert (Hn : ends validate remainder x xi n = NoMatch)
      by (apply Hab; lia).
    pose proof (round_abandoned n j Hn) as Ha.
    assert (Hab' : forall r', r < r' < n ->
              ends validate remainder x xi r' = NoMatch)
      by (intros r' Hr'; apply Hab; lia).
    destruct (validate (slice x xi (xi + n)) j) as [ov j1].
    destruct ov; [| apply (IH r); (lia || done) | done].
    destruct (remainder (xi + n) j1) as [orr j2]. simpl in Ha. subst orr.
    apply (IH r); (lia || done).
Qed.

(** The ascending loop, likewise. *)
Lemma ascend_keeps n :
  forall r0 r j,
    r0 <= r < r0 + n ->
    (forall r', r0 <= r' < r -> ends validate remainder x xi r' = NoMatch) ->
    leaves validate remainder x xi r label ->
    binds (ascend validate remainder x xi n r0 j) label.
Proof.
  unfold binds.
  induction n as [|n IH]; intros r0 r j Hr Hab Hl; [lia|]. simpl.
  destruct (decide (r = r0)) as [->|Hne].
  - pose proof (round_keeps r0 j Hl) as Hk.
    destruct (validate (slice x xi (xi + r0)) j) as [ov j1].
    destruct ov;
      [| by apply (ascend_grows n (S r0) j1 label label_ordinary) | done].
    destruct (remainder (xi + r0) j1) as [orr j2]. simpl in Hk.
    destruct orr;
      [done | by apply (ascend_grows n (S r0) j2 label label_ordinary)
       | done].
  - assert (Hn : ends validate remainder x xi r0 = NoMatch)
      by (apply Hab; lia).
    pose proof (round_abandoned r0 j Hn) as Ha.
    assert (Hab' : forall r', S r0 <= r' < r ->
              ends validate remainder x xi r' = NoMatch)
      by (intros r' Hr'; apply Hab; lia).
    destruct (validate (slice x xi (xi + r0)) j) as [ov j1].
    destruct ov; [| apply (IH (S r0) r); (lia || done) | done].
    destruct (remainder (xi + r0) j1) as [orr j2]. simpl in Ha. subst orr.
    apply (IH (S r0) r); (lia || done).
Qed.

End Attempts.

(** ** Fixed chunks, alternatives and repetitions *)

Lemma fixed_run_grows x xi fx :
  forall c j, extends j (snd (fixed_run fx x xi c j)).
Proof.
  induction fx as [|e fx IH]; intros c j; simpl; [apply extends_refl|].
  pose proof (run_grows e (index x (c + xi)) j) as He.
  destruct (run e (index x (c + xi)) j) as [[] j1]; simpl in *;
    [by eapply extends_trans | done | done].
Qed.

Lemma fixed_run_all x xi fx :
  forall c j,
    (forall i q, fx !! i = Some q -> matches q (index x (c + i + xi))) ->
    fst (fixed_run fx x xi c j) = Matched.
Proof.
  induction fx as [|e fx IH]; intros c j H; simpl; [done|].
  pose proof (H 0 e eq_refl) as He. rewrite Nat.add_0_r in He.
  apply (matches_run e _ j) in He.
  destruct (run e (index x (c + xi)) j) as [o j1]. simpl in He. subst o.
  apply IH. intros i q Hi.
  replace (S c + i + xi) with (c + S i + xi) by lia. by apply H.
Qed.

(** Every element of a fixed chunk that is called leaves its bindings. *)
Lemma fixed_run_keeps x xi label fx :
  label <> "__proto__" ->
  forall c j i q,
    fx !! i = Some q ->
    (forall i' q', i' < i -> fx !! i' = Some q' ->
                   matches q' (index x (c + i' + xi))) ->
    binds (invoke q (index x (c + i + xi))) label ->
    binds (fixed_run fx x xi c j) label.
Proof.
  intros Hl. unfold binds.
  induction fx as [|e fx IH]; intros c j i q Hi Hpre Hq; [done|]. simpl.
  destruct i as [|i]; simpl in Hi.
  - injection Hi as ->. rewrite Nat.add_0_r in Hq.
    apply (binds_run _ _ j _ Hl) in Hq. unfold binds in Hq.
    destruct (run q (index x (c + xi)) j) as [[] j1]; simpl in *;
      [by apply (fixed_run_grows x xi fx (S c) j1 label Hl) | done | done].
  - pose proof (Hpre 0 e ltac:(lia) eq_refl) as He.
    rewrite Nat.add_0_r in He. apply (matches_run e _ j) in He.
    destruct (run e (index x (c + xi)) j) as [o j1]. simpl in He. subst o.
    apply (IH (S c) j1 i q Hi).
    + intros i' q' Hlt Hi'.
      replace (S c + i' + xi) with (c + S i' + xi) by lia.
      apply Hpre; [lia | done].
    + by replace (S c + i + xi) with (c + S i + xi) by lia.
Qed.

Lemma or_for_grows args x :
  forall j r, or_for run_call args x j = Some r -> extends j (snd r).
Proof.
  induction args as [|a args IH]; intros j r H; simpl in H.
  - injection H as <-. apply extends_refl.
  - unfold run_call at 1 in H. pose proof (run_grows a x j) as Ha.
    destruct (run a x j) as [[] j1]; simpl in *.
    + by injection H as <-.
    + eapply extends_trans; [exact Ha | by apply IH].
    + by injection H as <-.
Qed.

(** An alternative that is reached leaves its bindings, whether it
    matches or not. *)
Lemma or_for_keeps x label pre q post :
  label <> "__proto__" ->
  forall j r,
    Forall (fun a => rejects a x) pre -> binds (invoke q x) label ->
    or_for run_call (pre ++ q :: post) x j = Some r ->
    is_Some (snd r !! Own label).
Proof.
  intros Hl j r Hpre Hq. revert j.
  induction Hpre as [|a pre Ha _ IH]; intros j H; simpl in H.
  - unfold run_call at 1 in H.
    apply (binds_run _ _ j _ Hl) in Hq. unfold binds in Hq.
    destruct (run q x j) as [[] j1]; simpl in H, Hq.
    + by injection H as <-.
    + by apply (or_for_grows post x j1 r H label Hl).
    + by injection H as <-.
  - unfold run_call at 1 in H. apply (rejects_run a x j) in Ha.
    destruct (run a x j) as [o j1]. simpl in Ha. subst o. simpl in H.
    by apply (IH j1).
Qed.

Lemma repeat_for_grows p xs :
  forall j r, repeat_for run_call p xs j = Some r -> extends j (snd r).
Proof.
  induction xs as [|e xs IH]; intros j r H; simpl in H.
  - injection H as <-. apply extends_refl.
  - unfold run_call at 1 in H. pose proof (run_grows p e j) as He.
    destruct (run p e j) as [[] j1]; simpl in *.
    + eapply extends_trans; [exact He | by apply IH].
    + by injection H as <-.
    + by injection H as <-.
Qed.

(** An element of a repetition that is reached leaves its bindings. *)
Lemma repeat_for_keeps p label pre e post :
  label <> "__proto__" ->
  forall j r,
    Forall (matches p) pre -> binds (invoke p e) label ->
    repeat_for run_call p (pre ++ e :: post) j = Some r ->
    is_Some (snd r !! Own label).
Proof.
  intros Hl j r Hpre He. revert j.
  induction Hpre as [|a pre Ha _ IH]; intros j H; simpl in H.
  - unfold run_call at 1 in H.
    apply (binds_run _ _ j _ Hl) in He. unfold binds in He.
    destruct (run p e j) as [[] j1]; simpl in H, He.
    + by apply (repeat_for_grows p post j1 r H label Hl).
    + by injection H as <-.
    + by injection H as <-.
  - unfold run_call at 1 in H. apply (matches_run p a j) in Ha.
    destruct (run p a j) as [o j1]. simpl in Ha. subst o. simpl in H.
    by apply (IH j1).
Qed.

(** ** Nothing is taken back *)

(** C1. A binding, once written, is never taken back. Every entry of the
    context bound before a call is still bound after it, whether the call
    matched or not, and [name] binds its label when the inner pattern
    matches. So what a branch of the search binds stays bound when the
    branch is abandoned, for every label that [name] can bind, which is
    every label but [__proto__]:
    - at a greedy or lazy chunk, what the attempt at any length the loop
      reaches binds, by validating the slice or in the chunks behind it,
      is bound in the result of [submatch], also when that attempt fails
      and another length wins or none does;
    - in a fixed chunk, what an element binds is bound in the result, also
      when a later element or a later chunk fails; and what the chunks
      behind bind is bound in the result;
    - what an alternative of [or] binds is bound in the result, also when
      it fails and a later one matches; and likewise for the elements that
      a repetition accepts before it fails.
    A label can reach the result from an abandoned branch alone: in
    [or([name('A', any), 2], any)] on [[1, 3]] the first alternative fails
    after binding [A], the second binds nothing, and the match returns
    [{A: 1}]; in [[greedy(name('X', any), 0, 1), 1, 2]] on [[1, 2]] the
    attempt at length 1 binds [X] and fails, the attempt at length 0 binds
    nothing and succeeds, and the match returns [{X: 1}]. *)
Theorem abandoned_binding_kept :
  (forall f x j s, is_Some (j !! s) -> is_Some (snd (run f x j) !! s))
  /\ (forall label inner x j,
        label <> "__proto__" -> matches (match_ (or_any inner)) x ->
        snd (run (name label inner) x j) !! Own label = Some x)
  /\ (forall ps xs j,
        run (lst_of ps) (VArr xs) j
        = search (chunkify ps is_repeating) xs 0 0 j)
  /\ (forall chunks x ci xi e j r label,
        chunks !! ci = Some (Rep e) -> type_of e = greedy_t ->
        label <> "__proto__" ->
        xi + r <= length x ->
        (forall r', r < r' -> xi + r' <= length x ->
                    tries e chunks x ci xi r' = NoMatch) ->
        attempt_binds e chunks x ci xi r label ->
        binds (search chunks x ci xi j) label)
  /\ (forall chunks x ci xi e j r label,
        chunks !! ci = Some (Rep e) -> type_of e = lazy_t ->
        label <> "__proto__" ->
        r <= length x ->
        (forall r', r' < r -> tries e chunks x ci xi r' = NoMatch) ->
        attempt_binds e chunks x ci xi r label ->
        binds (search chunks x ci xi j) label)
  /\ (forall chunks x ci xi fx j c q label,
        chunks !! ci = Some (Fixed fx) -> xi + length fx <= length x ->
        label <> "__proto__" ->
        fx !! c = Some q ->
        (forall c' q', c' < c -> fx !! c' = Some q' ->
                       matches q' (index x (c' + xi))) ->
        binds (invoke q (index x (c + xi))) label ->
        binds (search chunks x ci xi j) label)
  /\ (forall chunks x ci xi fx j label,
        chunks !! ci = Some (Fixed fx) -> xi + length fx <= length x ->
        label <> "__proto__" ->
        (forall c q, fx !! c = Some q -> matches q (index x (c + xi))) ->
        binds (search chunks x (ci + 1) (xi + length fx) ∅) label ->
        binds (search chunks x ci xi j) label)
  /\ (forall args x j pre q post label,
        map match_ args = pre ++ q :: post ->
        Forall (fun a => rejects a x) pre ->
        label <> "__proto__" ->
        binds (invoke q x) label ->
        binds (run (or_ args) x j) label)
  /\ (forall inner min max rep pre e post j label,
        repeat_ inner min max = inl rep ->
        within (length (pre ++ e :: post)) min max ->
        Forall (matches (match_ (or_any inner))) pre ->
        label <> "__proto__" ->
        binds (invoke (match_ (or_any inner)) e) label ->
        binds (run rep (VArr (pre ++ e :: post)) j) label)
  /\ invoke first_alternative (nums [1; 3]%Z)
      = (NoMatch, {[ Own "A" := VNum 1 ]})
  /\ invoke second_alternative (nums [1; 3]%Z) = (Matched, ∅)
  /\ invoke leaking (nums [1; 3]%Z) = (Matched, {[ Own "A" := VNum 1 ]})
  /\ invoke backtracking (nums [1; 2]%Z) = (Matched, {[ Own "X" := VNum 1 ]})
  /\ (let e := greedy (RPat (name "X" RAny)) (Some 0%Z) (Some 1%Z) in
      let chunks := [Rep e; Fixed [is_ (VNum 1); is_ (VNum 2)]] in
      let x := [VNum 1; VNum 2] in
      tries e chunks x 0 0 2 = NoMatch
      /\ tries e chunks x 0 0 1 = NoMatch
      /\ attempt_binds e chunks x 0 0 1 "X"
      /\ tries e chunks x 0 0 0 = Matched
      /\ invoke e (VArr (slice x 0 (0 + 0))) = (Matched, ∅)
      /\ search chunks x (0 + 1) (0 + 0) ∅ = (Matched, ∅)).
Proof.
  split; [exact run_keeps_labels|]. split.
  { intros label inner x j Hl Hm. unfold name. simpl. unfold matchable.
    simpl. rewrite run_name.
    apply (matches_run _ x j) in Hm.
    destruct (run (match_ (or_any inner)) x j) as [o j1]. simpl in Hm.
    subst o. simpl. rewrite assign_ordinary by done.
    apply lookup_insert_eq. }
  split; [intros ps xs j; apply run_lst|]. split.
  { intros chunks x ci xi e j r label Hc Hg Hlab Hr Hab Hl.
    rewrite (search_greedy chunks x ci xi j e Hc Hg). unfold greedy_spec.
    apply (descend_keeps _ _ x xi label Hlab) with (r := r).
    - intros v k1 k2. apply run_outcome_ctx.
    - intros i k1 k2. apply search_outcome_ctx.
    - intros v k. apply run_grows.
    - intros i k. apply search_grows.
    - intros v k. apply run_extends, extends_empty.
    - intros i k. apply search_extends, extends_empty.
    - unfold remaining. lia.
    - intros r' Hr'. apply Hab; [lia|]. unfold remaining in Hr'. lia.
    - exact Hl. }
  split.
  { intros chunks x ci xi e j r label Hc Hlz Hlab Hr Hab Hl.
    rewrite (search_lazy chunks x ci xi j e Hc Hlz). unfold lazy_spec.
    apply (ascend_keeps _ _ x xi label Hlab) with (r := r).
    - intros v k1 k2. apply run_outcome_ctx.
    - intros i k1 k2. apply search_outcome_ctx.
    - intros v k. apply run_grows.
    - intros i k. apply search_grows.
    - intros v k. apply run_extends, extends_empty.
    - intros i k. apply search_extends, extends_empty.
    - lia.
    - intros r' Hr'. apply Hab. lia.
    - exact Hl. }
  split.
  { intros chunks x ci xi fx j c q label Hc Hfit Hlab Hq Hpre Hb.
    rewrite (search_fixed chunks x ci xi j fx Hc).
    replace (remaining x xi <? Z.of_nat (length fx))%Z with false
      by (symmetry; apply Z.ltb_ge; unfold remaining; lia).
    pose proof (fixed_run_keeps x xi label fx Hlab 0 j c q Hq Hpre Hb) as Hk.
    unfold binds in *.
    destruct (fixed_run fx x xi 0 j) as [[] j1]; simpl in Hk; [|done|done].
    by apply (search_grows chunks x (ci + 1) (xi + length fx) j1 label Hlab). }
  split.
  { intros chunks x ci xi fx j label Hc Hfit Hlab Hall Hb.
    rewrite (search_fixed chunks x ci xi j fx Hc).
    replace (remaining x xi <? Z.of_nat (length fx))%Z with false
      by (symmetry; apply Z.ltb_ge; unfold remaining; lia).
    pose proof (fixed_run_all x xi fx 0 j Hall) as Hm.
    destruct (fixed_run fx x xi 0 j) as [o j1]. simpl in Hm. subst o.
    by apply binds_search. }
  split.
  { intros args x j pre q post label E Hpre Hlab Hb. unfold or_, matchable.
    pose proof (run_or (map match_ args) or_t None x j) as H.
    rewrite E in H |- *.
    exact (or_for_keeps x label pre q post Hlab j _ Hpre Hb H). }
  split.
  { intros inner min max rep pre e post j label Hrep Hw Hpre Hlab Hb.
    destruct (repeat_bounds inner min max rep Hrep) as (lo & hi & -> & Hbd).
    apply Hbd in Hw as [E1 E2].
    pose proof (run_repeat (match_ (or_any inner)) lo hi repeat_t None
                  (VArr (pre ++ e :: post)) j) as H.
    unfold repeat_body in H. rewrite E1, E2 in H.
    exact (repeat_for_keeps _ label pre e post Hlab j _ Hpre Hb H). }
  split; [vm_compute; reflexivity|]. split; [vm_compute; reflexivity|].
  split; [vm_compute; reflexivity|]. split; [vm_compute; reflexivity|].
  intros e chunks x.
  split; [vm_compute; reflexivity|]. split; [vm_compute; reflexivity|].
  split; [left; vm_compute; by eexists|].
  split; [vm_compute; reflexivity|]. split; vm_compute; reflexivity.
Qed.

(** * The label [__proto__] *)




